(** * sumdb: a checksum database server over a transparent log

    A shallow embedding of github.com/pseudomuto/sumdb: the tree engine
    (internal/tree), the signer (internal/signer) and the coordinator
    (sumdb.go), together with the parts of golang.org/x/mod/sumdb/tlog and
    golang.org/x/mod/sumdb/note that they call, and under those the
    base64, decimal, UTF-8 and SHA-256 routines of Go's standard library.

    Go strings and byte slices are [string] (sequences of 8-bit characters),
    [int64] values are [Z] with the wrap-around written out, a Go
    [(T, error)] result is a [result T], and calls through the [Store]
    interface and to the upstream proxy are operations of a small program
    monad, interpreted by a handler that plays the store and the upstream. *)

From Stdlib Require Import ZArith Lia List String Ascii Bool.
From stdpp Require Import gmap strings.
Import ListNotations.

Local Open Scope string_scope.
Local Open Scope list_scope.
Local Open Scope Z_scope.

(** ** Machine integers *)

(** Go's [int64]: a [Z] in [[-2^63, 2^63)]; arithmetic wraps around. *)
Definition int64_ok (z : Z) : Prop := - 2 ^ 63 <= z < 2 ^ 63.

Definition wrap64 (z : Z) : Z := (z + 2 ^ 63) mod 2 ^ 64 - 2 ^ 63.

(** [uint64(x)] for an [int64] x. *)
Definition to_uint64 (z : Z) : Z := z mod 2 ^ 64.

Definition add64 (a b : Z) : Z := wrap64 (a + b).
Definition sub64 (a b : Z) : Z := wrap64 (a - b).
Definition mul64 (a b : Z) : Z := wrap64 (a * b).

(** [bits.TrailingZeros64]: the number of trailing zero bits of a [uint64];
    64 for 0. *)
Fixpoint trailing_zeros (fuel : nat) (x : Z) : nat :=
  match fuel with
  | O => O
  | S f => if Z.even x then S (trailing_zeros f (Z.div2 x)) else O
  end.

Definition TrailingZeros64 (x : Z) : nat := trailing_zeros 64 x.

(** The number of trailing 1-bits of a 64-bit integer. *)
Fixpoint trailing_ones_aux (fuel : nat) (x : Z) : nat :=
  match fuel with
  | O => O
  | S f => if Z.odd x then S (trailing_ones_aux f (Z.div2 x)) else O
  end.

Definition trailing_ones (id : Z) : nat := trailing_ones_aux 64 id.

(** ** Errors and results *)

(** Go [error] values.  The sentinels are the package-level variables of the
    repository; [ErrWrap] is [fmt.Errorf("<msg>: %w", err)] (the message is
    kept as its fixed text), [ErrWrap2] is [fmt.Errorf("%w: %w", e1, e2)],
    [ErrMsg] an error without a cause, and [ErrLengthMismatch] the
    "indexes and hashes length mismatch" error of the tree engine. *)
Inductive error : Type :=
| ErrNotFound
| ErrInvalidNote
| ErrVerifyFailed
| ErrMsg (msg : string)
| ErrLengthMismatch (indexes hashes : nat)
| ErrWrap (msg : string) (cause : error)
| ErrWrap2 (e1 e2 : error).

Inductive result (A : Type) : Type :=
| Ok (a : A)
| Err (e : error).
Arguments Ok {A} a.
Arguments Err {A} e.

Definition error_eqb_sentinel (e target : error) : bool :=
  match e, target with
  | ErrNotFound, ErrNotFound => true
  | ErrInvalidNote, ErrInvalidNote => true
  | ErrVerifyFailed, ErrVerifyFailed => true
  | _, _ => false
  end.

(** [errors.Is(err, target)] for a sentinel target: walks the wrap chain. *)
Fixpoint errors_Is (e target : error) : bool :=
  error_eqb_sentinel e target ||
  match e with
  | ErrWrap _ c => errors_Is c target
  | ErrWrap2 e1 e2 => errors_Is e1 target || errors_Is e2 target
  | _ => false
  end.

(** ** Hashes *)

Definition HashSize : nat := 32.

(** [tlog.Hash] is [[32]byte]: the length is part of the type. *)
Record Hash : Type := mkHash {
  hbytes : string;
  hlen : Nat.eqb (String.length hbytes) HashSize = true
}.

Fixpoint repeat_char (c : ascii) (n : nat) : string :=
  match n with
  | O => EmptyString
  | S k => String c (repeat_char c k)
  end.

(** [tlog.Hash{}]: 32 zero bytes. *)
Definition zeroHash : Hash := mkHash (repeat_char zero 32) eq_refl.

(** ** Bytes and strings *)

Definition byte_val (c : ascii) : Z := Z.of_nat (nat_of_ascii c).
Definition byte_of (z : Z) : ascii := ascii_of_nat (Z.to_nat z).

Definition nl_char : ascii := ascii_of_nat 10.
Definition nl : string := String nl_char EmptyString.

Fixpoint str_take (n : nat) (s : string) : string :=
  match n, s with
  | S k, String c r => String c (str_take k r)
  | _, _ => EmptyString
  end.

Fixpoint str_drop (n : nat) (s : string) : string :=
  match n, s with
  | S k, String _ r => str_drop k r
  | _, _ => s
  end.

Fixpoint str_all (p : ascii -> bool) (s : string) : bool :=
  match s with
  | EmptyString => true
  | String c r => p c && str_all p r
  end.

Fixpoint str_filter (p : ascii -> bool) (s : string) : string :=
  match s with
  | EmptyString => EmptyString
  | String c r => if p c then String c (str_filter p r) else str_filter p r
  end.

(** A byte other than [sep]. *)
Definition not_char (sep : ascii) (c : ascii) : bool := negb (Ascii.eqb c sep).

(** An ASCII decimal digit. *)
Definition is_digit (c : ascii) : bool := (48 <=? byte_val c) && (byte_val c <=? 57).

(** A printable ASCII character other than the space. *)
Definition is_plain (c : ascii) : bool := (33 <=? byte_val c) && (byte_val c <? 127).

(** The first [k] bytes are there and are not ASCII. *)
Fixpoint high_prefix (k : nat) (s : string) : bool :=
  match k, s with
  | O, _ => true
  | S k', String c r => (128 <=? byte_val c) && high_prefix k' r
  | S _, EmptyString => false
  end.

(** A printable ASCII character, a space or a newline. *)
Definition is_text (c : ascii) : bool :=
  is_plain c || Ascii.eqb c " "%char || Ascii.eqb c nl_char.

(** [strings.HasPrefix(s, p)]. *)
Fixpoint HasPrefix (s p : string) : bool :=
  match p, s with
  | EmptyString, _ => true
  | String a p', String b s' => Ascii.eqb a b && HasPrefix s' p'
  | String _ _, EmptyString => false
  end.

(** [strings.HasSuffix(s, "\n")]. *)
Fixpoint ends_with_nl (s : string) : bool :=
  match s with
  | EmptyString => false
  | String c EmptyString => Ascii.eqb c nl_char
  | String _ r => ends_with_nl r
  end.

(** [bytes.Count(s, "\n")]. *)
Fixpoint count_nl (s : string) : nat :=
  match s with
  | EmptyString => O
  | String c r => if Ascii.eqb c nl_char then S (count_nl r) else count_nl r
  end.

(** Cutting at the first occurrence of a byte: the text before and after
    it, when there is one. *)
Fixpoint cut_at (sep : ascii) (s : string) : option (string * string) :=
  match s with
  | EmptyString => None
  | String c r =>
      if Ascii.eqb c sep then Some (EmptyString, r)
      else match cut_at sep r with
           | Some (a, b) => Some (String c a, b)
           | None => None
           end
  end.

(** [strings.SplitN(s, "\n", n)]. *)
Fixpoint SplitN_nl (s : string) (n : nat) : list string :=
  match n with
  | O => []
  | S O => [s]
  | S n' =>
      match cut_at nl_char s with
      | Some (line, rest) => line :: SplitN_nl rest n'
      | None => [s]
      end
  end.

(** ** encoding/base64, [StdEncoding] *)
Module base64.

Definition alphabet : string :=
  "ABCDEFGHIJKLMNOPQRSTUVWXYZabcdefghijklmnopqrstuvwxyz0123456789+/".

Definition pad : ascii := "="%char.

(** [enc.encode[v]]. *)
Definition encode_char (v : Z) : ascii :=
  match String.get (Z.to_nat v) alphabet with
  | Some c => c
  | None => pad
  end.

(** [enc.decodeMap[c]]: the value of an alphabet character. *)
Definition decode_char (c : ascii) : option Z :=
  let b := byte_val c in
  if (65 <=? b) && (b <=? 90) then Some (b - 65)
  else if (97 <=? b) && (b <=? 122) then Some (b - 97 + 26)
  else if (48 <=? b) && (b <=? 57) then Some (b - 48 + 52)
  else if b =? 43 then Some 62
  else if b =? 47 then Some 63
  else None.

Definition sextet (val : Z) (shift : Z) : ascii :=
  encode_char (Z.land (Z.shiftr val shift) 63).

(** [EncodeToString(src)]. *)
Fixpoint EncodeToString (src : string) : string :=
  match src with
  | EmptyString => EmptyString
  | String a EmptyString =>
      let val := Z.shiftl (byte_val a) 16 in
      String (sextet val 18) (String (sextet val 12) (String pad (String pad EmptyString)))
  | String a (String b EmptyString) =>
      let val := Z.lor (Z.shiftl (byte_val a) 16) (Z.shiftl (byte_val b) 8) in
      String (sextet val 18) (String (sextet val 12)
        (String (sextet val 6) (String pad EmptyString)))
  | String a (String b (String c rest)) =>
      let val := Z.lor (Z.lor (Z.shiftl (byte_val a) 16) (Z.shiftl (byte_val b) 8))
                       (byte_val c) in
      String (sextet val 18) (String (sextet val 12)
        (String (sextet val 6) (String (sextet val 0) (EncodeToString rest))))
  end.

Definition octet (val : Z) (shift : Z) : ascii :=
  byte_of (Z.land (Z.shiftr val shift) 255).

(** The quanta of [DecodeString], on an input without line breaks: four
    characters give three bytes; padding is accepted in the last quantum
    only. *)
Fixpoint decode_quanta (src : string) : option string :=
  match src with
  | EmptyString => Some EmptyString
  | String a (String b (String c (String d rest))) =>
      match decode_char a, decode_char b with
      | Some va, Some vb =>
          if Ascii.eqb d pad then
            match rest with
            | EmptyString =>
                if Ascii.eqb c pad then
                  let val := Z.lor (Z.shiftl va 18) (Z.shiftl vb 12) in
                  Some (String (octet val 16) EmptyString)
                else
                  match decode_char c with
                  | Some vc =>
                      let val := Z.lor (Z.lor (Z.shiftl va 18) (Z.shiftl vb 12))
                                       (Z.shiftl vc 6) in
                      Some (String (octet val 16) (String (octet val 8) EmptyString))
                  | None => None
                  end
            | String _ _ => None
            end
          else
            match decode_char c, decode_char d, decode_quanta rest with
            | Some vc, Some vd, Some out =>
                let val := Z.lor (Z.lor (Z.lor (Z.shiftl va 18) (Z.shiftl vb 12))
                                        (Z.shiftl vc 6)) vd in
                Some (String (octet val 16) (String (octet val 8)
                        (String (octet val 0) out)))
            | _, _, _ => None
            end
      | _, _ => None
      end
  | _ => None
  end.

Definition is_newline (c : ascii) : bool :=
  Ascii.eqb c nl_char || Ascii.eqb c (ascii_of_nat 13).

(** [DecodeString(s)]: line breaks are skipped; [None] is a
    [CorruptInputError]. *)
Definition DecodeString (s : string) : option string :=
  decode_quanta (str_filter (fun c => negb (is_newline c)) s).

End base64.

(** ** strconv *)
Module strconv.

Definition digit_char (d : Z) : ascii := byte_of (48 + d).

(** The decimal digits of a positive number, most significant first. *)
Fixpoint digits (fuel : nat) (n : Z) (acc : string) : string :=
  match fuel with
  | O => acc
  | S f =>
      if n <=? 0 then acc
      else digits f (n / 10) (String (digit_char (n mod 10)) acc)
  end.

Definition FormatUint (n : Z) : string :=
  if n =? 0 then "0" else digits 20 n EmptyString.

(** [FormatInt(n, 10)], also [%d] of an [int64]. *)
Definition FormatInt (n : Z) : string :=
  if n <? 0 then String "-"%char (FormatUint (- n)) else FormatUint n.

(** The digit loop of [ParseUint(s, 10, 64)]: [None] for a character that
    is not a digit and for a value above [2^64 - 1]. *)
Fixpoint parse_digits (s : string) (n : Z) : option Z :=
  match s with
  | EmptyString => Some n
  | String c r =>
      let b := byte_val c in
      if (48 <=? b) && (b <=? 57) then
        let n1 := n * 10 + (b - 48) in
        if 2 ^ 64 <=? n1 then None else parse_digits r n1
      else None
  end.

Definition ParseUint (s : string) : option Z :=
  match s with
  | EmptyString => None
  | _ => parse_digits s 0
  end.

(** [ParseInt(s, 10, 64)]; [None] is any error. *)
Definition ParseInt (s : string) : option Z :=
  match s with
  | EmptyString => None
  | String c r =>
      let neg := Ascii.eqb c "-"%char in
      let s1 := if Ascii.eqb c "+"%char || neg then r else s in
      match ParseUint s1 with
      | None => None
      | Some un =>
          if negb neg && (2 ^ 63 <=? un) then None
          else if neg && (2 ^ 63 <? un) then None
          else Some (if neg then - un else un)
      end
  end.

End strconv.

(** ** unicode/utf8 and unicode *)
Module utf8.

Definition RuneError : Z := 65533.

Definition is_cont (b : Z) : bool := (128 <=? b) && (b <=? 191).

(** [DecodeRune(p)]: the first rune of [p] and its width in bytes;
    [(RuneError, 1)] for an invalid encoding, [(RuneError, 0)] for the empty
    input. *)
Definition DecodeRune (p : string) : Z * nat :=
  match p with
  | EmptyString => (RuneError, 0%nat)
  | String c0 r0 =>
      let b0 := byte_val c0 in
      if b0 <? 128 then (b0, 1%nat)
      else if (b0 <? 194) || (244 <? b0) then (RuneError, 1%nat)
      else
        match r0 with
        | EmptyString => (RuneError, 1%nat)
        | String c1 r1 =>
            let b1 := byte_val c1 in
            let lo := if b0 =? 224 then 160 else if b0 =? 240 then 144 else 128 in
            let hi := if b0 =? 237 then 159 else if b0 =? 244 then 143 else 191 in
            if (b1 <? lo) || (hi <? b1) then (RuneError, 1%nat)
            else if b0 <? 224 then
              (Z.lor (Z.shiftl (Z.land b0 31) 6) (Z.land b1 63), 2%nat)
            else
              match r1 with
              | EmptyString => (RuneError, 1%nat)
              | String c2 r2 =>
                  let b2 := byte_val c2 in
                  if negb (is_cont b2) then (RuneError, 1%nat)
                  else if b0 <? 240 then
                    (Z.lor (Z.lor (Z.shiftl (Z.land b0 15) 12)
                                  (Z.shiftl (Z.land b1 63) 6))
                           (Z.land b2 63), 3%nat)
                  else
                    match r2 with
                    | EmptyString => (RuneError, 1%nat)
                    | String c3 _ =>
                        let b3 := byte_val c3 in
                        if negb (is_cont b3) then (RuneError, 1%nat)
                        else
                          (Z.lor (Z.lor (Z.lor (Z.shiftl (Z.land b0 7) 18)
                                               (Z.shiftl (Z.land b1 63) 12))
                                        (Z.shiftl (Z.land b2 63) 6))
                                 (Z.land b3 63), 4%nat)
                    end
              end
        end
  end.

(** The loop [for i := 0; i < len(s); { r, size := DecodeRune(s[i:]); ...;
    i += size }] with a test on every rune: [skip] counts the bytes of the
    current rune that are still to be passed. *)
Fixpoint all_runes (p : Z -> nat -> bool) (skip : nat) (s : string) : bool :=
  match s with
  | EmptyString => true
  | String _ r =>
      match skip with
      | S k => all_runes p k r
      | O =>
          let '(rn, size) := DecodeRune s in
          p rn size && all_runes p (size - 1) r
      end
  end.

Definition invalid_rune (rn : Z) (size : nat) : bool :=
  (rn =? RuneError) && Nat.eqb size 1.

(** [ValidString(s)]. *)
Definition ValidString (s : string) : bool :=
  all_runes (fun rn size => negb (invalid_rune rn size)) 0 s.

(** [unicode.IsSpace(r)]. *)
Definition IsSpace (r : Z) : bool :=
  ((9 <=? r) && (r <=? 13)) || (r =? 32) || (r =? 133) || (r =? 160) ||
  (r =? 5760) || ((8192 <=? r) && (r <=? 8202)) || (r =? 8232) || (r =? 8233) ||
  (r =? 8239) || (r =? 8287) || (r =? 12288).

End utf8.

(** ** golang.org/x/mod/sumdb/note

    [Sign] and [Open] of the same library, with what they use. *)
Module note.

(** The interfaces [note.Signer] and [note.Verifier]. *)
Record Signer : Type := mkSigner {
  s_Name : string;
  s_KeyHash : Z;
  s_Sign : string -> result string
}.

Record Verifier : Type := mkVerifier {
  v_Name : string;
  v_KeyHash : Z;
  v_Verify : string -> string -> bool
}.

Record Signature : Type := mkSignature {
  sig_Name : string;
  sig_Hash : Z;
  sig_Base64 : string
}.

Record Note : Type := mkNote {
  Text : string;
  Sigs : list Signature;
  UnverifiedSigs : list Signature
}.

Definition errMalformedNote : error := ErrMsg "malformed note".
Definition errInvalidSigner : error := ErrMsg "invalid signer".
Definition errInvalidSignature : error := ErrMsg "invalid signature".
Definition errUnverifiedNote : error := ErrMsg "note has no verifiable signatures".
Definition errUnknownVerifier : error := ErrMsg "unknown key".
Definition errAmbiguousVerifier : error := ErrMsg "ambiguous key".

(** The type test of [Open] for an [UnknownVerifierError]. *)
Definition error_is_unknown (e : error) : bool :=
  match e with
  | ErrMsg m => String.eqb m "unknown key"
  | _ => false
  end.

(** "— ": an em dash (three bytes) and a space. *)
Definition sigPrefix : string :=
  String (ascii_of_nat 226) (String (ascii_of_nat 128)
    (String (ascii_of_nat 148) (String " "%char EmptyString))).

(** [isValidName(name)]: not empty, valid UTF-8, no space, no plus. *)
Definition isValidName (name : string) : bool :=
  negb (String.eqb name EmptyString) &&
  utf8.ValidString name &&
  utf8.all_runes (fun rn _ => negb (utf8.IsSpace rn)) 0 name &&
  str_all (fun c => negb (Ascii.eqb c "+"%char)) name.

(** [binary.BigEndian.PutUint32] and [binary.BigEndian.Uint32]. *)
Definition PutUint32 (v : Z) : string :=
  String (byte_of (Z.land (Z.shiftr v 24) 255))
    (String (byte_of (Z.land (Z.shiftr v 16) 255))
      (String (byte_of (Z.land (Z.shiftr v 8) 255))
        (String (byte_of (Z.land v 255)) EmptyString))).

Definition Uint32 (b : string) : Z :=
  match b with
  | String b0 (String b1 (String b2 (String b3 _))) =>
      Z.lor (Z.lor (Z.lor (Z.shiftl (byte_val b0) 24) (Z.shiftl (byte_val b1) 16))
                   (Z.shiftl (byte_val b2) 8))
            (byte_val b3)
  | _ => 0
  end.

Definition same_key (name : string) (hash : Z) (k : string * Z) : bool :=
  String.eqb (fst k) name && (snd k =? hash).

(** The first loop of [Sign]: one signature line per signer, over the text
    of the note. *)
Fixpoint sign_lines (text : string) (signers : list Signer)
  : result (string * list (string * Z)) :=
  match signers with
  | [] => Ok (EmptyString, [])
  | s :: rest =>
      let name := s_Name s in
      let hash := s_KeyHash s in
      if negb (isValidName name) then Err errInvalidSigner
      else
        match s_Sign s text with
        | Err e => Err e
        | Ok sig =>
            let b64 := base64.EncodeToString (PutUint32 hash +:+ sig) in
            match sign_lines text rest with
            | Err e => Err e
            | Ok (lines, have) =>
                Ok (sigPrefix +:+ name +:+ " " +:+ b64 +:+ nl +:+ lines,
                    (name, hash) :: have)
            end
        end
  end.

(** The second loop of [Sign]: the signatures the note already has, except
    those of the signers. *)
Fixpoint old_lines (have : list (string * Z)) (sigs : list Signature)
  : result string :=
  match sigs with
  | [] => Ok EmptyString
  | sg :: rest =>
      if negb (isValidName (sig_Name sg)) then Err errMalformedNote
      else if existsb (same_key (sig_Name sg) (sig_Hash sg)) have
      then old_lines have rest
      else
        match base64.DecodeString (sig_Base64 sg) with
        | None => Err errMalformedNote
        | Some raw =>
            if (String.length raw <? 4)%nat || negb (Uint32 raw =? sig_Hash sg)
            then Err errMalformedNote
            else
              match old_lines have rest with
              | Err e => Err e
              | Ok lines =>
                  Ok (sigPrefix +:+ sig_Name sg +:+ " " +:+ sig_Base64 sg
                        +:+ nl +:+ lines)
              end
        end
  end.

(** [Sign(n, signers...)]. *)
Definition Sign (n : Note) (signers : list Signer) : result string :=
  if negb (ends_with_nl (Text n)) then Err errMalformedNote
  else
    match sign_lines (Text n) signers with
    | Err e => Err e
    | Ok (lines, have) =>
        match old_lines have (Sigs n ++ UnverifiedSigs n) with
        | Err e => Err e
        | Ok old => Ok (Text n +:+ nl +:+ old +:+ lines)
        end
    end.

(** [bytes.LastIndex(msg, "\n\n")]. *)
Fixpoint last_blank_line (s : string) (pos : nat) (found : option nat)
  : option nat :=
  match s with
  | EmptyString => found
  | String a r =>
      match r with
      | EmptyString => found
      | String b _ =>
          last_blank_line r (S pos)
            (if Ascii.eqb a nl_char && Ascii.eqb b nl_char then Some pos else found)
      end
  end.

(** [VerifierList(list...).Verifier(name, hash)]. *)
Definition find_verifier (known : list Verifier) (name : string) (hash : Z)
  : result Verifier :=
  match List.filter (fun v => String.eqb (v_Name v) name && (v_KeyHash v =? hash))
          known with
  | [] => Err errUnknownVerifier
  | [v] => Ok v
  | _ => Err errAmbiguousVerifier
  end.

(** [chop(s, " ")]. *)
Definition chop (s : string) : string * string :=
  match cut_at " "%char s with
  | Some (before, after) => (before, after)
  | None => (s, EmptyString)
  end.

(** The signature loop of [Open]; every round takes one line off [sigs]. *)
Fixpoint open_sigs (fuel : nat) (known : list Verifier) (text sigs : string)
    (seen : list (string * Z)) (seenUnverified : list string) (numSig : nat)
    (n : Note) : result Note :=
  match sigs with
  | EmptyString => Ok n
  | _ =>
      match fuel with
      | O => Err errMalformedNote
      | S f =>
          match cut_at nl_char sigs with
          | None => Err errMalformedNote
          | Some (line0, sigs1) =>
              if negb (HasPrefix line0 sigPrefix) then Err errMalformedNote
              else
                let line := str_drop (String.length sigPrefix) line0 in
                let '(name, b64) := chop line in
                match base64.DecodeString b64 with
                | None => Err errMalformedNote
                | Some sig =>
                    if negb (isValidName name) || String.eqb b64 EmptyString
                       || (String.length sig <? 5)%nat
                    then Err errMalformedNote
                    else
                      let hash := Uint32 sig in
                      let sig1 := str_drop 4 sig in
                      if (100 <? S numSig)%nat then Err errMalformedNote
                      else
                        match find_verifier known name hash with
                        | Err e =>
                            if error_is_unknown e then
                              if existsb (String.eqb line) seenUnverified
                              then open_sigs f known text sigs1 seen seenUnverified
                                     (S numSig) n
                              else open_sigs f known text sigs1 seen
                                     (line :: seenUnverified) (S numSig)
                                     (mkNote (Text n) (Sigs n)
                                        (UnverifiedSigs n ++ [mkSignature name hash b64]))
                            else Err e
                        | Ok v =>
                            if existsb (same_key name hash) seen
                            then open_sigs f known text sigs1 seen seenUnverified
                                   (S numSig) n
                            else if negb (v_Verify v text sig1)
                            then Err errInvalidSignature
                            else open_sigs f known text sigs1 ((name, hash) :: seen)
                                   seenUnverified (S numSig)
                                   (mkNote (Text n) (Sigs n ++ [mkSignature name hash b64])
                                      (UnverifiedSigs n))
                        end
                end
          end
      end
  end.

(** The test of [Open] on every rune of the message: no ASCII control
    character other than newline, no invalid encoding. *)
Definition rune_ok (rn : Z) (size : nat) : bool :=
  negb (((rn <? 32) && negb (rn =? 10)) || utf8.invalid_rune rn size).

(** [Open(msg, known)]. *)
Definition Open (msg : string) (known : list Verifier) : result Note :=
  if negb (utf8.all_runes rune_ok 0 msg) then Err errMalformedNote
  else
    match last_blank_line msg 0 None with
    | None => Err errMalformedNote
    | Some split =>
        let text := str_take (split + 1) msg in
        let sigs := str_drop (split + 2) msg in
        if String.eqb sigs EmptyString || negb (ends_with_nl sigs)
        then Err errMalformedNote
        else
          match open_sigs (String.length sigs) known text sigs [] [] 0
                  (mkNote text [] []) with
          | Err e => Err e
          | Ok n =>
              match Sigs n with
              | [] => Err errUnverifiedNote
              | _ => Ok n
              end
          end
    end.

End note.

(** The digest behind [tlog.RecordHash] and [tlog.NodeHash]: the tree engine
    uses it through this interface only. *)
Class Sha256 := sha256_Sum256 : string -> Hash.

(** ** crypto/sha256

    SHA-256 as FIPS 180-4 defines it, on 32-bit words held in [Z]. *)
Module sha256.

Definition mask32 (x : Z) : Z := Z.land x 0xffffffff.
Definition add32 (a b : Z) : Z := mask32 (a + b).
Definition rotr (n x : Z) : Z := Z.lor (Z.shiftr x n) (mask32 (Z.shiftl x (32 - n))).

Definition Ch (e f g : Z) : Z := Z.lxor (Z.land e f) (Z.land (Z.lnot e) g).
Definition Maj (a b c : Z) : Z :=
  Z.lxor (Z.lxor (Z.land a b) (Z.land a c)) (Z.land b c).
Definition Sigma0 (a : Z) : Z := Z.lxor (Z.lxor (rotr 2 a) (rotr 13 a)) (rotr 22 a).
Definition Sigma1 (e : Z) : Z := Z.lxor (Z.lxor (rotr 6 e) (rotr 11 e)) (rotr 25 e).
Definition sigma0 (x : Z) : Z := Z.lxor (Z.lxor (rotr 7 x) (rotr 18 x)) (Z.shiftr x 3).
Definition sigma1 (x : Z) : Z := Z.lxor (Z.lxor (rotr 17 x) (rotr 19 x)) (Z.shiftr x 10).

(** The first primes, by trial division. *)
Definition is_prime (n : nat) : bool :=
  forallb (fun d => negb (Nat.eqb (n mod d) 0)) (seq 2 (n - 2)).

Definition primes (count : nat) : list Z :=
  map Z.of_nat (firstn count (List.filter is_prime (seq 2 400))).

(** The integer cube root, by bisection between [lo] and [hi]. *)
Fixpoint cube_root (fuel : nat) (lo hi n : Z) : Z :=
  match fuel with
  | O => lo
  | S f =>
      if hi - lo <=? 1 then lo
      else
        let m := (lo + hi) / 2 in
        if m * m * m <=? n then cube_root f m hi n else cube_root f lo m n
  end.

(** The round constants: the first 32 bits of the fractional parts of the
    cube roots of the first 64 primes. *)
Definition K : list Z :=
  Eval vm_compute in
    map (fun p => mask32 (cube_root 64 0 (2 ^ 40) (p * 2 ^ 96))) (primes 64).

Definition state : Type := (Z * Z * Z * Z * Z * Z * Z * Z)%type.

(** The initial hash value: the first 32 bits of the fractional parts of
    the square roots of the first 8 primes. *)
Definition init_words : list Z :=
  Eval vm_compute in map (fun p => mask32 (Z.sqrt (p * 2 ^ 64))) (primes 8).

Definition init : state :=
  (nth 0 init_words 0, nth 1 init_words 0, nth 2 init_words 0, nth 3 init_words 0,
   nth 4 init_words 0, nth 5 init_words 0, nth 6 init_words 0, nth 7 init_words 0).

(** The message schedule, latest word first. *)
Definition next_word (rw : list Z) : list Z :=
  add32 (add32 (add32 (sigma1 (nth 1 rw 0)) (nth 6 rw 0)) (sigma0 (nth 14 rw 0)))
        (nth 15 rw 0) :: rw.

Definition schedule (block : list Z) : list Z :=
  rev (Nat.iter 48 next_word (rev block)).

Definition round (st : state) (kw : Z * Z) : state :=
  let '(a, b, c, d, e, f, g, h) := st in
  let t1 := add32 (add32 (add32 (add32 h (Sigma1 e)) (Ch e f g)) (fst kw)) (snd kw) in
  let t2 := add32 (Sigma0 a) (Maj a b c) in
  (add32 t1 t2, a, b, c, add32 d t1, e, f, g).

Definition compress (st : state) (block : list Z) : state :=
  let '(a, b, c, d, e, f, g, h) := st in
  let '(a1, b1, c1, d1, e1, f1, g1, h1) :=
    fold_left round (combine K (schedule block)) st in
  (add32 a a1, add32 b b1, add32 c c1, add32 d d1,
   add32 e e1, add32 f f1, add32 g g1, add32 h h1).

(** Big-endian words of a padded message; every 16 words are a block. *)
Fixpoint words (bytes : list Z) : list Z :=
  match bytes with
  | b0 :: b1 :: b2 :: b3 :: rest =>
      Z.lor (Z.lor (Z.lor (Z.shiftl b0 24) (Z.shiftl b1 16)) (Z.shiftl b2 8)) b3
        :: words rest
  | _ => []
  end.

Fixpoint blocks (fuel : nat) (ws : list Z) (st : state) : state :=
  match fuel, ws with
  | S f, _ :: _ => blocks f (skipn 16 ws) (compress st (firstn 16 ws))
  | _, _ => st
  end.

Fixpoint bytes_of_string (s : string) : list Z :=
  match s with
  | EmptyString => []
  | String c r => byte_val c :: bytes_of_string r
  end.

Definition be_bytes (n : nat) (v : Z) : list Z :=
  map (fun i => Z.land (Z.shiftr v (8 * Z.of_nat (n - 1 - i))) 255) (seq 0 n).

(** The padding: a 1 bit, zeros up to 56 bytes modulo 64, then the length
    in bits on 8 bytes. *)
Definition padded (msg : list Z) : list Z :=
  let len := Z.of_nat (length msg) in
  let zeros := Z.to_nat ((55 - len) mod 64) in
  msg ++ [128] ++ repeat 0 zeros ++ be_bytes 8 (8 * len).

Definition digest (s : string) : state :=
  let ws := words (padded (bytes_of_string s)) in
  blocks (length ws) ws init.

Definition b3 (w : Z) : ascii := byte_of (Z.land (Z.shiftr w 24) 255).
Definition b2 (w : Z) : ascii := byte_of (Z.land (Z.shiftr w 16) 255).
Definition b1 (w : Z) : ascii := byte_of (Z.land (Z.shiftr w 8) 255).
Definition b0 (w : Z) : ascii := byte_of (Z.land w 255).

Definition word_bytes (w : Z) (r : string) : string :=
  String (b3 w) (String (b2 w) (String (b1 w) (String (b0 w) r))).

(** [sha256.Sum256(data)]. *)
Definition Sum256 (data : string) : Hash :=
  let '(a, b, c, d, e, f, g, h) := digest data in
  mkHash
    (word_bytes a (word_bytes b (word_bytes c (word_bytes d
      (word_bytes e (word_bytes f (word_bytes g (word_bytes h EmptyString))))))))
    eq_refl.

End sha256.

#[export] Instance sha256_impl : Sha256 := sha256.Sum256.

(** ** Data *)

(** [module.Version]. *)
Record ModVersion : Type := mkMod { Path : string; Version : string }.

(** [sumdb.Record]. *)
Record RecordT : Type := mkRecord {
  RecID : Z;
  RecPath : string;
  RecVersion : string;
  RecData : string
}.

(** [tlog.Tree]. *)
Record Tree : Type := mkTree { TreeN : Z; TreeHashOf : Hash }.

(** ** Programs over the store and the upstream

    The methods of the [Store] interface (store.go) and the two requests of
    the upstream proxy (internal/proxy) are the operations; a program is a
    tree of operations, and [Crash] is a Go panic or a loop that does not
    end. *)
Inductive op : Type -> Type :=
| OpRecordID (path version : string) : op (result Z)
| OpRecords (id n : Z) : op (result (list RecordT))
| OpAddRecord (r : RecordT) : op (result Z)
| OpReadHashes (indexes : list Z) : op (result (list Hash))
| OpWriteHashes (indexes : list Z) (hashes : list Hash) : op (result unit)
| OpTreeSize : op (result Z)
| OpSetTreeSize (size : Z) : op (result unit)
| OpGoMod (m : ModVersion) : op (result string)
| OpZip (m : ModVersion) : op (result string).

Inductive prog (A : Type) : Type :=
| Ret (a : A)
| Crash
| Vis (X : Type) (o : op X) (k : X -> prog A).
Arguments Ret {A} a.
Arguments Crash {A}.
Arguments Vis {A X} o k.

Fixpoint bind {A B : Type} (p : prog A) (f : A -> prog B) : prog B :=
  match p with
  | Ret a => f a
  | Crash => Crash
  | Vis o k => Vis o (fun x => bind (k x) f)
  end.

Definition call {X : Type} (o : op X) : prog X := Vis o Ret.

Declare Scope prog_scope.
Delimit Scope prog_scope with prog.
Notation "x <- p ;; q" := (bind p (fun x => q))
  (at level 100, p at next level, right associativity) : prog_scope.
Notation "'check!' x <- p 'or' w ;; q" :=
  (bind p (fun r => match r with
                    | Ok x => q
                    | Err e => Ret (Err (w e))
                    end))
  (at level 100, x name, p at next level, w at next level,
   right associativity) : prog_scope.
Local Open Scope prog_scope.

(** One performed operation with the answer it got. *)
Inductive event : Type :=
| Ev (X : Type) (o : op X) (x : X).
Arguments Ev {X} o x.

(** A handler answers every operation from a state: a store implementation
    together with an upstream; [None] when the implementation panics. *)
Definition handler (S : Type) : Type := forall X, op X -> S -> option (X * S).

(** Running a program: the result, the final state and the operations
    performed, in order; [None] when the program crashes. *)
Fixpoint run {S A : Type} (h : handler S) (p : prog A) (s : S)
  : option (A * S * list event) :=
  match p with
  | Ret a => Some (a, s, [])
  | Crash => None
  | Vis o k =>
      match h _ o s with
      | None => None
      | Some (x, s1) =>
          match run h (k x) s1 with
          | Some (a, s2, tr) => Some (a, s2, Ev o x :: tr)
          | None => None
          end
      end
  end.

(** ** golang.org/x/mod/sumdb/tlog

    The functions of the library (golang.org/x/mod v0.30.0 in go.mod) that
    the tree engine and the signer call. *)
Module tlog.
Section Tlog.
Context {sha : Sha256}.

(** [RecordHash(data)] = SHA256(0x00 || data). *)
Definition RecordHash (data : string) : Hash :=
  sha256_Sum256 (String zero data).

(** [NodeHash(left, right)] = SHA256(0x01 || left || right). *)
Definition NodeHash (left right : Hash) : Hash :=
  sha256_Sum256 (String (ascii_of_nat 1) (hbytes left +:+ hbytes right)).

(** [for l := level; l > 0; l-- { n = 2*n + 1 }] *)
Fixpoint level_down (level : nat) (n : Z) : Z :=
  match level with
  | O => n
  | S l => level_down l (add64 (mul64 2 n) 1)
  end.

(** [for ; n > 0; n >>= 1 { i += n }]: an [int64] is positive for at most
    63 halvings. *)
Fixpoint sum_halves (fuel : nat) (n i : Z) : Z :=
  match fuel with
  | O => i
  | S f => if 0 <? n then sum_halves f (Z.shiftr n 1) (add64 i n) else i
  end.

(** [StoredHashIndex(level, n)]: the storage index of the n-th hash of a
    level. *)
Definition StoredHashIndex (level : nat) (n : Z) : Z :=
  add64 (sum_halves 64 (level_down level n) 0) (Z.of_nat level).

(** The loop of [StoredHashesForRecordHash] that builds the new hashes:
    [for i := 0; i < m; i++ { h = NodeHash(old[m-1-i], h); hashes =
    append(hashes, h) }], over [old] read from its last element. *)
Fixpoint build_hashes (old_rev : list Hash) (h : Hash) (hashes : list Hash)
  : list Hash :=
  match old_rev with
  | [] => hashes
  | o :: rest =>
      let h1 := NodeHash o h in
      build_hashes rest h1 (hashes ++ [h1])
  end.

(** The indexes read by [StoredHashesForRecordHash]:
    [indexes[m-1-i] = StoredHashIndex(i, n>>uint(i)-1)] for [i < m]. *)
Definition read_indexes (n : Z) (m : nat) : list Z :=
  rev (map (fun i => StoredHashIndex i (sub64 (Z.shiftr n (Z.of_nat i)) 1))
           (seq 0 m)).

(** [StoredHashesForRecordHash(n, h, r)]; the reader [r] is the store
    behind the program. *)
Definition StoredHashesForRecordHash (n : Z) (h : Hash)
  : prog (result (list Hash)) :=
  let m := TrailingZeros64 (to_uint64 (add64 n 1)) in
  let indexes := read_indexes n m in
  r <- call (OpReadHashes indexes) ;;
  match r with
  | Err err => Ret (Err err)
  | Ok old =>
      if negb (Nat.eqb (length old) (length indexes))
      then Ret (Err (ErrMsg "tlog: ReadHashes returned the wrong number of hashes"))
      else Ret (Ok (build_hashes (rev old) h [h]))
  end.

(** [StoredHashes(n, data, r)]. *)
Definition StoredHashes (n : Z) (data : string) : prog (result (list Hash)) :=
  StoredHashesForRecordHash n (RecordHash data).

(** [maxpow2(n)]: [l = 0; for 1<<uint(l+1) < n { l++ }], returning
    [(1 << l, l)].  The shift is an [int64] shift, so for [n > 2^62] the
    condition stays true forever: [None]. *)
Fixpoint maxpow2_loop (fuel : nat) (l : nat) (n : Z) : option nat :=
  match fuel with
  | O => None
  | S f =>
      if wrap64 (Z.shiftl 1 (Z.of_nat (l + 1))) <? n
      then maxpow2_loop f (S l) n
      else Some l
  end.

Definition maxpow2 (n : Z) : option (Z * nat) :=
  match maxpow2_loop 66 0 n with
  | Some l => Some (wrap64 (Z.shiftl 1 (Z.of_nat l)), l)
  | None => None
  end.

(** [subTreeIndex(lo, hi, need)]; [None] is its panic (or the divergence of
    [maxpow2]). *)
Fixpoint subTreeIndex (fuel : nat) (lo hi : Z) (need : list Z)
  : option (list Z) :=
  if lo <? hi then
    match fuel with
    | O => None
    | S f =>
        match maxpow2 (add64 (sub64 hi lo) 1) with
        | None => None
        | Some (k, level) =>
            if negb (Z.land lo (sub64 k 1) =? 0) then None
            else subTreeIndex f (add64 lo k) hi
                   (need ++ [StoredHashIndex level (Z.shiftr lo (Z.of_nat level))])
        end
    end
  else Some need.

(** The counting loop of [subTreeHash]. *)
Fixpoint count_trees (fuel : nat) (lo hi : Z) (numTree : nat) : option nat :=
  if lo <? hi then
    match fuel with
    | O => None
    | S f =>
        match maxpow2 (add64 (sub64 hi lo) 1) with
        | None => None
        | Some (k, _) =>
            if negb (Z.land lo (sub64 k 1) =? 0) || (hi <=? lo) then None
            else count_trees f (add64 lo k) hi (S numTree)
        end
    end
  else Some numTree.

(** [h := hashes[numTree-1]; for i := numTree-2; i >= 0; i-- { h =
    NodeHash(hashes[i], h) }], over the first [numTree] hashes read from the
    last one. *)
Definition fold_right_edge (front_rev : list Hash) : option Hash :=
  match front_rev with
  | [] => None
  | h :: rest => Some (fold_left (fun h x => NodeHash x h) rest h)
  end.

(** [subTreeHash(lo, hi, hashes)]. *)
Definition subTreeHash (lo hi : Z) (hashes : list Hash)
  : option (Hash * list Hash) :=
  match count_trees 64 lo hi 0 with
  | None => None
  | Some numTree =>
      if (length hashes <? numTree)%nat then None
      else match fold_right_edge (rev (firstn numTree hashes)) with
           | None => None
           | Some h => Some (h, skipn numTree hashes)
           end
  end.

(** [TreeHash(n, r)]. *)
Definition TreeHash (n : Z) : prog (result Hash) :=
  if n =? 0 then Ret (Ok zeroHash)
  else
    match subTreeIndex 64 0 n [] with
    | None => Crash
    | Some indexes =>
        r <- call (OpReadHashes indexes) ;;
        match r with
        | Err err => Ret (Err err)
        | Ok hashes =>
            if negb (Nat.eqb (length hashes) (length indexes))
            then Ret (Err (ErrMsg "tlog: ReadHashes returned the wrong number of hashes"))
            else match subTreeHash 0 n hashes with
                 | Some (hash, []) => Ret (Ok hash)
                 | _ => Crash
                 end
        end
    end.

End Tlog.

(** [copy(hash[:], h)] after the test [len(h) != HashSize]. *)
Definition hash_of_bytes (h : string) : option Hash :=
  match Nat.eqb (String.length h) HashSize as b
        return Nat.eqb (String.length h) HashSize = b -> option Hash with
  | true => fun H => Some (mkHash h H)
  | false => fun _ => None
  end eq_refl.

(** [Hash.String()]: the base64 of the 32 bytes. *)
Definition Hash_String (h : Hash) : string := base64.EncodeToString (hbytes h).

Definition treePrefix : string := "go.sum database tree" +:+ nl.

(** [FormatTree(tree)] =
    [fmt.Sprintf("go.sum database tree\n%d\n%s\n", tree.N, tree.Hash)]. *)
Definition FormatTree (t : Tree) : string :=
  "go.sum database tree" +:+ nl +:+ strconv.FormatInt (TreeN t) +:+ nl +:+
  Hash_String (TreeHashOf t) +:+ nl.

Definition errMalformedTree : error := ErrMsg "tlog: malformed tree note".

(** [ParseTree(text)]. *)
Definition ParseTree (text : string) : result Tree :=
  if negb (HasPrefix text treePrefix) || (count_nl text <? 3)%nat
     || (1000000 <? Z.of_nat (String.length text))
  then Err errMalformedTree
  else
    match SplitN_nl text 4 with
    | _ :: line1 :: line2 :: _ =>
        match strconv.ParseInt line1 with
        | None => Err errMalformedTree
        | Some n =>
            if (n <? 0) || negb (String.eqb line1 (strconv.FormatInt n))
            then Err errMalformedTree
            else
              match base64.DecodeString line2 with
              | None => Err errMalformedTree
              | Some h =>
                  match hash_of_bytes h with
                  | None => Err errMalformedTree
                  | Some hash => Ok (mkTree n hash)
                  end
              end
        end
    | _ => Err errMalformedTree
    end.

End tlog.

(** ** internal/tree *)
Module tree.
Section Tree.
Context {sha : Sha256}.

(** [storedHashIndexes(id, count)]:
    [indexes[i] = tlog.StoredHashIndex(i, id>>i)] for [i] in [range count]. *)
Definition storedHashIndexes (id : Z) (count : nat) : list Z :=
  map (fun i => tlog.StoredHashIndex i (Z.shiftr id (Z.of_nat i))) (seq 0 count).

(** [AddRecord(ctx, store, id, data)]. *)
Definition AddRecord (id : Z) (data : string) : prog (result unit) :=
  check! hashes <- tlog.StoredHashes id data
    or ErrWrap "failed to compute hashes for record" ;;
  let indexes := storedHashIndexes id (length hashes) in
  if negb (Nat.eqb (length indexes) (length hashes))
  then Ret (Err (ErrLengthMismatch (length indexes) (length hashes)))
  else if Nat.eqb (length indexes) 0 then Ret (Ok tt)
  else
    check! _u <- call (OpWriteHashes indexes hashes)
      or ErrWrap "failed to write hashes for record" ;;
    check! _v <- call (OpSetTreeSize (add64 id 1))
      or ErrWrap "failed to update tree size" ;;
    Ret (Ok tt).

(** [TreeHash(ctx, store)]. *)
Definition TreeHash : prog (result Hash) :=
  check! size <- call OpTreeSize or ErrWrap "failed to get tree size" ;;
  if size =? 0 then Ret (Ok zeroHash)
  else
    check! hash <- tlog.TreeHash size
      or ErrWrap "failed to compute tree hash" ;;
    Ret (Ok hash).

End Tree.
End tree.

(** The signature line that [Sign] writes for a signer and its
    signature. *)
Definition signature_line (s : note.Signer) (sig : string) : string :=
  note.sigPrefix +:+ note.s_Name s +:+ " " +:+
  base64.EncodeToString (note.PutUint32 (note.s_KeyHash s) +:+ sig) +:+ nl.

(** ** Key pairs

    A signer as [note.NewSigner] makes them: a valid name and a 32-bit key
    hash; moreover the name has no ASCII control character, which
    [isValidName] does not ask for and [Open] does. *)
Definition key_ok (s : note.Signer) : Prop :=
  note.isValidName (note.s_Name s) = true /\
  utf8.all_runes note.rune_ok 0 (note.s_Name s) = true /\
  0 <= note.s_KeyHash s < 2 ^ 32.

(** The verifier of a signer: the same name and key hash, and it accepts
    the signature, which is not empty, that the signer makes of any
    message. *)
Definition matches (s : note.Signer) (v : note.Verifier) : Prop :=
  note.v_Name v = note.s_Name s /\
  note.v_KeyHash v = note.s_KeyHash s /\
  forall msg : string,
    exists sig : string,
      note.s_Sign s msg = Ok sig /\ sig <> EmptyString /\
      note.v_Verify v msg sig = true.

(** ** internal/signer *)
Module signer.

(** [SignTreeHead(signer, tree)]. *)
Definition SignTreeHead (s : note.Signer) (t : Tree) : result string :=
  let text := tlog.FormatTree t in
  note.Sign (note.mkNote text [] []) [s].

(** [VerifyTreeHead(verifier, signed)]. *)
Definition VerifyTreeHead (v : note.Verifier) (signed : string) : result Tree :=
  let verifiers := [v] in
  match note.Open signed verifiers with
  | Err err => Err (ErrWrap2 ErrVerifyFailed err)
  | Ok n =>
      match tlog.ParseTree (note.Text n) with
      | Err err => Err (ErrWrap2 ErrInvalidNote err)
      | Ok t => Ok t
      end
  end.

End signer.

(** ** The coordinator (sumdb.go) *)
Module sumdb.
Section SumDB.
Context {sha : Sha256}.

(** The [signer] field of the [SumDB]. *)
Variable db_signer : note.Signer.

(** [Signed(ctx)]. *)
Definition Signed : prog (result string) :=
  check! size <- call OpTreeSize or ErrWrap "failed to get tree size" ;;
  check! hash <- tree.TreeHash or ErrWrap "failed to compute tree hash" ;;
  let t := mkTree size hash in
  match signer.SignTreeHead db_signer t with
  | Err err => Ret (Err (ErrWrap "failed to sign tree head" err))
  | Ok signed => Ret (Ok signed)
  end.

(** [singleflight.Group.Do(key, fn)] for a caller that finds no call in
    flight for its key: it runs [fn] and returns what [fn] returns. *)
Definition singleflight_Do {A : Type} (key : string) (fn : prog A) : prog A := fn.

(** [fetchAndStoreRecord(ctx, mod)]. *)
Definition fetchAndStoreRecord (m : ModVersion) : prog (result Z) :=
  r <- call (OpRecordID (Path m) (Version m)) ;;
  match r with
  | Ok id => Ret (Ok id)
  | Err err =>
      if negb (errors_Is err ErrNotFound)
      then Ret (Err (ErrWrap "failed to find record id" err))
      else
        check! h1mod <- call (OpGoMod m)
          or ErrWrap "failed getting h1 hash for go.mod" ;;
        check! h1 <- call (OpZip m)
          or ErrWrap "failed getting h1 hash for module zip" ;;
        let rec :=
          {| RecID := 0;
             RecPath := Path m;
             RecVersion := Version m;
             RecData :=
               Path m +:+ " " +:+ Version m +:+ " " +:+ h1 +:+ nl +:+
               Path m +:+ " " +:+ Version m +:+ "/go.mod " +:+ h1mod +:+ nl |} in
        check! id <- call (OpAddRecord rec)
          or ErrWrap "failed to add new record" ;;
        check! _u <- tree.AddRecord id (RecData rec)
          or ErrWrap "failed to update tree hashes" ;;
        Ret (Ok id)
  end.

(** [Lookup(ctx, mod)]. *)
Definition Lookup (m : ModVersion) : prog (result Z) :=
  r <- call (OpRecordID (Path m) (Version m)) ;;
  match r with
  | Ok id => Ret (Ok id)
  | Err err =>
      if negb (errors_Is err ErrNotFound)
      then Ret (Err (ErrWrap "failed to find record id" err))
      else
        let key := Path m +:+ "@" +:+ Version m in
        r1 <- singleflight_Do key (fetchAndStoreRecord m) ;;
        match r1 with
        | Err err1 => Ret (Err err1)
        | Ok result => Ret (Ok result)
        end
  end.

(** [ReadRecords(ctx, id, n)]. *)
Definition ReadRecords (id n : Z) : prog (result (list string)) :=
  check! recs <- call (OpRecords id n) or ErrWrap "failed to get records" ;;
  Ret (Ok (map RecData recs)).

End SumDB.
End sumdb.

(** ** An in-memory store

    The hash table and the tree size are those of the [mockStore] of the
    tree engine's tests; the records follow the contract of [Store]
    (store.go): [AddRecord] assigns the next sequential id and [RecordID]
    answers [ErrNotFound] for an unknown module.  [WithTx] is the
    transaction of the SQLite example store: the changes of [fn] are kept
    when it returns nil and dropped when it returns an error or panics. *)
Record memStore : Type := mkMem {
  records : list RecordT;
  hashes : gmap Z Hash;
  treeSize : Z
}.

Definition emptyStore : memStore := mkMem [] ∅ 0.

(** What the upstream proxy answers for a module. *)
Record upstream : Type := mkUpstream {
  up_gomod : ModVersion -> result string;
  up_zip : ModVersion -> result string
}.

(** Which operations fail (an I/O error of the store), and with what. *)
Definition faults : Type := forall X, op X -> option error.

Definition no_faults : faults := fun _ _ => None.

Definition same_module (path version : string) (r : RecordT) : bool :=
  String.eqb (RecPath r) path && String.eqb (RecVersion r) version.

Definition mem_RecordID (st : memStore) (path version : string) : result Z :=
  match find (same_module path version) (records st) with
  | Some r => Ok (RecID r)
  | None => Err ErrNotFound
  end.

Definition mem_Records (st : memStore) (id n : Z) : list RecordT :=
  List.filter (fun r => (id <=? RecID r) && (RecID r <? id + n)) (records st).

Definition mem_AddRecord (st : memStore) (r : RecordT) : result Z * memStore :=
  match find (same_module (RecPath r) (RecVersion r)) (records st) with
  | Some _ => (Err (ErrMsg "insert record: UNIQUE constraint failed"), st)
  | None =>
      let id := Z.of_nat (length (records st)) in
      (Ok id,
       mkMem (records st ++ [mkRecord id (RecPath r) (RecVersion r) (RecData r)])
             (hashes st) (treeSize st))
  end.

(** [result[i] = m.hashes[idx]]: a missing key reads as the zero hash. *)
Definition mem_ReadHashes (st : memStore) (indexes : list Z) : list Hash :=
  map (fun idx => default zeroHash (hashes st !! idx)) indexes.

(** [for i, idx := range indexes { m.hashes[idx] = hashes[i] }]: indexing
    past the end of [hashes] panics. *)
Fixpoint write_hashes (m : gmap Z Hash) (indexes : list Z) (hs : list Hash)
  : option (gmap Z Hash) :=
  match indexes, hs with
  | [], _ => Some m
  | idx :: indexes', h :: hs' => write_hashes (<[idx := h]> m) indexes' hs'
  | _ :: _, [] => None
  end.

Definition mem_answer (up : upstream) (X : Type) (o : op X) (st : memStore)
  : option (X * memStore) :=
  match o in op T return option (T * memStore) with
  | OpRecordID path version => Some (mem_RecordID st path version, st)
  | OpRecords id n => Some (Ok (mem_Records st id n), st)
  | OpAddRecord r => Some (mem_AddRecord st r)
  | OpReadHashes indexes => Some (Ok (mem_ReadHashes st indexes), st)
  | OpWriteHashes indexes hs =>
      match write_hashes (hashes st) indexes hs with
      | Some m => Some (Ok tt, mkMem (records st) m (treeSize st))
      | None => None
      end
  | OpTreeSize => Some (Ok (treeSize st), st)
  | OpSetTreeSize size => Some (Ok tt, mkMem (records st) (hashes st) size)
  | OpGoMod m => Some (up_gomod up m, st)
  | OpZip m => Some (up_zip up m, st)
  end.

Definition fail_with {X : Type} (o : op X) (e : error) : X :=
  match o in op T return T with
  | OpRecordID _ _ => Err e
  | OpRecords _ _ => Err e
  | OpAddRecord _ => Err e
  | OpReadHashes _ => Err e
  | OpWriteHashes _ _ => Err e
  | OpTreeSize => Err e
  | OpSetTreeSize _ => Err e
  | OpGoMod _ => Err e
  | OpZip _ => Err e
  end.

(** The in-memory store behind an upstream, with the failures of [f]: a
    failing operation changes nothing. *)
Definition mem_handler (f : faults) (up : upstream) : handler memStore :=
  fun X o st =>
    match f X o with
    | Some e => Some (fail_with o e, st)
    | None => mem_answer up X o st
    end.

(** [WithTx(ctx, fn)] of the in-memory store. *)
Definition mem_WithTx {A : Type} (f : faults) (up : upstream)
  (fn : prog (result A)) (st : memStore) : option (result A * memStore) :=
  match run (mem_handler f up) fn st with
  | Some (Ok a, st1, _) => Some (Ok a, st1)
  | Some (Err e, _, _) => Some (Err e, st)
  | None => None
  end.

(** ** Stores with transactions

    [TxStore] (store.go): a [Store] that also has [WithTx]. *)
Record TxStore (S : Type) : Type := mkTxStore {
  tx_store : handler S;
  WithTx : forall A : Type, prog (result A) -> S -> option (result A * S)
}.
Arguments tx_store {S} t.
Arguments WithTx {S} t {A} fn s.

Definition memTx (f : faults) (up : upstream) : TxStore memStore :=
  mkTxStore memStore (mem_handler f up) (fun A fn st => mem_WithTx f up fn st).

(** The append of a lookup as the specification words it: add-record, then
    the tree engine's append (write-hashes, set-tree-size), inside
    [with-tx] when the store has it. *)
Module spec.
Section Spec.
Context {sha : Sha256}.

Definition append_sequence (rec : RecordT) : prog (result Z) :=
  check! id <- call (OpAddRecord rec) or ErrWrap "failed to add new record" ;;
  check! _u <- tree.AddRecord id (RecData rec)
    or ErrWrap "failed to update tree hashes" ;;
  Ret (Ok id).

Definition append_in_tx {S : Type} (t : TxStore S) (rec : RecordT) (s : S)
  : option (result Z * S) :=
  WithTx t (append_sequence rec) s.

End Spec.
End spec.

(** ** Two lookups at once

    Two goroutines over one store; an operation of the store is one step,
    and the schedule says whose step comes next. *)
Inductive thread : Type := T1 | T2.

Fixpoint run2 {S A B : Type} (h : handler S) (sched : list thread)
    (p : prog A) (q : prog B) (s : S)
  : option (prog A * prog B * S * list (thread * event)) :=
  match sched with
  | [] => Some (p, q, s, [])
  | T1 :: rest =>
      match p with
      | Vis o k =>
          match h _ o s with
          | Some (x, s1) =>
              match run2 h rest (k x) q s1 with
              | Some (p1, q1, s2, tr) => Some (p1, q1, s2, (T1, Ev o x) :: tr)
              | None => None
              end
          | None => None
          end
      | _ => None
      end
  | T2 :: rest =>
      match q with
      | Vis o k =>
          match h _ o s with
          | Some (x, s1) =>
              match run2 h rest p (k x) s1 with
              | Some (p1, q1, s2, tr) => Some (p1, q1, s2, (T2, Ev o x) :: tr)
              | None => None
              end
          | None => None
          end
      | _ => None
      end
  end.

(** ** The runs of the append and of a lookup, case by case

    Each constructor is one path through the code: the operations performed
    with their answers, the states they went through, and what is
    returned. *)
Section Outcomes.
Context {sha : Sha256} {S : Type} (h : handler S).

(** The paths of [tree.AddRecord id data]. *)
Inductive append_outcome (id : Z) (data : string) (s : S)
  : result unit -> S -> list event -> Prop :=
| AppendReadFails e s1 :
    h _ (OpReadHashes (tlog.read_indexes id (trailing_ones id))) s = Some (Err e, s1) ->
    append_outcome id data s
      (Err (ErrWrap "failed to compute hashes for record" e)) s1
      [Ev (OpReadHashes (tlog.read_indexes id (trailing_ones id))) (Err e)]
| AppendReadShort old s1 :
    h _ (OpReadHashes (tlog.read_indexes id (trailing_ones id))) s = Some (Ok old, s1) ->
    length old <> trailing_ones id ->
    append_outcome id data s
      (Err (ErrWrap "failed to compute hashes for record"
              (ErrMsg "tlog: ReadHashes returned the wrong number of hashes"))) s1
      [Ev (OpReadHashes (tlog.read_indexes id (trailing_ones id))) (Ok old)]
| AppendWriteFails old s1 hashes e s2 :
    h _ (OpReadHashes (tlog.read_indexes id (trailing_ones id))) s = Some (Ok old, s1) ->
    length old = trailing_ones id ->
    hashes = tlog.build_hashes (rev old) (tlog.RecordHash data) [tlog.RecordHash data] ->
    h _ (OpWriteHashes (tree.storedHashIndexes id (length hashes)) hashes) s1
      = Some (Err e, s2) ->
    append_outcome id data s
      (Err (ErrWrap "failed to write hashes for record" e)) s2
      [Ev (OpReadHashes (tlog.read_indexes id (trailing_ones id))) (Ok old);
       Ev (OpWriteHashes (tree.storedHashIndexes id (length hashes)) hashes) (Err e)]
| AppendSizeFails old s1 hashes s2 e s3 :
    h _ (OpReadHashes (tlog.read_indexes id (trailing_ones id))) s = Some (Ok old, s1) ->
    length old = trailing_ones id ->
    hashes = tlog.build_hashes (rev old) (tlog.RecordHash data) [tlog.RecordHash data] ->
    h _ (OpWriteHashes (tree.storedHashIndexes id (length hashes)) hashes) s1
      = Some (Ok tt, s2) ->
    h _ (OpSetTreeSize (add64 id 1)) s2 = Some (Err e, s3) ->
    append_outcome id data s
      (Err (ErrWrap "failed to update tree size" e)) s3
      [Ev (OpReadHashes (tlog.read_indexes id (trailing_ones id))) (Ok old);
       Ev (OpWriteHashes (tree.storedHashIndexes id (length hashes)) hashes) (Ok tt);
       Ev (OpSetTreeSize (add64 id 1)) (Err e)]
| AppendDone old s1 hashes s2 s3 :
    h _ (OpReadHashes (tlog.read_indexes id (trailing_ones id))) s = Some (Ok old, s1) ->
    length old = trailing_ones id ->
    hashes = tlog.build_hashes (rev old) (tlog.RecordHash data) [tlog.RecordHash data] ->
    h _ (OpWriteHashes (tree.storedHashIndexes id (length hashes)) hashes) s1
      = Some (Ok tt, s2) ->
    h _ (OpSetTreeSize (add64 id 1)) s2 = Some (Ok tt, s3) ->
    append_outcome id data s (Ok tt) s3
      [Ev (OpReadHashes (tlog.read_indexes id (trailing_ones id))) (Ok old);
       Ev (OpWriteHashes (tree.storedHashIndexes id (length hashes)) hashes) (Ok tt);
       Ev (OpSetTreeSize (add64 id 1)) (Ok tt)].

(** The record a lookup of [m] builds from the two fetched hashes. *)
Definition built_record (m : ModVersion) (h1 h1mod : string) : RecordT :=
  {| RecID := 0;
     RecPath := Path m;
     RecVersion := Version m;
     RecData :=
       Path m +:+ " " +:+ Version m +:+ " " +:+ h1 +:+ nl +:+
       Path m +:+ " " +:+ Version m +:+ "/go.mod " +:+ h1mod +:+ nl |}.

(** The paths of [fetchAndStoreRecord m]. *)
Inductive fetch_outcome (m : ModVersion) (s : S)
  : result Z -> S -> list event -> Prop :=
| FetchFound id s1 :
    h _ (OpRecordID (Path m) (Version m)) s = Some (Ok id, s1) ->
    fetch_outcome m s (Ok id) s1 [Ev (OpRecordID (Path m) (Version m)) (Ok id)]
| FetchStoreError e s1 :
    h _ (OpRecordID (Path m) (Version m)) s = Some (Err e, s1) ->
    errors_Is e ErrNotFound = false ->
    fetch_outcome m s (Err (ErrWrap "failed to find record id" e)) s1
      [Ev (OpRecordID (Path m) (Version m)) (Err e)]
| FetchGoModFails e0 s1 e s2 :
    h _ (OpRecordID (Path m) (Version m)) s = Some (Err e0, s1) ->
    errors_Is e0 ErrNotFound = true ->
    h _ (OpGoMod m) s1 = Some (Err e, s2) ->
    fetch_outcome m s (Err (ErrWrap "failed getting h1 hash for go.mod" e)) s2
      [Ev (OpRecordID (Path m) (Version m)) (Err e0); Ev (OpGoMod m) (Err e)]
| FetchZipFails e0 s1 h1mod s2 e s3 :
    h _ (OpRecordID (Path m) (Version m)) s = Some (Err e0, s1) ->
    errors_Is e0 ErrNotFound = true ->
    h _ (OpGoMod m) s1 = Some (Ok h1mod, s2) ->
    h _ (OpZip m) s2 = Some (Err e, s3) ->
    fetch_outcome m s (Err (ErrWrap "failed getting h1 hash for module zip" e)) s3
      [Ev (OpRecordID (Path m) (Version m)) (Err e0); Ev (OpGoMod m) (Ok h1mod);
       Ev (OpZip m) (Err e)]
| FetchAddFails e0 s1 h1mod s2 h1 s3 e s4 :
    h _ (OpRecordID (Path m) (Version m)) s = Some (Err e0, s1) ->
    errors_Is e0 ErrNotFound = true ->
    h _ (OpGoMod m) s1 = Some (Ok h1mod, s2) ->
    h _ (OpZip m) s2 = Some (Ok h1, s3) ->
    h _ (OpAddRecord (built_record m h1 h1mod)) s3 = Some (Err e, s4) ->
    fetch_outcome m s (Err (ErrWrap "failed to add new record" e)) s4
      [Ev (OpRecordID (Path m) (Version m)) (Err e0); Ev (OpGoMod m) (Ok h1mod);
       Ev (OpZip m) (Ok h1); Ev (OpAddRecord (built_record m h1 h1mod)) (Err e)]
| FetchAppendFails e0 s1 h1mod s2 h1 s3 id s4 e s5 tr :
    h _ (OpRecordID (Path m) (Version m)) s = Some (Err e0, s1) ->
    errors_Is e0 ErrNotFound = true ->
    h _ (OpGoMod m) s1 = Some (Ok h1mod, s2) ->
    h _ (OpZip m) s2 = Some (Ok h1, s3) ->
    h _ (OpAddRecord (built_record m h1 h1mod)) s3 = Some (Ok id, s4) ->
    append_outcome id (RecData (built_record m h1 h1mod)) s4 (Err e) s5 tr ->
    fetch_outcome m s (Err (ErrWrap "failed to update tree hashes" e)) s5
      ([Ev (OpRecordID (Path m) (Version m)) (Err e0); Ev (OpGoMod m) (Ok h1mod);
        Ev (OpZip m) (Ok h1); Ev (OpAddRecord (built_record m h1 h1mod)) (Ok id)]
       ++ tr)
| FetchStored e0 s1 h1mod s2 h1 s3 id s4 s5 tr :
    h _ (OpRecordID (Path m) (Version m)) s = Some (Err e0, s1) ->
    errors_Is e0 ErrNotFound = true ->
    h _ (OpGoMod m) s1 = Some (Ok h1mod, s2) ->
    h _ (OpZip m) s2 = Some (Ok h1, s3) ->
    h _ (OpAddRecord (built_record m h1 h1mod)) s3 = Some (Ok id, s4) ->
    append_outcome id (RecData (built_record m h1 h1mod)) s4 (Ok tt) s5 tr ->
    fetch_outcome m s (Ok id) s5
      ([Ev (OpRecordID (Path m) (Version m)) (Err e0); Ev (OpGoMod m) (Ok h1mod);
        Ev (OpZip m) (Ok h1); Ev (OpAddRecord (built_record m h1 h1mod)) (Ok id)]
       ++ tr).

(** The paths of [Lookup m]. *)
Inductive lookup_outcome (m : ModVersion) (s : S)
  : result Z -> S -> list event -> Prop :=
| LookupFound id s1 :
    h _ (OpRecordID (Path m) (Version m)) s = Some (Ok id, s1) ->
    lookup_outcome m s (Ok id) s1 [Ev (OpRecordID (Path m) (Version m)) (Ok id)]
| LookupStoreError e s1 :
    h _ (OpRecordID (Path m) (Version m)) s = Some (Err e, s1) ->
    errors_Is e ErrNotFound = false ->
    lookup_outcome m s (Err (ErrWrap "failed to find record id" e)) s1
      [Ev (OpRecordID (Path m) (Version m)) (Err e)]
| LookupMiss e s1 r s2 tr :
    h _ (OpRecordID (Path m) (Version m)) s = Some (Err e, s1) ->
    errors_Is e ErrNotFound = true ->
    fetch_outcome m s1 r s2 tr ->
    lookup_outcome m s r s2 (Ev (OpRecordID (Path m) (Version m)) (Err e) :: tr).

End Outcomes.

(** ** Reading traces *)

Definition is_ok {A : Type} (r : result A) : bool :=
  match r with
  | Ok _ => true
  | Err _ => false
  end.

(** An operation that changed the store: an add-record, a write of hashes
    or a change of the tree size that succeeded. *)
Definition is_mutation (e : event) : bool :=
  match e with
  | Ev o x =>
      match o in op T return T -> bool with
      | OpAddRecord _ => is_ok
      | OpWriteHashes _ _ => is_ok
      | OpSetTreeSize _ => is_ok
      | _ => fun _ => false
      end x
  end.

(** An add-record that succeeded. *)
Definition is_added (e : event) : bool :=
  match e with
  | Ev o x =>
      match o in op T return T -> bool with
      | OpAddRecord _ => is_ok
      | _ => fun _ => false
      end x
  end.

(** A change of the tree size that succeeded. *)
Definition sets_tree_size (e : event) : bool :=
  match e with
  | Ev o x =>
      match o in op T return T -> bool with
      | OpSetTreeSize _ => is_ok
      | _ => fun _ => false
      end x
  end.

(** The record and the answer of an add-record. *)
Definition added_record (e : event) : option (RecordT * result Z) :=
  match e with
  | Ev o x =>
      match o in op T return T -> option (RecordT * result Z) with
      | OpAddRecord r => fun x => Some (r, x)
      | _ => fun _ => None
      end x
  end.

(** ** Concrete values for the examples *)

Definition example_mod : ModVersion := mkMod "example.com/new" "v1.0.0".
Definition other_mod : ModVersion := mkMod "example.com/other" "v0.2.0".

Definition example_upstream : upstream :=
  mkUpstream (fun _ => Ok "h1:mod") (fun _ => Ok "h1:zip").

(** An upstream that is down. *)
Definition down_upstream : upstream :=
  mkUpstream (fun _ => Err (ErrMsg "upstream down"))
             (fun _ => Err (ErrMsg "upstream down")).

(** A store whose [WriteHashes] fails. *)
Definition failing_writes : faults :=
  fun X o =>
    match o with
    | OpWriteHashes _ _ => Some (ErrMsg "disk full")
    | _ => None
    end.

(** A key pair whose signature of a message is 64 bytes derived from the
    digest of the message, in place of Ed25519. *)
Definition example_signature (msg : string) : string :=
  hbytes (sha256.Sum256 msg) +:+ hbytes (sha256.Sum256 msg).

Definition example_signer : note.Signer :=
  note.mkSigner "test.example.com" 305419896 (fun msg => Ok (example_signature msg)).

Definition example_verifier : note.Verifier :=
  note.mkVerifier "test.example.com" 305419896
    (fun msg sig => String.eqb sig (example_signature msg)).

(** [signed[i] ^= 0xFF], as the signer's tests tamper with a note. *)
Fixpoint flip_byte (i : nat) (s : string) : string :=
  match s, i with
  | EmptyString, _ => EmptyString
  | String c r, O => String (byte_of (Z.lxor (byte_val c) 255)) r
  | String c r, S k => String c (flip_byte k r)
  end.

(** A verifier for another key. *)
Definition other_verifier : note.Verifier :=
  note.mkVerifier "other.example.com" 2271560481 (fun _ _ => false).

(** ** The Merkle tree hash

    The hash of a list of records as RFC 6962 (section 2.1) defines it,
    with the leaf and node hashes of tlog and tlog's zero hash for the
    empty list: what the stored hashes and the root are compared with. *)
Module merkle.
Section Merkle.
Context {sha : Sha256}.

(** The largest power of two below [n]. *)
Fixpoint split_loop (fuel k n : nat) : nat :=
  match fuel with
  | O => k
  | S f => if (2 * k <? n)%nat then split_loop f (2 * k) n else k
  end.

Definition split_point (n : nat) : nat := split_loop n 1 n.

Fixpoint MTH_fuel (fuel : nat) (ds : list string) : Hash :=
  match ds with
  | [] => zeroHash
  | [d] => tlog.RecordHash d
  | _ =>
      match fuel with
      | O => zeroHash
      | S f =>
          let k := split_point (length ds) in
          tlog.NodeHash (MTH_fuel f (firstn k ds)) (MTH_fuel f (skipn k ds))
      end
  end.

Definition MTH (ds : list string) : Hash := MTH_fuel (length ds) ds.

(** The records under the complete subtree [k] of level [L]: the positions
    from [k * 2^L] up to [(k + 1) * 2^L]. *)
Definition segment (L k : nat) (ds : list string) : list string :=
  firstn (2 ^ L) (skipn (k * 2 ^ L) ds).

(** The store holds the tree of the records [ds]: its tree size is their
    number, and the hash of every complete subtree is stored at its
    index. *)
Definition stored_tree (st : memStore) (ds : list string) : Prop :=
  treeSize st = Z.of_nat (length ds) /\
  forall L k : nat,
    ((k + 1) * 2 ^ L <= length ds)%nat ->
    hashes st !! tlog.StoredHashIndex L (Z.of_nat k) = Some (MTH (segment L k ds)).

End Merkle.
End merkle.

(** ** A log in order

    The records carry their positions as ids (the README: "Records are
    assigned sequential IDs starting from 0"), and the store holds the tree
    of their data. *)
Definition sequential_ids (st : memStore) : Prop :=
  forall (i : nat) (r : RecordT),
    nth_error (records st) i = Some r -> RecID r = Z.of_nat i.

Definition consistent_log {sha : Sha256} (st : memStore) : Prop :=
  sequential_ids st /\ merkle.stored_tree st (map RecData (records st)).

(** The loop of the tree engine's tests:
    [for i, data := range records { AddRecord(ctx, store, int64(i), data) }],
    stopping at the first error. *)
Fixpoint add_records {sha : Sha256} (i : Z) (rs : list string) : prog (result unit) :=
  match rs with
  | [] => Ret (Ok tt)
  | data :: rest =>
      r <- tree.AddRecord i data ;;
      match r with
      | Ok _ => add_records (add64 i 1) rest
      | Err e => Ret (Err e)
      end
  end.

(** A request for the zip of a module. *)
Definition is_zip (e : event) : bool :=
  match e with
  | Ev o _ =>
      match o with
      | OpZip _ => true
      | _ => false
      end
  end.

(** A read of the tree: the tree size or stored hashes. *)
Definition is_tree_read (e : event) : bool :=
  match e with
  | Ev o _ =>
      match o with
      | OpTreeSize => true
      | OpReadHashes _ => true
      | _ => false
      end
  end.

(** A verifier with the name and key hash of the example key that refuses
    every signature. *)
Definition refusing_verifier : note.Verifier :=
  note.mkVerifier "test.example.com" 305419896 (fun _ _ => false).

(** A store that reports a negative tree size. *)
Definition negative_store : memStore := mkMem [] ∅ (-1).

(** A log of two records without its tree. *)
Definition two_records : memStore :=
  mkMem [mkRecord 0 "example.com/a" "v1.0.0" "first"; mkRecord 1 "example.com/b" "v1.0.0" "second"]
        ∅ 0.

(** ** Tiles

    [tlog.ReadTileData] (golang.org/x/mod/sumdb/tlog), which [tree.ReadTile]
    calls, and [ReadTileData] of the coordinator above it. *)
Module tiles.
Section Tiles.
Context {sha : Sha256}.

(** The most bytes that the runtime gives to one slice ([maxAlloc], 2^48
    on 64-bit Linux): [make] panics for a negative length and for more. *)
Variable maxAlloc : Z.

(** [tlog.Tile]: height, level, number and width. *)
Record Tile : Type := mkTile { TileH : Z; TileL : Z; TileN : Z; TileW : Z }.

(** [x << uint(s)] on a 64-bit integer: a count of 64 or more, which a
    negative [s] turns into, gives 0. *)
Definition shl64 (x s : Z) : Z :=
  if (0 <=? s) && (s <? 64) then wrap64 (Z.shiftl x s) else 0.

(** [tlog.StoredHashIndex] for a level given as an [int]: below level 1
    the first loop does nothing, and the level is added at the end. *)
Definition StoredHashIndex_int (level n : Z) : Z :=
  if level <? 0 then add64 (tlog.sum_halves 64 n 0) level
  else tlog.StoredHashIndex (Z.to_nat level) n.

(** [copy(tile[i*HashSize:], hashes[i][:])] for every [i]. *)
Fixpoint concat_hashes (hs : list Hash) : string :=
  match hs with
  | [] => EmptyString
  | h :: rest => hbytes h +:+ concat_hashes rest
  end.

(** [tlog.ReadTileData(t, r)]: [make([]int64, size)], the read, then
    [make([]byte, size*HashSize)]. *)
Definition tlog_ReadTileData (t : Tile) : prog (result string) :=
  let size := if TileW t =? 0 then shl64 1 (TileH t) else TileW t in
  let start := shl64 (TileN t) (TileH t) in
  if (size <? 0) || (maxAlloc <? 8 * size) then Crash
  else
    let indexes :=
      map (fun i => StoredHashIndex_int (mul64 (TileH t) (TileL t))
                      (add64 start (Z.of_nat i)))
          (seq 0 (Z.to_nat size)) in
    r <- call (OpReadHashes indexes) ;;
    match r with
    | Err err => Ret (Err err)
    | Ok hs =>
        if negb (Nat.eqb (length hs) (length indexes))
        then Ret (Err (ErrMsg "tlog: ReadHashes returned the wrong number of hashes"))
        else if (mul64 size 32 <? 0) || (maxAlloc <? mul64 size 32) then Crash
        else Ret (Ok (concat_hashes hs))
    end.

(** [tree.ReadTile(ctx, store, t)]. *)
Definition ReadTile (t : Tile) : prog (result string) :=
  check! data <- tlog_ReadTileData t or ErrWrap "failed to read tile" ;;
  Ret (Ok data).

(** [ReadTileData(ctx, t)] of the [SumDB]. *)
Definition ReadTileData (t : Tile) : prog (result string) :=
  check! data <- ReadTile t or ErrWrap "failed reading tile data" ;;
  Ret (Ok data).

End Tiles.
End tiles.

(** ** Module keys *)

(** [mod.Path + "@" + mod.Version]: the key under which [Lookup] groups
    the lookups of a module. *)
Definition lookup_key (m : ModVersion) : string :=
  Path m +:+ "@" +:+ Version m.

(** [strings.SplitN(s, "@", n)]. *)
Fixpoint SplitN_at (s : string) (n : nat) : list string :=
  match n with
  | O => []
  | S O => [s]
  | S n' =>
      match cut_at "@"%char s with
      | Some (part, rest) => part :: SplitN_at rest n'
      | None => [s]
      end
  end.

(** [parseModule(s)] of the example command. *)
Definition parseModule (s : string) : result ModVersion :=
  match SplitN_at s 2 with
  | [path; version] => Ok (mkMod path version)
  | _ => Err (ErrMsg "invalid module format")
  end.

(** ** The stores that lookups reach

    From the empty store, one lookup after the other, each with whatever
    the upstream answers at that time. *)
Inductive reachable {sha : Sha256} : memStore -> Prop :=
| reach_empty : reachable emptyStore
| reach_lookup (st st' : memStore) (up : upstream) (m : ModVersion) (r : result Z)
    (tr : list event) :
    reachable st ->
    run (mem_handler no_faults up) (sumdb.Lookup m) st = Some (r, st', tr) ->
    reachable st'.

(** A store that reports a tree size of 2^62. *)
Definition huge_store : memStore := mkMem [] ∅ (2 ^ 62).

(** * Properties *)

(** ** Running programs *)

Lemma run_bind {S A B : Type} (h : handler S) (p : prog A) (f : A -> prog B) (s : S) :
  run h (bind p f) s =
  match run h p s with
  | Some (a, s1, tr1) =>
      match run h (f a) s1 with
      | Some (b, s2, tr2) => Some (b, s2, tr1 ++ tr2)
      | None => None
      end
  | None => None
  end.
Proof.
  revert s. induction p as [a | | X o k IH]; intros s; simpl.
  - destruct (run h (f a) s) as [[[b s2] tr2] |]; reflexivity.
  - reflexivity.
  - destruct (h X o s) as [[x s1] |]; [| reflexivity].
    rewrite IH.
    destruct (run h (k x) s1) as [[[a s2] tr1] |]; [| reflexivity].
    destruct (run h (f a) s2) as [[[b s3] tr2] |]; reflexivity.
Qed.

(** ** Trailing bits *)

Lemma trailing_zeros_succ (fuel : nat) (x : Z) :
  trailing_zeros fuel (x + 1) = trailing_ones_aux fuel x.
Proof.
  revert x. induction fuel as [| f IH]; intros x; simpl; [reflexivity |].
  rewrite Z.even_add. simpl (Z.even 1).
  rewrite <- Z.negb_odd.
  destruct (Z.odd x) eqn:Hodd; simpl; [| reflexivity].
  f_equal. rewrite <- IH. f_equal.
  rewrite !Z.div2_div.
  pose proof (Z.div_mod x 2 ltac:(lia)) as Hx.
  rewrite Zmod_odd, Hodd in Hx.
  replace (x + 1) with ((x / 2 + 1) * 2) by lia.
  rewrite Z.div_mul by lia. reflexivity.
Qed.

Lemma trailing_zeros_mod (fuel : nat) (k : Z) (x : Z) :
  Z.of_nat fuel <= k ->
  trailing_zeros fuel (x mod 2 ^ k) = trailing_zeros fuel x.
Proof.
  revert k x. induction fuel as [| f IH]; intros k x Hk; simpl; [reflexivity |].
  assert (Hk1 : 1 <= k) by lia.
  assert (Hpow : 2 ^ k = 2 * 2 ^ (k - 1)).
  { rewrite <- Z.pow_succ_r by lia. f_equal. lia. }
  assert (Hpos : 0 < 2 ^ (k - 1)) by (apply Z.pow_pos_nonneg; lia).
  assert (Hrem : x mod 2 ^ k = x mod 2 + 2 * ((x / 2) mod 2 ^ (k - 1))).
  { rewrite Hpow. apply Z.rem_mul_r; lia. }
  assert (Hb : 0 <= x mod 2 < 2) by (apply Z.mod_pos_bound; lia).
  assert (Heven : Z.even (x mod 2 ^ k) = Z.even x).
  { rewrite Hrem, Z.even_add, Z.even_mul. simpl (Z.even 2). simpl.
    rewrite (Zmod_even x). destruct (Z.even x); reflexivity. }
  rewrite Heven. destruct (Z.even x); [| reflexivity].
  f_equal. rewrite <- (IH (k - 1) (Z.div2 x)) by lia.
  f_equal. rewrite !Z.div2_div, Hrem.
  rewrite (Z.mul_comm 2), Z.div_add by lia.
  rewrite (Z.div_small (x mod 2) 2) by lia.
  reflexivity.
Qed.

Lemma wrap64_mod (z : Z) : wrap64 z mod 2 ^ 64 = z mod 2 ^ 64.
Proof.
  unfold wrap64.
  rewrite Zminus_mod, Zmod_mod, <- Zminus_mod.
  f_equal. lia.
Qed.

Lemma wrap64_id (z : Z) : int64_ok z -> wrap64 z = z.
Proof.
  unfold int64_ok, wrap64. intros H.
  rewrite Z.mod_small by lia. lia.
Qed.

(** [bits.TrailingZeros64(uint64(n + 1))] counts the trailing 1-bits of
    [n]. *)
Lemma TrailingZeros64_succ (n : Z) :
  TrailingZeros64 (to_uint64 (add64 n 1)) = trailing_ones n.
Proof.
  unfold TrailingZeros64, to_uint64, add64, trailing_ones.
  rewrite wrap64_mod.
  rewrite trailing_zeros_mod by (simpl; lia).
  apply trailing_zeros_succ.
Qed.

Section TreeFacts.
Context {sha : Sha256}.

Lemma storedHashIndexes_length (id : Z) (count : nat) :
  length (tree.storedHashIndexes id count) = count.
Proof. unfold tree.storedHashIndexes. rewrite length_map, length_seq. reflexivity. Qed.

Lemma build_hashes_length (old_rev : list Hash) (h : Hash) (acc : list Hash) :
  length (tlog.build_hashes old_rev h acc) = (length acc + length old_rev)%nat.
Proof.
  revert h acc. induction old_rev as [| o rest IH]; intros h acc; simpl.
  - lia.
  - rewrite IH, length_app. simpl. lia.
Qed.

Lemma read_indexes_length (n : Z) (m : nat) :
  length (tlog.read_indexes n m) = m.
Proof. unfold tlog.read_indexes. rewrite length_rev, length_map, length_seq. reflexivity. Qed.

End TreeFacts.

(** ** The outcome relations are the runs *)
Section OutcomeFacts.
Context {sha : Sha256} {S : Type} (h : handler S).

Lemma build_hashes_nonempty (old_rev : list Hash) (x : Hash) :
  Nat.eqb (length (tlog.build_hashes old_rev x [x])) 0 = false.
Proof. rewrite build_hashes_length. reflexivity. Qed.

Lemma run_append_outcome (id : Z) (data : string) (s : S) (r : result unit)
    (s' : S) (tr : list event) :
  run h (tree.AddRecord id data) s = Some (r, s', tr) ->
  append_outcome h id data s r s' tr.
Proof.
  unfold tree.AddRecord, tlog.StoredHashes, tlog.StoredHashesForRecordHash.
  rewrite TrailingZeros64_succ. cbn [bind call run].
  destruct (h _ (OpReadHashes _) s) as [[[old | e] s1] |] eqn:Hread;
    [| | discriminate].
  - rewrite read_indexes_length.
    destruct (Nat.eqb (length old) (trailing_ones id)) eqn:Hlen; cbn [negb bind run].
    + apply Nat.eqb_eq in Hlen.
      rewrite storedHashIndexes_length, Nat.eqb_refl, build_hashes_nonempty.
      cbn [negb bind call run].
      destruct (h _ (OpWriteHashes _ _) s1) as [[[[] | e] s2] |] eqn:Hw;
        [| | discriminate]; cbn [run].
      * destruct (h _ (OpSetTreeSize _) s2) as [[[[] | e] s3] |] eqn:Hs;
          [| | discriminate]; cbn [run]; intros [= <- <- <-].
        -- eapply AppendDone; eauto.
        -- eapply AppendSizeFails; eauto.
      * intros [= <- <- <-]. eapply AppendWriteFails; eauto.
    + apply Nat.eqb_neq in Hlen. intros [= <- <- <-].
      eapply AppendReadShort; eauto.
  - cbn [run]. intros [= <- <- <-]. apply AppendReadFails. exact Hread.
Qed.

Lemma append_outcome_run (id : Z) (data : string) (s : S) (r : result unit)
    (s' : S) (tr : list event) :
  append_outcome h id data s r s' tr ->
  run h (tree.AddRecord id data) s = Some (r, s', tr).
Proof.
  unfold tree.AddRecord, tlog.StoredHashes, tlog.StoredHashesForRecordHash.
  rewrite TrailingZeros64_succ. cbn [bind call run].
  intros Hout.
  destruct Hout as [e s1 Hread | old s1 Hread Hlen
                   | old s1 hashes e s2 Hread Hlen -> Hw
                   | old s1 hashes s2 e s3 Hread Hlen -> Hw Hs
                   | old s1 hashes s2 s3 Hread Hlen -> Hw Hs];
    rewrite Hread; cbn [run]; try reflexivity;
    rewrite read_indexes_length.
  - apply Nat.eqb_neq in Hlen. rewrite Hlen. reflexivity.
  - rewrite Hlen, Nat.eqb_refl. cbn [negb bind run].
    rewrite storedHashIndexes_length, Nat.eqb_refl, build_hashes_nonempty.
    cbn [negb bind call run]. rewrite Hw. reflexivity.
  - rewrite Hlen, Nat.eqb_refl. cbn [negb bind run].
    rewrite storedHashIndexes_length, Nat.eqb_refl, build_hashes_nonempty.
    cbn [negb bind call run]. rewrite Hw. cbn [run]. rewrite Hs. reflexivity.
  - rewrite Hlen, Nat.eqb_refl. cbn [negb bind run].
    rewrite storedHashIndexes_length, Nat.eqb_refl, build_hashes_nonempty.
    cbn [negb bind call run]. rewrite Hw. cbn [run]. rewrite Hs. reflexivity.
Qed.

Lemma run_fetch_outcome (m : ModVersion) (s : S) (r : result Z) (s' : S)
    (tr : list event) :
  run h (sumdb.fetchAndStoreRecord m) s = Some (r, s', tr) ->
  fetch_outcome h m s r s' tr.
Proof.
  unfold sumdb.fetchAndStoreRecord. cbn [bind call run].
  destruct (h _ (OpRecordID _ _) s) as [[[id | e0] s1] |] eqn:Hrid;
    [| | discriminate]; cbn [run].
  { intros [= <- <- <-]. apply FetchFound. exact Hrid. }
  destruct (errors_Is e0 ErrNotFound) eqn:Hnf; cbn [negb bind call run].
  2: { intros [= <- <- <-]. apply FetchStoreError; assumption. }
  destruct (h _ (OpGoMod m) s1) as [[[h1mod | e] s2] |] eqn:Hmod;
    [| | discriminate]; cbn [bind call run].
  2: { intros [= <- <- <-]. eapply FetchGoModFails; eauto. }
  destruct (h _ (OpZip m) s2) as [[[h1 | e] s3] |] eqn:Hzip;
    [| | discriminate]; cbn [bind call run].
  2: { intros [= <- <- <-]. eapply FetchZipFails; eauto. }
  fold (built_record m h1 h1mod).
  destruct (h _ (OpAddRecord _) s3) as [[[id | e] s4] |] eqn:Hadd;
    [| | discriminate]; cbn [bind call run].
  2: { intros [= <- <- <-]. eapply FetchAddFails; eauto. }
  rewrite run_bind.
  destruct (run h (tree.AddRecord id _) s4) as [[[[[] | e] s5] tr5] |] eqn:Happ;
    [| | discriminate]; cbn [run]; intros [= <- <- <-];
    apply run_append_outcome in Happ; rewrite app_nil_r.
  - eapply (FetchStored h m s e0 s1 h1mod s2 h1 s3 id s4 s5 tr5); eauto.
  - eapply (FetchAppendFails h m s e0 s1 h1mod s2 h1 s3 id s4 e s5 tr5); eauto.
Qed.

Lemma fetch_outcome_run (m : ModVersion) (s : S) (r : result Z) (s' : S)
    (tr : list event) :
  fetch_outcome h m s r s' tr ->
  run h (sumdb.fetchAndStoreRecord m) s = Some (r, s', tr).
Proof.
  unfold sumdb.fetchAndStoreRecord. cbn [bind call run].
  intros Hout.
  destruct Hout as [id s1 Hrid | e s1 Hrid Hnf | e0 s1 e s2 Hrid Hnf Hmod
                   | e0 s1 h1mod s2 e s3 Hrid Hnf Hmod Hzip
                   | e0 s1 h1mod s2 h1 s3 e s4 Hrid Hnf Hmod Hzip Hadd
                   | e0 s1 h1mod s2 h1 s3 id s4 e s5 tr Hrid Hnf Hmod Hzip Hadd Happ
                   | e0 s1 h1mod s2 h1 s3 id s4 s5 tr Hrid Hnf Hmod Hzip Hadd Happ];
    rewrite Hrid; cbn [run]; try reflexivity; rewrite Hnf; cbn [negb bind call run];
    try reflexivity; rewrite Hmod; cbn [bind call run]; try reflexivity;
    rewrite Hzip; cbn [bind call run]; try reflexivity;
    fold (built_record m h1 h1mod); rewrite Hadd; cbn [bind call run];
    try reflexivity;
    apply append_outcome_run in Happ; rewrite run_bind, Happ; cbn [run];
    rewrite app_nil_r; reflexivity.
Qed.

Lemma run_lookup_outcome (m : ModVersion) (s : S) (r : result Z) (s' : S)
    (tr : list event) :
  run h (sumdb.Lookup m) s = Some (r, s', tr) ->
  lookup_outcome h m s r s' tr.
Proof.
  unfold sumdb.Lookup, sumdb.singleflight_Do. cbn [bind call run].
  destruct (h _ (OpRecordID _ _) s) as [[[id | e0] s1] |] eqn:Hrid;
    [| | discriminate]; cbn [run].
  { intros [= <- <- <-]. apply LookupFound. exact Hrid. }
  destruct (errors_Is e0 ErrNotFound) eqn:Hnf; cbn [negb bind call run].
  2: { intros [= <- <- <-]. apply LookupStoreError; assumption. }
  rewrite run_bind.
  destruct (run h (sumdb.fetchAndStoreRecord m) s1) as [[[r1 s2] tr1] |] eqn:Hf;
    [| discriminate].
  apply run_fetch_outcome in Hf.
  destruct r1 as [id | e]; cbn [run]; intros [= <- <- <-]; rewrite app_nil_r;
    eapply LookupMiss; eauto.
Qed.

Lemma lookup_outcome_run (m : ModVersion) (s : S) (r : result Z) (s' : S)
    (tr : list event) :
  lookup_outcome h m s r s' tr ->
  run h (sumdb.Lookup m) s = Some (r, s', tr).
Proof.
  unfold sumdb.Lookup, sumdb.singleflight_Do. cbn [bind call run].
  intros Hout.
  destruct Hout as [id s1 Hrid | e s1 Hrid Hnf | e s1 r s2 tr Hrid Hnf Hf];
    rewrite Hrid; cbn [run]; try reflexivity; rewrite Hnf; cbn [negb bind call run];
    try reflexivity.
  apply fetch_outcome_run in Hf. rewrite run_bind, Hf.
  destruct r; cbn [run]; rewrite app_nil_r; reflexivity.
Qed.

End OutcomeFacts.

(** ** The tree engine *)
Section TreeTheorems.
Context {sha : Sha256}.

Lemma build_hashes_head (old_rev : list Hash) (h x : Hash) (acc : list Hash) :
  nth_error (tlog.build_hashes old_rev h (x :: acc)) 0 = Some x.
Proof.
  revert h acc. induction old_rev as [| o rest IH]; intros h acc; simpl.
  - reflexivity.
  - apply IH.
Qed.

(** C1: a successful [tree.AddRecord id data] performs, after reading the
    earlier hashes it needs, exactly one write of [1 + trailing_ones id]
    hashes, the i-th at storage index [StoredHashIndex i (id >> i)] (the
    first being the record hash of the data), and then sets the tree size
    to [id + 1] ([int64] addition, which is [id + 1] below the largest
    [int64]). *)
Theorem AddRecord_writes_stored_hashes {S : Type} (h : handler S) (id : Z)
    (data : string) (s s' : S) (tr : list event) :
  run h (tree.AddRecord id data) s = Some (Ok tt, s', tr) ->
  exists old hashes : list Hash,
    length hashes = (1 + trailing_ones id)%nat /\
    nth_error hashes 0 = Some (tlog.RecordHash data) /\
    tr = [Ev (OpReadHashes (tlog.read_indexes id (trailing_ones id))) (Ok old);
          Ev (OpWriteHashes
                (map (fun i => tlog.StoredHashIndex i (Z.shiftr id (Z.of_nat i)))
                     (seq 0 (1 + trailing_ones id)))
                hashes) (Ok tt);
          Ev (OpSetTreeSize (add64 id 1)) (Ok tt)] /\
    (int64_ok id -> id <> 2 ^ 63 - 1 -> add64 id 1 = id + 1).
Proof.
  intros Hrun. apply run_append_outcome in Hrun.
  inversion Hrun as [| | | | old s1 hashes s2 s3 Hread Hlen Hhashes Hw Hs]; subst.
  exists old, (tlog.build_hashes (rev old) (tlog.RecordHash data) [tlog.RecordHash data]).
  assert (Hn : length (tlog.build_hashes (rev old) (tlog.RecordHash data)
                         [tlog.RecordHash data]) = (1 + trailing_ones id)%nat).
  { rewrite build_hashes_length, length_rev, Hlen. reflexivity. }
  split; [exact Hn |].
  split; [apply build_hashes_head |].
  split.
  - rewrite Hn. reflexivity.
  - intros Hok Hmax. unfold add64. apply wrap64_id. unfold int64_ok in *. lia.
Qed.

(** C10: [storedHashIndexes id count] has exactly [count] elements, and no
    run of [tree.AddRecord] returns the length-mismatch error, whatever the
    store answers. *)
Theorem AddRecord_never_length_mismatch {S : Type} (h : handler S) (id : Z)
    (data : string) (s : S) :
  (forall count : nat, length (tree.storedHashIndexes id count) = count) /\
  (forall (r : result unit) (s' : S) (tr : list event),
     run h (tree.AddRecord id data) s = Some (r, s', tr) ->
     forall a b : nat, r <> Err (ErrLengthMismatch a b)).
Proof.
  split; [apply storedHashIndexes_length |].
  intros r s' tr Hrun a b.
  apply run_append_outcome in Hrun.
  destruct Hrun; discriminate.
Qed.

End TreeTheorems.

(** Appending record 3 (binary 11) to the empty in-memory store: three
    hashes, at the indexes 4, 5 and 6. *)
Lemma AddRecord_writes_stored_hashes_witness :
  exists (s' : memStore) (tr : list event) (old hashes : list Hash),
    run (mem_handler no_faults example_upstream) (tree.AddRecord 3 "a v1 h1:x") emptyStore
      = Some (Ok tt, s', tr) /\
    length hashes = 3%nat /\
    tr = [Ev (OpReadHashes [2; 3]) (Ok old);
          Ev (OpWriteHashes [4; 5; 6] hashes) (Ok tt);
          Ev (OpSetTreeSize 4) (Ok tt)].
Proof.
  destruct (run (mem_handler no_faults example_upstream) (tree.AddRecord 3 "a v1 h1:x") emptyStore)
    as [[[[u | e] s'] tr] |] eqn:Hrun; try (vm_compute in Hrun; discriminate).
  destruct u.
  destruct (AddRecord_writes_stored_hashes _ _ _ _ _ _ Hrun)
    as (old & hashes & Hlen & _ & Htr & _).
  exists s', tr, old, hashes. split; [reflexivity |]. split; [exact Hlen |]. exact Htr.
Defined.

(** Appending record 0 to the empty in-memory store. *)
Lemma AddRecord_never_length_mismatch_witness :
  exists (r : result unit) (s' : memStore) (tr : list event),
    run (mem_handler no_faults example_upstream) (tree.AddRecord 0 "a v1 h1:x") emptyStore
      = Some (r, s', tr) /\
    r <> Err (ErrLengthMismatch 1 1).
Proof.
  destruct (run (mem_handler no_faults example_upstream) (tree.AddRecord 0 "a v1 h1:x") emptyStore)
    as [[[r s'] tr] |] eqn:Hrun; [| vm_compute in Hrun; discriminate].
  exists r, s', tr. split; [reflexivity |].
  exact (proj2 (AddRecord_never_length_mismatch _ _ _ _) r s' tr Hrun 1%nat 1%nat).
Defined.

(** ** The in-memory store, operation by operation *)
Section MemFacts.
Variables (f : faults) (up : upstream).

Lemma mem_step_failed {X : Type} (o : op X) (st st' : memStore) (x : X) :
  mem_handler f up X o st = Some (x, st') ->
  is_mutation (Ev o x) = false -> st' = st.
Proof.
  unfold mem_handler. destruct (f X o) as [e |].
  - intros [= <- <-]. reflexivity.
  - destruct o; cbn [mem_answer]; try (intros [= <- <-]; reflexivity).
    + unfold mem_AddRecord. destruct (find _ _); intros [= <- <-]; [reflexivity |].
      discriminate.
    + destruct (write_hashes _ _ _); [| discriminate]. intros [= <- <-]. discriminate.
    + intros [= <- <-]. discriminate.
Qed.

Lemma mem_step_treeSize {X : Type} (o : op X) (st st' : memStore) (x : X) :
  mem_handler f up X o st = Some (x, st') ->
  sets_tree_size (Ev o x) = false -> treeSize st' = treeSize st.
Proof.
  unfold mem_handler. destruct (f X o) as [e |].
  - intros [= <- <-]. reflexivity.
  - destruct o; cbn [mem_answer]; try (intros [= <- <-]; reflexivity).
    + unfold mem_AddRecord. destruct (find _ _); intros [= <- <-]; reflexivity.
    + destruct (write_hashes _ _ _); [| discriminate]. intros [= <- <-]. reflexivity.
    + intros [= <- <-]. discriminate.
Qed.

Lemma mem_step_records {X : Type} (o : op X) (st st' : memStore) (x : X) :
  mem_handler f up X o st = Some (x, st') ->
  is_added (Ev o x) = false -> records st' = records st.
Proof.
  unfold mem_handler. destruct (f X o) as [e |].
  - intros [= <- <-]. reflexivity.
  - destruct o; cbn [mem_answer]; try (intros [= <- <-]; reflexivity).
    + unfold mem_AddRecord. destruct (find _ _); intros [= <- <-]; [reflexivity |].
      discriminate.
    + destruct (write_hashes _ _ _); [| discriminate]. intros [= <- <-]. reflexivity.
Qed.

End MemFacts.

(** The final state of a run is the state after its operations, one after
    the other. *)
Lemma run_states {S A : Type} (h : handler S) (P : S -> S -> Prop) (keep : event -> bool) :
  (forall s, P s s) ->
  (forall s1 s2 s3, P s1 s2 -> P s2 s3 -> P s1 s3) ->
  (forall X (o : op X) s x s', h X o s = Some (x, s') -> keep (Ev o x) = false -> P s s') ->
  forall (p : prog A) (s : S) (a : A) (s' : S) (tr : list event),
    run h p s = Some (a, s', tr) -> existsb keep tr = false -> P s s'.
Proof.
  intros Hrefl Htrans Hstep p.
  induction p as [a0 | | X o k IH]; intros s a s' tr; cbn [run].
  - intros [= <- <- <-] _. apply Hrefl.
  - discriminate.
  - destruct (h X o s) as [[x s1] |] eqn:Hh; [| discriminate].
    destruct (run h (k x) s1) as [[[a1 s2] tr1] |] eqn:Hk; [| discriminate].
    intros [= <- <- <-]. cbn [existsb]. intros Hex.
    apply orb_false_iff in Hex as [Hx Htr].
    eapply Htrans; [eapply Hstep; eauto | eapply IH; eauto].
Qed.

(** ** The coordinator *)
Section LookupTheorems.
Context {sha : Sha256}.

Lemma find_app {A : Type} (p : A -> bool) (l1 l2 : list A) :
  find p (l1 ++ l2) = match find p l1 with Some x => Some x | None => find p l2 end.
Proof.
  induction l1 as [| a l1 IH]; simpl; [reflexivity |].
  destruct (p a); [reflexivity | exact IH].
Qed.

(** A lookup that stored its record finds it again. *)
Lemma mem_lookup_then_found (up : upstream) (m : ModVersion) (st st' : memStore)
    (id : Z) (tr : list event) :
  lookup_outcome (mem_handler no_faults up) m st (Ok id) st' tr ->
  mem_RecordID st' (Path m) (Version m) = Ok id.
Proof.
  intros Hout.
  inversion Hout as [id0 s1 Hrid | | e s1 r s2 tr1 Hrid Hnf Hf]; subst.
  - cbv [mem_handler no_faults mem_answer] in Hrid. congruence.
  - cbv [mem_handler no_faults mem_answer] in Hrid.
    injection Hrid as Hmiss <-.
    inversion Hf as [id0 s1 Hrid2 | | | | |
                    | e0 s1 h1mod s2 h1 s3 id0 s4 s5 tr2 Hrid2 Hnf2 Hmod Hzip Hadd Happ];
      subst.
    + cbv [mem_handler no_faults mem_answer] in Hrid2. congruence.
    + cbv [mem_handler no_faults mem_answer] in Hrid2, Hmod, Hzip, Hadd.
      injection Hrid2 as _ <-. injection Hmod as _ <-. injection Hzip as _ <-.
      unfold mem_AddRecord in Hadd. cbn [built_record RecPath RecVersion RecData] in Hadd.
      destruct (find (same_module (Path m) (Version m)) (records st)) eqn:Hfind;
        [discriminate |].
      injection Hadd as <- <-.
      assert (Hna : existsb is_added tr2 = false) by (destruct Happ; reflexivity).
      apply append_outcome_run in Happ.
      assert (Hrec : records st' =
                     records st ++ [mkRecord (Z.of_nat (length (records st))) (Path m)
                                      (Version m) (RecData (built_record m h1 h1mod))]).
      { eapply (run_states _ (fun a b => records b = records a) is_added) in Happ;
          [exact Happ | reflexivity | intros; congruence | | exact Hna].
        intros X o s x s'. apply mem_step_records. }
      unfold mem_RecordID. rewrite Hrec, find_app, Hfind. cbn [find].
      unfold same_module. cbn [RecPath RecVersion RecID].
      rewrite !String.eqb_refl. reflexivity.
Qed.

(** C7: when the store already has the record of a module, [Lookup]
    returns its id after that single query of the store: no request goes
    to the upstream and no operation changes the store.  On the in-memory
    store the state is the same afterwards, and a lookup that follows a
    successful lookup of the same module returns the same id in the same
    way, whatever the upstream would answer. *)
Theorem Lookup_existing_record :
  (forall (S : Type) (h : handler S) (m : ModVersion) (s s1 : S) (id : Z),
     h _ (OpRecordID (Path m) (Version m)) s = Some (Ok id, s1) ->
     run h (sumdb.Lookup m) s
       = Some (Ok id, s1, [Ev (OpRecordID (Path m) (Version m)) (Ok id)])) /\
  (forall (up : upstream) (m : ModVersion) (st : memStore) (id : Z),
     mem_RecordID st (Path m) (Version m) = Ok id ->
     run (mem_handler no_faults up) (sumdb.Lookup m) st
       = Some (Ok id, st, [Ev (OpRecordID (Path m) (Version m)) (Ok id)])) /\
  (forall (up up' : upstream) (m : ModVersion) (st st' : memStore) (id : Z)
          (tr : list event),
     run (mem_handler no_faults up) (sumdb.Lookup m) st = Some (Ok id, st', tr) ->
     run (mem_handler no_faults up') (sumdb.Lookup m) st'
       = Some (Ok id, st', [Ev (OpRecordID (Path m) (Version m)) (Ok id)])).
Proof.
  assert (Hgen : forall (S : Type) (h : handler S) (m : ModVersion) (s s1 : S) (id : Z),
     h _ (OpRecordID (Path m) (Version m)) s = Some (Ok id, s1) ->
     run h (sumdb.Lookup m) s
       = Some (Ok id, s1, [Ev (OpRecordID (Path m) (Version m)) (Ok id)])).
  { intros S h m s s1 id Hrid. apply lookup_outcome_run. apply LookupFound. exact Hrid. }
  split; [exact Hgen |]. split.
  - intros up m st id Hrid. apply Hgen.
    cbv [mem_handler no_faults mem_answer]. rewrite Hrid. reflexivity.
  - intros up up' m st st' id tr Hrun. apply Hgen.
    apply run_lookup_outcome, mem_lookup_then_found in Hrun.
    cbv [mem_handler no_faults mem_answer]. rewrite Hrun. reflexivity.
Qed.

(** C9: in a successful [Lookup] of [m], every record handed to the store
    has the path and version of [m], and its data is the line of the zip
    hash followed by the line of the go.mod hash, each ended by a newline,
    with the hashes as the upstream returned them; the id the store
    assigned to it is the id returned. *)
Theorem Lookup_record_data {S : Type} (h : handler S) (m : ModVersion) (s s' : S)
    (id : Z) (tr : list event) :
  run h (sumdb.Lookup m) s = Some (Ok id, s', tr) ->
  forall (rec : RecordT) (x : result Z),
    In (Ev (OpAddRecord rec) x) tr ->
    exists h1 h1mod : string,
      In (Ev (OpZip m) (Ok h1)) tr /\
      In (Ev (OpGoMod m) (Ok h1mod)) tr /\
      x = Ok id /\
      RecPath rec = Path m /\
      RecVersion rec = Version m /\
      RecData rec =
        Path m +:+ " " +:+ Version m +:+ " " +:+ h1 +:+ nl +:+
        Path m +:+ " " +:+ Version m +:+ "/go.mod " +:+ h1mod +:+ nl.
Proof.
  intros Hrun rec x Hin.
  apply (in_map added_record) in Hin. cbn [added_record] in Hin.
  apply run_lookup_outcome in Hrun.
  inversion Hrun as [id0 s1 Hrid | | e s1 r s2 tr1 Hrid Hnf Hf]; subst.
  - cbn in Hin. destruct Hin as [Hin | []]. discriminate.
  - inversion Hf as [id0 s1' Hrid2 | | | | |
                    | e0 s1' h1mod s2' h1 s3 id0 s4 s5 tr2 Hrid2 Hnf2 Hmod Hzip Hadd Happ];
      subst.
    + cbn in Hin. destruct Hin as [Hin | [Hin | []]]; discriminate.
    + exists h1, h1mod.
      assert (Hrec : (rec, x) = (built_record m h1 h1mod, Ok id)).
      { inversion Happ; subst; cbn in Hin;
          repeat (destruct Hin as [Hin | Hin]; try discriminate Hin; try congruence);
          destruct Hin. }
      injection Hrec as -> ->.
      repeat split; cbn; auto 10.
Qed.

(** C3, as the code has it: a [Lookup] that returns an error never advanced
    the tree size; and unless its add-record had succeeded (the error then
    comes from the tree-hash step that follows), no operation changed the
    store: no record was added and no hash was written.  On the in-memory
    store this reads on the state: the tree size is the same, and the
    whole state is the same when the add-record had not succeeded. *)
Theorem Lookup_error_effects :
  (forall (S : Type) (h : handler S) (m : ModVersion) (s s' : S) (e : error)
          (tr : list event),
     run h (sumdb.Lookup m) s = Some (Err e, s', tr) ->
     existsb sets_tree_size tr = false /\
     (existsb is_added tr = false -> existsb is_mutation tr = false)) /\
  (forall (f : faults) (up : upstream) (m : ModVersion) (st st' : memStore)
          (e : error) (tr : list event),
     run (mem_handler f up) (sumdb.Lookup m) st = Some (Err e, st', tr) ->
     treeSize st' = treeSize st /\
     (existsb is_added tr = false -> st' = st)).
Proof.
  assert (Hgen : forall (S : Type) (h : handler S) (m : ModVersion) (s s' : S)
                        (e : error) (tr : list event),
     run h (sumdb.Lookup m) s = Some (Err e, s', tr) ->
     existsb sets_tree_size tr = false /\
     (existsb is_added tr = false -> existsb is_mutation tr = false)).
  { intros S h m s s' e tr Hrun. apply run_lookup_outcome in Hrun.
    inversion Hrun as [| e0 s1 Hrid Hnf | e0 s1 r s2 tr1 Hrid Hnf Hf]; subst.
    - split; reflexivity.
    - inversion Hf as [| | | | | e1 s1' h1mod s2' h1 s3 id0 s4 e2 s5 tr2 Hrid2 Hnf2 Hmod Hzip Hadd Happ |];
        subst; try (split; reflexivity).
      inversion Happ; subst; split; try reflexivity; cbn; discriminate. }
  split; [exact Hgen |].
  intros f up m st st' e tr Hrun.
  destruct (Hgen _ _ _ _ _ _ _ Hrun) as [Hsize Hmut].
  split.
  - eapply (run_states _ (fun a b => treeSize b = treeSize a) sets_tree_size);
      [reflexivity | intros; congruence | | exact Hrun | exact Hsize].
    intros X o s x s0. apply mem_step_treeSize.
  - intros Hadded.
    eapply (run_states _ (fun a b => b = a) is_mutation);
      [reflexivity | intros; congruence | | exact Hrun | exact (Hmut Hadded)].
    intros X o s x s0. apply mem_step_failed.
Qed.

End LookupTheorems.

(** A first lookup stores the record; the second finds it although the
    upstream is down. *)
Lemma Lookup_existing_record_witness :
  exists (st : memStore) (tr : list event),
    run (mem_handler no_faults example_upstream) (sumdb.Lookup example_mod) emptyStore
      = Some (Ok 0, st, tr) /\
    run (mem_handler no_faults down_upstream) (sumdb.Lookup example_mod) st
      = Some (Ok 0, st, [Ev (OpRecordID "example.com/new" "v1.0.0") (Ok 0)]).
Proof.
  destruct (run (mem_handler no_faults example_upstream) (sumdb.Lookup example_mod)
              emptyStore) as [[[[id | e] st] tr] |] eqn:Hrun;
    try (vm_compute in Hrun; discriminate).
  assert (Hid : id = 0) by (vm_compute in Hrun; congruence).
  subst id. exists st, tr. split; [reflexivity |].
  exact (proj2 (proj2 Lookup_existing_record) example_upstream down_upstream
           example_mod emptyStore st 0 tr Hrun).
Defined.

(** The record of a first lookup on the empty in-memory store. *)
Lemma Lookup_record_data_witness :
  exists (st : memStore) (tr : list event) (h1 h1mod : string),
    run (mem_handler no_faults example_upstream) (sumdb.Lookup example_mod) emptyStore
      = Some (Ok 0, st, tr) /\
    In (Ev (OpAddRecord (built_record example_mod "h1:zip" "h1:mod")) (Ok 0)) tr /\
    In (Ev (OpZip example_mod) (Ok h1)) tr /\
    In (Ev (OpGoMod example_mod) (Ok h1mod)) tr /\
    RecData (built_record example_mod "h1:zip" "h1:mod") =
      "example.com/new" +:+ " " +:+ "v1.0.0" +:+ " " +:+ h1 +:+ nl +:+
      "example.com/new" +:+ " " +:+ "v1.0.0" +:+ "/go.mod " +:+ h1mod +:+ nl.
Proof.
  destruct (run (mem_handler no_faults example_upstream) (sumdb.Lookup example_mod)
              emptyStore) as [[[[id | e] st] tr] |] eqn:Hrun;
    try (vm_compute in Hrun; discriminate).
  assert (Hid : id = 0) by (vm_compute in Hrun; congruence).
  subst id.
  assert (Hin : In (Ev (OpAddRecord (built_record example_mod "h1:zip" "h1:mod")) (Ok 0)) tr).
  { pose proof Hrun as Hc. vm_compute in Hc. injection Hc as _ <-.
    do 4 right. left. reflexivity. }
  destruct (Lookup_record_data _ example_mod emptyStore st 0 tr Hrun _ _ Hin)
    as (h1 & h1mod & Hz & Hm & _ & _ & _ & Hd).
  exists st, tr, h1, h1mod. auto.
Defined.

(** A lookup while the upstream is down leaves the empty store empty. *)
Lemma Lookup_error_effects_witness :
  exists (e : error) (st : memStore) (tr : list event),
    run (mem_handler no_faults down_upstream) (sumdb.Lookup example_mod) emptyStore
      = Some (Err e, st, tr) /\
    treeSize st = 0 /\ st = emptyStore.
Proof.
  destruct (run (mem_handler no_faults down_upstream) (sumdb.Lookup example_mod)
              emptyStore) as [[[[id | e] st] tr] |] eqn:Hrun;
    try (vm_compute in Hrun; discriminate).
  destruct (proj2 Lookup_error_effects no_faults down_upstream example_mod emptyStore
              st e tr Hrun) as [Hsize Hsame].
  exists e, st, tr. split; [reflexivity |]. split; [exact Hsize |].
  apply Hsame. vm_compute in Hrun. injection Hrun as _ _ <-. reflexivity.
Defined.

(** C3 as stated fails: with a store whose [WriteHashes] fails, [Lookup]
    returns an error and the record it added stays in the store. *)
Lemma Lookup_error_leaves_record :
  exists (e : error) (st : memStore) (tr : list event),
    run (mem_handler failing_writes example_upstream) (sumdb.Lookup example_mod)
        emptyStore = Some (Err e, st, tr) /\
    records st = [mkRecord 0 "example.com/new" "v1.0.0"
                    (RecData (built_record example_mod "h1:zip" "h1:mod"))] /\
    st <> emptyStore.
Proof.
  do 3 eexists. split; [vm_compute; reflexivity |].
  split; [reflexivity | discriminate].
Qed.

(** C2: the coordinator does not use [WithTx].  On an in-memory store that
    has [WithTx] and whose [WriteHashes] fails, [Lookup] returns the error
    and leaves the added record behind, where the same append run inside
    [WithTx] leaves the store as it was. *)
Theorem Lookup_ignores_WithTx :
  let store := memTx failing_writes example_upstream in
  let rec := built_record example_mod "h1:zip" "h1:mod" in
  (exists (e : error) (st : memStore) (tr : list event),
     run (tx_store store) (sumdb.Lookup example_mod) emptyStore = Some (Err e, st, tr) /\
     records st = [mkRecord 0 "example.com/new" "v1.0.0" (RecData rec)]) /\
  (exists e : error,
     spec.append_in_tx store rec emptyStore = Some (Err e, emptyStore)).
Proof.
  split.
  - do 3 eexists. split; [vm_compute; reflexivity | reflexivity].
  - eexists. vm_compute. reflexivity.
Qed.

(** C4: two lookups of different modules are not serialized.  In the
    first schedule the second lookup adds its record and appends to the
    tree between the add-record and the append of the first: both return,
    the store has two records and a tree of size 1, and the hash of the
    node above the two leaves was computed from an unwritten leaf.  One
    after the other, the same lookups leave a tree of size 2 whose node is
    the hash of the two leaves. *)
Theorem concurrent_lookups_interleave :
  let h := mem_handler no_faults example_upstream in
  let interleaved :=
    [T1; T1; T1; T1; T1; T2; T2; T2; T2; T2; T2; T2; T2; T1; T1; T1] in
  let in_turn :=
    [T1; T1; T1; T1; T1; T1; T1; T1; T2; T2; T2; T2; T2; T2; T2; T2] in
  let leaf0 := tlog.RecordHash (RecData (built_record example_mod "h1:zip" "h1:mod")) in
  let leaf1 := tlog.RecordHash (RecData (built_record other_mod "h1:zip" "h1:mod")) in
  (exists (st : memStore) (tr : list (thread * event)),
     run2 h interleaved (sumdb.Lookup example_mod) (sumdb.Lookup other_mod) emptyStore
       = Some (Ret (Ok 0), Ret (Ok 1), st, tr) /\
     length (records st) = 2%nat /\
     treeSize st = 1 /\
     hashes st !! 2 = Some (tlog.NodeHash zeroHash leaf1)) /\
  (exists (st : memStore) (tr : list (thread * event)),
     run2 h in_turn (sumdb.Lookup example_mod) (sumdb.Lookup other_mod) emptyStore
       = Some (Ret (Ok 0), Ret (Ok 1), st, tr) /\
     length (records st) = 2%nat /\
     treeSize st = 2 /\
     hashes st !! 2 = Some (tlog.NodeHash leaf0 leaf1)) /\
  tlog.NodeHash zeroHash leaf1 <> tlog.NodeHash leaf0 leaf1.
Proof.
  split; [| split].
  - do 2 eexists. split; [vm_compute; reflexivity |].
    split; [reflexivity |]. split; [reflexivity |]. vm_compute. reflexivity.
  - do 2 eexists. split; [vm_compute; reflexivity |].
    split; [reflexivity |]. split; [reflexivity |]. vm_compute. reflexivity.
  - vm_compute. discriminate.
Qed.

(** ** Bytes *)

Lemma byte_val_range (c : ascii) : 0 <= byte_val c < 256.
Proof.
  unfold byte_val. pose proof (nat_ascii_bounded c). lia.
Qed.

Lemma byte_of_val (c : ascii) : byte_of (byte_val c) = c.
Proof.
  unfold byte_of, byte_val. rewrite Nat2Z.id. apply ascii_nat_embedding.
Qed.

Lemma byte_val_of (z : Z) : 0 <= z < 256 -> byte_val (byte_of z) = z.
Proof.
  intros Hz. unfold byte_of, byte_val.
  rewrite nat_ascii_embedding by lia. lia.
Qed.

(** Bits put side by side add up. *)
Lemma lor_shiftl_add (a b k : Z) :
  0 <= k -> 0 <= b < 2 ^ k -> Z.lor (Z.shiftl a k) b = a * 2 ^ k + b.
Proof.
  intros Hk Hb.
  rewrite <- Z.shiftl_mul_pow2 by assumption.
  rewrite <- Z.lxor_lor, <- Z.add_nocarry_lxor; try reflexivity.
  all: apply Z.bits_inj'; intros n Hn; rewrite Z.land_spec, Z.bits_0;
    destruct (Z.lt_ge_cases n k) as [Hlt | Hge].
  all: try (rewrite Z.shiftl_spec_low by assumption; reflexivity).
  all: rewrite <- (Z.mod_small b (2 ^ k)) by assumption;
    rewrite Z.mod_pow2_bits_high by lia; apply andb_false_r.
Qed.

Lemma land_mod (a : Z) (k : Z) : 0 <= k -> Z.land a (2 ^ k - 1) = a mod 2 ^ k.
Proof.
  intros Hk. rewrite <- Z.land_ones by exact Hk. f_equal.
  rewrite Z.ones_equiv. lia.
Qed.

(** ** base64 *)

Lemma sextet_spec (val shift : Z) :
  0 <= shift ->
  base64.sextet val shift = base64.encode_char ((val / 2 ^ shift) mod 64).
Proof.
  intros Hs. unfold base64.sextet.
  rewrite Z.shiftr_div_pow2 by exact Hs.
  change 63 with (2 ^ 6 - 1). rewrite land_mod by lia. reflexivity.
Qed.

Lemma octet_spec (val shift : Z) :
  0 <= shift ->
  base64.octet val shift = byte_of ((val / 2 ^ shift) mod 256).
Proof.
  intros Hs. unfold base64.octet.
  rewrite Z.shiftr_div_pow2 by exact Hs.
  change 255 with (2 ^ 8 - 1). rewrite land_mod by lia. reflexivity.
Qed.

Lemma decode_encode_char (v : Z) :
  0 <= v < 64 -> base64.decode_char (base64.encode_char v) = Some v.
Proof.
  intros Hv.
  assert (Hall : forallb (fun n =>
            match base64.decode_char (base64.encode_char (Z.of_nat n)) with
            | Some x => x =? Z.of_nat n
            | None => false
            end) (seq 0 64) = true) by (vm_compute; reflexivity).
  rewrite forallb_forall in Hall.
  specialize (Hall (Z.to_nat v)).
  rewrite Z2Nat.id in Hall by lia.
  destruct (base64.decode_char (base64.encode_char v)) as [x |].
  - f_equal. apply Z.eqb_eq. apply Hall. apply in_seq. lia.
  - discriminate Hall. apply in_seq. lia.
Qed.

Lemma decode_char_pad : base64.decode_char base64.pad = None.
Proof. reflexivity. Qed.

Lemma encode_char_not_pad (v : Z) :
  0 <= v < 64 -> Ascii.eqb (base64.encode_char v) base64.pad = false.
Proof.
  intros Hv. destruct (Ascii.eqb_spec (base64.encode_char v) base64.pad) as [Heq |];
    [| reflexivity].
  pose proof (decode_encode_char v Hv) as Hd. rewrite Heq in Hd. discriminate.
Qed.

Lemma lor_mul_add (q y k : Z) :
  0 <= k -> 0 <= y < 2 ^ k -> Z.lor (q * 2 ^ k) y = q * 2 ^ k + y.
Proof.
  intros Hk Hy. rewrite <- Z.shiftl_mul_pow2 by exact Hk.
  rewrite lor_shiftl_add by assumption.
  rewrite Z.shiftl_mul_pow2 by exact Hk. reflexivity.
Qed.

Lemma pack_bytes3 (A B C : Z) :
  0 <= A < 256 -> 0 <= B < 256 -> 0 <= C < 256 ->
  Z.lor (Z.lor (Z.shiftl A 16) (Z.shiftl B 8)) C = A * 65536 + B * 256 + C.
Proof.
  intros HA HB HC. rewrite !Z.shiftl_mul_pow2 by lia.
  rewrite (lor_mul_add A (B * 2 ^ 8) 16) by lia.
  replace (A * 2 ^ 16 + B * 2 ^ 8) with ((A * 256 + B) * 2 ^ 8) by lia.
  rewrite lor_mul_add by lia. lia.
Qed.

Lemma pack_sextets4 (s0 s1 s2 s3 : Z) :
  0 <= s0 < 64 -> 0 <= s1 < 64 -> 0 <= s2 < 64 -> 0 <= s3 < 64 ->
  Z.lor (Z.lor (Z.lor (Z.shiftl s0 18) (Z.shiftl s1 12)) (Z.shiftl s2 6)) s3
  = s0 * 262144 + s1 * 4096 + s2 * 64 + s3.
Proof.
  intros H0 H1 H2 H3. rewrite !Z.shiftl_mul_pow2 by lia.
  rewrite (lor_mul_add s0 (s1 * 2 ^ 12) 18) by lia.
  replace (s0 * 2 ^ 18 + s1 * 2 ^ 12) with ((s0 * 64 + s1) * 2 ^ 12) by lia.
  rewrite (lor_mul_add _ (s2 * 2 ^ 6) 12) by lia.
  replace ((s0 * 64 + s1) * 2 ^ 12 + s2 * 2 ^ 6)
    with ((s0 * 4096 + s1 * 64 + s2) * 2 ^ 6) by lia.
  rewrite lor_mul_add by lia. lia.
Qed.

Lemma mod64_range (x : Z) : 0 <= x mod 64 < 64.
Proof. apply Z.mod_pos_bound. lia. Qed.

(** The three bytes of a quantum come back from its four sextets. *)
Lemma quantum_roundtrip (A B C : Z) :
  0 <= A < 256 -> 0 <= B < 256 -> 0 <= C < 256 ->
  let val := A * 65536 + B * 256 + C in
  let back := (val / 2 ^ 18) mod 64 * 262144 + (val / 2 ^ 12) mod 64 * 4096
              + (val / 2 ^ 6) mod 64 * 64 + (val / 2 ^ 0) mod 64 in
  back = val /\
  (val / 2 ^ 16) mod 256 = A /\ (val / 2 ^ 8) mod 256 = B /\ (val / 2 ^ 0) mod 256 = C.
Proof.
  intros HA HB HC val back. subst back val.
  change (2 ^ 18) with 262144. change (2 ^ 12) with 4096. change (2 ^ 6) with 64.
  change (2 ^ 0) with 1. change (2 ^ 16) with 65536. change (2 ^ 8) with 256.
  repeat split; Z.div_mod_to_equations; lia.
Qed.

Lemma pack_sextets2 (s0 s1 : Z) :
  0 <= s0 < 64 -> 0 <= s1 < 64 ->
  Z.lor (Z.shiftl s0 18) (Z.shiftl s1 12) = s0 * 262144 + s1 * 4096.
Proof.
  intros H0 H1.
  rewrite <- (Z.lor_0_r (Z.lor _ _)), <- (Z.lor_0_r (Z.lor _ _)) at 1.
  change (Z.lor (Z.lor (Z.shiftl s0 18) (Z.shiftl s1 12)) 0)
    with (Z.lor (Z.lor (Z.shiftl s0 18) (Z.shiftl s1 12)) (Z.shiftl 0 6)).
  rewrite pack_sextets4 by lia. lia.
Qed.

Lemma pack_sextets3 (s0 s1 s2 : Z) :
  0 <= s0 < 64 -> 0 <= s1 < 64 -> 0 <= s2 < 64 ->
  Z.lor (Z.lor (Z.shiftl s0 18) (Z.shiftl s1 12)) (Z.shiftl s2 6)
  = s0 * 262144 + s1 * 4096 + s2 * 64.
Proof.
  intros H0 H1 H2.
  rewrite <- (Z.lor_0_r (Z.lor _ _)).
  rewrite pack_sextets4 by lia. lia.
Qed.

Lemma pack_bytes2 (A B : Z) :
  0 <= A < 256 -> 0 <= B < 256 ->
  Z.lor (Z.shiftl A 16) (Z.shiftl B 8) = A * 65536 + B * 256.
Proof.
  intros HA HB.
  rewrite <- (Z.lor_0_r (Z.lor _ _)).
  rewrite pack_bytes3 by lia. lia.
Qed.

Ltac pow2_consts :=
  change (2 ^ 18) with 262144 in *; change (2 ^ 12) with 4096 in *;
  change (2 ^ 6) with 64 in *; change (2 ^ 0) with 1 in *;
  change (2 ^ 16) with 65536 in *; change (2 ^ 8) with 256 in *.

Lemma quantum1_roundtrip (A : Z) :
  0 <= A < 256 ->
  let val := A * 65536 in
  ((((val / 2 ^ 18) mod 64) * 262144 + ((val / 2 ^ 12) mod 64) * 4096) / 2 ^ 16) mod 256 = A.
Proof. intros HA val. subst val. pow2_consts. Z.div_mod_to_equations. lia. Qed.

Lemma quantum2_roundtrip (A B : Z) :
  0 <= A < 256 -> 0 <= B < 256 ->
  let val := A * 65536 + B * 256 in
  let back := (val / 2 ^ 18) mod 64 * 262144 + (val / 2 ^ 12) mod 64 * 4096
              + (val / 2 ^ 6) mod 64 * 64 in
  (back / 2 ^ 16) mod 256 = A /\ (back / 2 ^ 8) mod 256 = B.
Proof.
  intros HA HB val back. subst back val. pow2_consts.
  split; Z.div_mod_to_equations; lia.
Qed.

(** Decoding what was encoded gives the bytes back. *)
Lemma decode_quanta_encode (src : string) :
  base64.decode_quanta (base64.EncodeToString src) = Some src.
Proof.
  assert (H3 : forall src,
            base64.decode_quanta (base64.EncodeToString src) = Some src /\
            (forall a, base64.decode_quanta (base64.EncodeToString (String a src))
                       = Some (String a src)) /\
            (forall a b, base64.decode_quanta
                           (base64.EncodeToString (String a (String b src)))
                         = Some (String a (String b src)))).
  { clear src. induction src as [| c rest IH].
    - split; [reflexivity |]. split.
      + intros a. pose proof (byte_val_range a) as Ha.
        cbn [base64.EncodeToString base64.decode_quanta].
        rewrite !sextet_spec by lia.
        rewrite !decode_encode_char by apply mod64_range.
        rewrite Ascii.eqb_refl.
        rewrite pack_sextets2 by apply mod64_range.
        rewrite octet_spec by lia.
        rewrite Z.shiftl_mul_pow2 by lia.
        change (byte_val a * 2 ^ 16) with (byte_val a * 65536).
        rewrite (quantum1_roundtrip _ Ha), byte_of_val. reflexivity.
      + intros a b. pose proof (byte_val_range a) as Ha.
        pose proof (byte_val_range b) as Hb.
        cbn [base64.EncodeToString base64.decode_quanta].
        rewrite !sextet_spec by lia.
        rewrite !decode_encode_char by apply mod64_range.
        rewrite Ascii.eqb_refl.
        rewrite encode_char_not_pad by apply mod64_range.
        rewrite pack_sextets3 by apply mod64_range.
        rewrite !octet_spec by lia.
        rewrite pack_bytes2 by assumption.
        destruct (quantum2_roundtrip _ _ Ha Hb) as [-> ->].
        rewrite !byte_of_val. reflexivity.
    - destruct IH as (IH0 & IH1 & IH2).
      split; [exact (IH1 c) |]. split; [intros a; exact (IH2 a c) |].
      intros a b. pose proof (byte_val_range a) as Ha.
      pose proof (byte_val_range b) as Hb. pose proof (byte_val_range c) as Hc.
      cbn [base64.EncodeToString base64.decode_quanta].
      rewrite !sextet_spec by lia.
      rewrite !decode_encode_char by apply mod64_range.
      rewrite encode_char_not_pad by apply mod64_range.
      rewrite IH0.
      rewrite pack_sextets4 by apply mod64_range.
      rewrite !octet_spec by lia.
      rewrite pack_bytes3 by assumption.
      destruct (quantum_roundtrip _ _ _ Ha Hb Hc) as (-> & -> & -> & ->).
      rewrite !byte_of_val. reflexivity. }
  apply H3.
Qed.

(** ** Strings *)

#[local] Arguments append !s1%_string_scope s2%_string_scope : simpl nomatch.

Lemma str_app_assoc (a b c : string) : (a +:+ b) +:+ c = a +:+ (b +:+ c).
Proof. induction a as [| x a IH]; cbn [append String.length]; [reflexivity | rewrite IH; reflexivity]. Qed.

Lemma str_length_app (a b : string) :
  String.length (a +:+ b) = (String.length a + String.length b)%nat.
Proof. induction a as [| x a IH]; cbn [append String.length]; [reflexivity | rewrite IH; reflexivity]. Qed.

Lemma str_all_app (p : ascii -> bool) (a b : string) :
  str_all p (a +:+ b) = str_all p a && str_all p b.
Proof.
  induction a as [| x a IH]; cbn [append str_all]; [reflexivity |].
  rewrite IH, andb_assoc. reflexivity.
Qed.

Lemma str_all_impl (p q : ascii -> bool) (a : string) :
  (forall c, p c = true -> q c = true) -> str_all p a = true -> str_all q a = true.
Proof.
  intros Hpq. induction a as [| x a IH]; simpl; [reflexivity |].
  intros H. apply andb_true_iff in H as [Hx Ha].
  rewrite (Hpq _ Hx), (IH Ha). reflexivity.
Qed.

Lemma str_filter_all (p : ascii -> bool) (a : string) :
  str_all p a = true -> str_filter p a = a.
Proof.
  induction a as [| x a IH]; simpl; [reflexivity |].
  intros H. apply andb_true_iff in H as [Hx Ha].
  rewrite Hx, (IH Ha). reflexivity.
Qed.

Lemma str_take_app (a b : string) : str_take (String.length a) (a +:+ b) = a.
Proof.
  induction a as [| x a IH]; cbn [append String.length str_take];
    [destruct b; reflexivity | rewrite IH; reflexivity].
Qed.

Lemma str_drop_app (a b : string) : str_drop (String.length a) (a +:+ b) = b.
Proof. induction a as [| x a IH]; cbn [append String.length str_drop]; [reflexivity | exact IH]. Qed.

Lemma HasPrefix_app (p s : string) : HasPrefix (p +:+ s) p = true.
Proof.
  induction p as [| x p IH]; cbn [append HasPrefix]; [destruct s; reflexivity |].
  rewrite Ascii.eqb_refl, IH. reflexivity.
Qed.

Lemma ends_with_nl_app (a : string) : ends_with_nl (a +:+ nl) = true.
Proof.
  induction a as [| x a IH]; [reflexivity |].
  cbn [append ends_with_nl]. cbn [append ends_with_nl] in IH.
  destruct (a +:+ nl) eqn:Ha; [destruct a; discriminate | exact IH].
Qed.

Lemma count_nl_app (a b : string) : count_nl (a +:+ b) = (count_nl a + count_nl b)%nat.
Proof.
  induction a as [| x a IH]; cbn [append count_nl]; [reflexivity |].
  destruct (Ascii.eqb x nl_char); rewrite IH; reflexivity.
Qed.

(** Cutting at a separator that the first part does not contain. *)
Lemma cut_at_app (sep : ascii) (a b : string) :
  str_all (not_char sep) a = true ->
  cut_at sep (a +:+ String sep b) = Some (a, b).
Proof.
  induction a as [| x a IH]; cbn [append cut_at str_all].
  - intros _. rewrite Ascii.eqb_refl. reflexivity.
  - intros H. apply andb_true_iff in H as [Hx Ha].
    unfold not_char in Hx. apply negb_true_iff in Hx. rewrite Hx, (IH Ha). reflexivity.
Qed.

Lemma cut_at_none (sep : ascii) (a : string) :
  str_all (not_char sep) a = true -> cut_at sep a = None.
Proof.
  induction a as [| x a IH]; simpl; [reflexivity |].
  intros H. apply andb_true_iff in H as [Hx Ha].
  unfold not_char in Hx. apply negb_true_iff in Hx. rewrite Hx, (IH Ha). reflexivity.
Qed.

(** ** strconv *)

Lemma digit_char_val (d : Z) : 0 <= d < 10 -> byte_val (strconv.digit_char d) = 48 + d.
Proof. intros Hd. unfold strconv.digit_char. apply byte_val_of. lia. Qed.

Lemma digit_char_is_digit (d : Z) : 0 <= d < 10 -> is_digit (strconv.digit_char d) = true.
Proof.
  intros Hd. unfold is_digit. rewrite digit_char_val by exact Hd.
  apply andb_true_iff. split; lia.
Qed.

Lemma mod10_range (n : Z) : 0 <= n mod 10 < 10.
Proof. apply Z.mod_pos_bound. lia. Qed.

Lemma digits_all_digits (fuel : nat) (n : Z) (acc : string) :
  str_all is_digit acc = true -> str_all is_digit (strconv.digits fuel n acc) = true.
Proof.
  revert n acc. induction fuel as [| f IH]; intros n acc Hacc; cbn [strconv.digits];
    [exact Hacc |].
  destruct (n <=? 0); [exact Hacc |].
  apply IH. cbn [str_all]. rewrite digit_char_is_digit by apply mod10_range. exact Hacc.
Qed.

Lemma digits_length (fuel : nat) (n : Z) (acc : string) :
  (String.length (strconv.digits fuel n acc) <= fuel + String.length acc)%nat.
Proof.
  revert n acc. induction fuel as [| f IH]; intros n acc; cbn [strconv.digits]; [lia |].
  destruct (n <=? 0); [lia |].
  specialize (IH (n / 10) (String (strconv.digit_char (n mod 10)) acc)).
  cbn [String.length] in IH. lia.
Qed.

Lemma digits_nonempty (fuel : nat) (n : Z) (acc : string) :
  (0 < n /\ (0 < fuel)%nat) \/ acc <> EmptyString ->
  strconv.digits fuel n acc <> EmptyString.
Proof.
  revert n acc. induction fuel as [| f IH]; intros n acc H; cbn [strconv.digits].
  - destruct H as [[_ H] | H]; [lia | exact H].
  - destruct (n <=? 0) eqn:Hn.
    + destruct H as [[H _] | H]; [lia | exact H].
    + apply IH. right. discriminate.
Qed.

(** Reading the digits of [n] written in front of [acc] continues on
    [acc] from [k * p + n], for a power of ten [p]. *)
Lemma parse_digits_digits (fuel : nat) (n : Z) (acc : string) (k : Z) :
  0 <= n < 10 ^ Z.of_nat fuel -> 0 <= k ->
  exists p : Z,
    0 < p /\
    (k * p + n < 2 ^ 64 ->
     strconv.parse_digits (strconv.digits fuel n acc) k
     = strconv.parse_digits acc (k * p + n)).
Proof.
  revert n acc k. induction fuel as [| f IH]; intros n acc k Hn Hk.
  - exists 1. split; [lia |]. intros _. cbn [strconv.digits].
    change (10 ^ Z.of_nat 0) with 1 in Hn. f_equal. lia.
  - cbn [strconv.digits]. destruct (n <=? 0) eqn:Hn0.
    + exists 1. split; [lia |]. intros _. f_equal. lia.
    + assert (Hdiv : 0 <= n / 10 < 10 ^ Z.of_nat f).
      { rewrite Nat2Z.inj_succ, Z.pow_succ_r in Hn by lia.
        split; [apply Z.div_pos; lia | apply Z.div_lt_upper_bound; lia]. }
      destruct (IH (n / 10) (String (strconv.digit_char (n mod 10)) acc) k Hdiv Hk)
        as (p & Hp & Hparse).
      exists (p * 10). split; [lia |]. intros Hbound.
      pose proof (mod10_range n) as Hm.
      pose proof (Z.div_mod n 10 ltac:(lia)) as Hdm.
      rewrite Hparse by nia.
      cbn [strconv.parse_digits]. rewrite digit_char_val by exact Hm.
      replace ((48 <=? 48 + n mod 10) && (48 + n mod 10 <=? 57)) with true
        by (symmetry; apply andb_true_iff; split; lia).
      replace ((k * p + n / 10) * 10 + (48 + n mod 10 - 48)) with (k * (p * 10) + n) by lia.
      destruct (2 ^ 64 <=? k * (p * 10) + n) eqn:Hov; [lia | reflexivity].
Qed.

Lemma FormatUint_digits (n : Z) :
  0 <= n -> str_all is_digit (strconv.FormatUint n) = true.
Proof.
  intros Hn. unfold strconv.FormatUint. destruct (n =? 0); [reflexivity |].
  apply digits_all_digits. reflexivity.
Qed.

Lemma FormatUint_nonempty (n : Z) : 0 <= n -> strconv.FormatUint n <> EmptyString.
Proof.
  intros Hn. unfold strconv.FormatUint. destruct (n =? 0) eqn:H0; [discriminate |].
  apply digits_nonempty. left. lia.
Qed.

Lemma FormatUint_length (n : Z) : (String.length (strconv.FormatUint n) <= 20)%nat.
Proof.
  unfold strconv.FormatUint. destruct (n =? 0); [cbn; lia |].
  pose proof (digits_length 20 n EmptyString) as H. cbn [String.length] in H. lia.
Qed.

Lemma parse_FormatUint (n : Z) :
  0 <= n < 2 ^ 64 -> strconv.parse_digits (strconv.FormatUint n) 0 = Some n.
Proof.
  intros Hn. unfold strconv.FormatUint. destruct (n =? 0) eqn:H0.
  - apply Z.eqb_eq in H0. subst n. reflexivity.
  - destruct (parse_digits_digits 20 n EmptyString 0) as (p & Hp & Hparse);
      [change (10 ^ Z.of_nat 20) with 100000000000000000000; lia | lia |].
    rewrite Hparse by lia. cbn [strconv.parse_digits]. f_equal; lia.
Qed.

(** [ParseInt] reads back what [FormatInt] writes for a number that is not
    negative. *)
Lemma ParseInt_FormatInt (n : Z) :
  0 <= n < 2 ^ 63 -> strconv.ParseInt (strconv.FormatInt n) = Some n.
Proof.
  intros Hn. unfold strconv.FormatInt.
  destruct (n <? 0) eqn:Hneg; [lia |].
  pose proof (FormatUint_digits n ltac:(lia)) as Hdig.
  pose proof (FormatUint_nonempty n ltac:(lia)) as Hne.
  pose proof (parse_FormatUint n ltac:(lia)) as Hparse.
  destruct (strconv.FormatUint n) as [| c r] eqn:Hs; [congruence |].
  unfold strconv.ParseInt.
  cbn [str_all] in Hdig. apply andb_true_iff in Hdig as [Hc _].
  assert (Hminus : Ascii.eqb c "-"%char = false).
  { destruct (Ascii.eqb_spec c "-"%char) as [-> |]; [discriminate Hc | reflexivity]. }
  assert (Hplus : Ascii.eqb c "+"%char = false).
  { destruct (Ascii.eqb_spec c "+"%char) as [-> |]; [discriminate Hc | reflexivity]. }
  rewrite Hminus, Hplus. cbn [orb negb andb].
  unfold strconv.ParseUint. rewrite Hparse.
  destruct (2 ^ 63 <=? n) eqn:Hhi; [lia | reflexivity].
Qed.

(** ** The text of a tree head *)

Lemma encode_char_plain (v : Z) : 0 <= v < 64 -> is_plain (base64.encode_char v) = true.
Proof.
  intros Hv.
  assert (Hall : forallb (fun n => is_plain (base64.encode_char (Z.of_nat n))) (seq 0 64)
                 = true) by (vm_compute; reflexivity).
  rewrite forallb_forall in Hall.
  specialize (Hall (Z.to_nat v)). rewrite Z2Nat.id in Hall by lia.
  apply Hall. apply in_seq. lia.
Qed.

Lemma sextet_plain (val shift : Z) : 0 <= shift -> is_plain (base64.sextet val shift) = true.
Proof. intros Hs. rewrite sextet_spec by exact Hs. apply encode_char_plain, mod64_range. Qed.

Lemma EncodeToString_plain (src : string) :
  str_all is_plain (base64.EncodeToString src) = true.
Proof.
  assert (H3 : forall src,
            str_all is_plain (base64.EncodeToString src) = true /\
            (forall a, str_all is_plain (base64.EncodeToString (String a src)) = true) /\
            (forall a b, str_all is_plain
                           (base64.EncodeToString (String a (String b src))) = true)).
  { clear src. induction src as [| c rest IH].
    - split; [reflexivity |].
      split; intros; cbn [base64.EncodeToString str_all];
        rewrite !sextet_plain by lia; reflexivity.
    - destruct IH as (IH0 & IH1 & IH2).
      split; [exact (IH1 c) |]. split; [intros a; exact (IH2 a c) |].
      intros a b. cbn [base64.EncodeToString str_all].
      rewrite !sextet_plain by lia. rewrite IH0. reflexivity. }
  apply H3.
Qed.

Lemma plain_not_newline (c : ascii) :
  is_plain c = true -> negb (base64.is_newline c) = true.
Proof.
  intros Hc. unfold base64.is_newline.
  destruct (Ascii.eqb_spec c nl_char) as [-> |]; [discriminate Hc |].
  destruct (Ascii.eqb_spec c (ascii_of_nat 13)) as [-> |]; [discriminate Hc |].
  reflexivity.
Qed.

Lemma plain_not_char (sep c : ascii) :
  is_plain sep = false -> is_plain c = true -> not_char sep c = true.
Proof.
  intros Hsep Hc. unfold not_char.
  destruct (Ascii.eqb_spec c sep) as [-> |]; [congruence | reflexivity].
Qed.

Lemma digit_plain (c : ascii) : is_digit c = true -> is_plain c = true.
Proof.
  unfold is_digit, is_plain. intros H. apply andb_true_iff in H as [H1 H2].
  apply andb_true_iff. split; lia.
Qed.

(** [DecodeString] reads back what [EncodeToString] writes. *)
Lemma DecodeString_EncodeToString (src : string) :
  base64.DecodeString (base64.EncodeToString src) = Some src.
Proof.
  unfold base64.DecodeString.
  rewrite str_filter_all; [apply decode_quanta_encode |].
  eapply str_all_impl; [| apply EncodeToString_plain].
  apply plain_not_newline.
Qed.

Lemma EncodeToString_length (src : string) :
  (String.length (base64.EncodeToString src) <= 4 + 2 * String.length src)%nat.
Proof.
  assert (H3 : forall src,
      (String.length (base64.EncodeToString src) <= 4 + 2 * String.length src)%nat /\
      (forall a, (String.length (base64.EncodeToString (String a src))
                  <= 4 + 2 * String.length (String a src))%nat) /\
      (forall a b, (String.length (base64.EncodeToString (String a (String b src)))
                    <= 4 + 2 * String.length (String a (String b src)))%nat)).
  { clear src. induction src as [| c rest IH].
    - cbn. repeat split; intros; lia.
    - destruct IH as (IH0 & IH1 & IH2).
      split; [exact (IH1 c) |]. split; [intros a; exact (IH2 a c) |].
      intros a b. cbn [base64.EncodeToString String.length] in *. lia. }
  apply H3.
Qed.

Lemma hash_of_bytes_hbytes (h : Hash) : tlog.hash_of_bytes (hbytes h) = Some h.
Proof.
  destruct h as [b pf]. unfold tlog.hash_of_bytes. cbn [hbytes].
  assert (Hgen : forall (t : bool) (e : Nat.eqb (String.length b) HashSize = t),
            match t as b0 return Nat.eqb (String.length b) HashSize = b0 -> option Hash with
            | true => fun H => Some (mkHash b H)
            | false => fun _ => None
            end e = Some (mkHash b pf)).
  { intros t e. destruct t.
    - f_equal. f_equal. apply Eqdep_dec.UIP_dec. apply Bool.bool_dec.
    - congruence. }
  apply Hgen.
Qed.

Lemma nl_char_not_plain : is_plain nl_char = false.
Proof. reflexivity. Qed.

Lemma str_app_nl (a b : string) : a +:+ nl +:+ b = a +:+ String nl_char b.
Proof. reflexivity. Qed.

Lemma plain_no_nl (a : string) :
  str_all is_plain a = true -> str_all (not_char nl_char) a = true.
Proof. apply str_all_impl. intros c. apply plain_not_char. reflexivity. Qed.

Lemma count_nl_plain (a : string) : str_all is_plain a = true -> count_nl a = 0%nat.
Proof.
  induction a as [| c a IH]; cbn [str_all count_nl]; [reflexivity |].
  intros H. apply andb_true_iff in H as [Hc Ha].
  destruct (Ascii.eqb_spec c nl_char) as [-> |]; [discriminate Hc | exact (IH Ha)].
Qed.

Lemma FormatInt_plain (n : Z) : 0 <= n -> str_all is_plain (strconv.FormatInt n) = true.
Proof.
  intros Hn. unfold strconv.FormatInt. destruct (n <? 0) eqn:Hneg; [lia |].
  eapply str_all_impl; [apply digit_plain | apply FormatUint_digits; exact Hn].
Qed.

Lemma FormatInt_length (n : Z) : 0 <= n -> (String.length (strconv.FormatInt n) <= 20)%nat.
Proof.
  intros Hn. unfold strconv.FormatInt. destruct (n <? 0) eqn:Hneg; [lia |].
  apply FormatUint_length.
Qed.

Lemma Hash_String_plain (h : Hash) : str_all is_plain (tlog.Hash_String h) = true.
Proof. apply EncodeToString_plain. Qed.

(** [ParseTree] reads back what [FormatTree] writes for a tree whose size
    is not negative. *)
Lemma ParseTree_FormatTree (t : Tree) :
  0 <= TreeN t < 2 ^ 63 -> tlog.ParseTree (tlog.FormatTree t) = Ok t.
Proof.
  intros HN. destruct t as [n h]. cbn [TreeN] in HN.
  pose proof (FormatInt_plain n ltac:(lia)) as HNp.
  pose proof (Hash_String_plain h) as HHp.
  unfold tlog.ParseTree, tlog.FormatTree. cbn [TreeN TreeHashOf].
  set (N := strconv.FormatInt n) in *. set (H := tlog.Hash_String h) in *.
  assert (Hpre : HasPrefix ("go.sum database tree" +:+ nl +:+ N +:+ nl +:+ H +:+ nl)
                   tlog.treePrefix = true).
  { unfold tlog.treePrefix. rewrite <- str_app_assoc. apply HasPrefix_app. }
  assert (Hcount : count_nl ("go.sum database tree" +:+ nl +:+ N +:+ nl +:+ H +:+ nl)
                   = 3%nat).
  { rewrite !count_nl_app, (count_nl_plain N HNp), (count_nl_plain H HHp). reflexivity. }
  assert (Hlen : (String.length ("go.sum database tree" +:+ nl +:+ N +:+ nl +:+ H +:+ nl)
                  <= 200)%nat).
  { rewrite !str_length_app.
    pose proof (FormatInt_length n ltac:(lia)) as H1. fold N in H1.
    pose proof (EncodeToString_length (hbytes h)) as H2.
    fold (tlog.Hash_String h) in H2. fold H in H2.
    pose proof (hlen h) as H3. apply Nat.eqb_eq in H3. unfold HashSize in H3.
    cbn [String.length nl]. lia. }
  rewrite Hpre, Hcount. cbn [negb orb Nat.ltb Nat.leb].
  destruct (1000000 <? Z.of_nat _) eqn:Hbig; [lia |].
  rewrite !str_app_nl.
  cbn [SplitN_nl].
  rewrite cut_at_app by reflexivity. cbv beta iota.
  rewrite cut_at_app by (apply plain_no_nl; exact HNp). cbv beta iota.
  unfold nl. rewrite cut_at_app by (apply plain_no_nl; exact HHp). cbv beta iota.
  subst N. rewrite ParseInt_FormatInt by exact HN.
  destruct (n <? 0) eqn:Hneg; [lia |].
  rewrite String.eqb_refl. cbn [negb orb].
  subst H. unfold tlog.Hash_String.
  rewrite DecodeString_EncodeToString, hash_of_bytes_hbytes. reflexivity.
Qed.

(** ** UTF-8 *)

Lemma invalid_rune_error : utf8.invalid_rune utf8.RuneError 1 = true.
Proof. reflexivity. Qed.

(** A rune that decodes lies within the string, behind an ASCII byte or a
    lead byte followed by bytes that are not ASCII, and decodes the same
    whatever follows. *)
Lemma DecodeRune_valid (c : ascii) (r rest : string) (rn : Z) (size : nat) :
  utf8.DecodeRune (String c r) = (rn, size) ->
  utf8.invalid_rune rn size = false ->
  utf8.DecodeRune (String c (r +:+ rest)) = (rn, size) /\
  (1 <= size)%nat /\
  high_prefix (size - 1) r = true /\
  ((byte_val c <? 128) = true -> rn = byte_val c /\ size = 1%nat).
Proof.
  unfold utf8.DecodeRune.
  destruct (byte_val c <? 128) eqn:H0.
  { intros [= <- <-] _. repeat split; auto. }
  destruct ((byte_val c <? 194) || (244 <? byte_val c)) eqn:H1.
  { intros [= <- <-] Hv. rewrite invalid_rune_error in Hv. discriminate. }
  destruct r as [| c1 r1].
  { intros [= <- <-] Hv. rewrite invalid_rune_error in Hv. discriminate. }
  cbn [append].
  set (lo := if byte_val c =? 224 then 160 else if byte_val c =? 240 then 144 else 128).
  set (hi := if byte_val c =? 237 then 159 else if byte_val c =? 244 then 143 else 191).
  assert (Hlo : 128 <= lo) by (subst lo; repeat destruct (_ =? _); lia).
  destruct ((byte_val c1 <? lo) || (hi <? byte_val c1)) eqn:H2.
  { intros [= <- <-] Hv. rewrite invalid_rune_error in Hv. discriminate. }
  assert (Hc1 : (128 <=? byte_val c1) = true).
  { apply orb_false_iff in H2 as [H2 _]. lia. }
  destruct (byte_val c <? 224) eqn:H3.
  { intros [= <- <-] _. cbn [Nat.sub high_prefix]. rewrite Hc1.
    repeat split; auto; try lia; discriminate. }
  destruct r1 as [| c2 r2].
  { intros [= <- <-] Hv. rewrite invalid_rune_error in Hv. discriminate. }
  cbn [append].
  destruct (utf8.is_cont (byte_val c2)) eqn:H4; cbn [negb].
  2: { intros [= <- <-] Hv. rewrite invalid_rune_error in Hv. discriminate. }
  assert (Hc2 : (128 <=? byte_val c2) = true).
  { unfold utf8.is_cont in H4. apply andb_true_iff in H4 as [H4 _]. exact H4. }
  destruct (byte_val c <? 240) eqn:H5.
  { intros [= <- <-] _. cbn [Nat.sub high_prefix]. rewrite Hc1, Hc2.
    repeat split; auto; try lia; discriminate. }
  destruct r2 as [| c3 r3].
  { intros [= <- <-] Hv. rewrite invalid_rune_error in Hv. discriminate. }
  cbn [append].
  destruct (utf8.is_cont (byte_val c3)) eqn:H6; cbn [negb].
  2: { intros [= <- <-] Hv. rewrite invalid_rune_error in Hv. discriminate. }
  assert (Hc3 : (128 <=? byte_val c3) = true).
  { unfold utf8.is_cont in H6. apply andb_true_iff in H6 as [H6 _]. exact H6. }
  intros [= <- <-] _. cbn [Nat.sub high_prefix]. rewrite Hc1, Hc2, Hc3.
  repeat split; auto; try lia; discriminate.
Qed.

Lemma high_prefix_length (k : nat) (s : string) :
  high_prefix k s = true -> (k <= String.length s)%nat.
Proof.
  revert s. induction k as [| k IH]; intros s; [lia |].
  destruct s as [| c r]; cbn [high_prefix String.length]; [discriminate |].
  intros H. apply andb_true_iff in H as [_ H]. apply IH in H. lia.
Qed.

Lemma high_prefix_tail (k : nat) (c : ascii) (r : string) :
  high_prefix (S k) (String c r) = true -> high_prefix k r = true.
Proof. cbn [high_prefix]. intros H. apply andb_true_iff in H. apply H. Qed.

Section Runes.
Variable p : Z -> nat -> bool.
Hypothesis p_valid : forall rn size, p rn size = true -> utf8.invalid_rune rn size = false.

(** A string whose runes all pass a test that rejects invalid encodings
    can be passed over: the test then runs on what follows. *)
Lemma all_runes_app_skip (a rest : string) (k : nat) :
  high_prefix k a = true ->
  utf8.all_runes p k a = true ->
  utf8.all_runes p k (a +:+ rest) = utf8.all_runes p 0 rest.
Proof using p_valid.
  revert k. induction a as [| c r IH]; intros k Hk Ha.
  - destruct k; [reflexivity | discriminate Hk].
  - cbn [append]. cbn [utf8.all_runes] in Ha |- *. destruct k as [| k].
    + destruct (utf8.DecodeRune (String c r)) as [rn size] eqn:Hd.
      apply andb_true_iff in Ha as [Hp Ha].
      destruct (DecodeRune_valid c r rest rn size Hd (p_valid _ _ Hp))
        as (Hd' & _ & Hhigh & _).
      rewrite Hd', Hp. cbn [andb]. apply IH; assumption.
    + apply IH; [eapply high_prefix_tail; exact Hk | exact Ha].
Qed.

Lemma all_runes_app (a rest : string) :
  utf8.all_runes p 0 a = true ->
  utf8.all_runes p 0 (a +:+ rest) = utf8.all_runes p 0 rest.
Proof using p_valid. apply all_runes_app_skip. reflexivity. Qed.

End Runes.

Lemma rune_ok_valid (rn : Z) (size : nat) :
  note.rune_ok rn size = true -> utf8.invalid_rune rn size = false.
Proof.
  unfold note.rune_ok. intros H. apply negb_true_iff, orb_false_iff in H. apply H.
Qed.

Lemma text_byte (c : ascii) :
  is_text c = true ->
  (byte_val c <? 128) = true /\ note.rune_ok (byte_val c) 1 = true.
Proof.
  unfold is_text, is_plain. intros H.
  pose proof (byte_val_range c) as Hr.
  apply orb_true_iff in H as [H | H].
  - apply orb_true_iff in H as [H | H].
    + apply andb_true_iff in H as [H1 H2]. split; [lia |].
      unfold note.rune_ok, utf8.invalid_rune, utf8.RuneError.
      apply negb_true_iff, orb_false_iff. split.
      * apply andb_false_iff. left. lia.
      * apply andb_false_iff. left. lia.
    + apply Ascii.eqb_eq in H. subst c. split; reflexivity.
  - apply Ascii.eqb_eq in H. subst c. split; reflexivity.
Qed.

(** Printable ASCII text passes the test of [Open]. *)
Lemma all_runes_text (a : string) :
  str_all is_text a = true -> utf8.all_runes note.rune_ok 0 a = true.
Proof.
  induction a as [| c r IH]; [reflexivity |].
  cbn [str_all]. intros H. apply andb_true_iff in H as [Hc Hr].
  destruct (text_byte c Hc) as [Hlt Hok].
  cbn [utf8.all_runes]. unfold utf8.DecodeRune. rewrite Hlt, Hok.
  cbn [andb Nat.sub]. exact (IH Hr).
Qed.

(** In valid UTF-8 without a space rune, no byte is a space or a
    newline. *)
Lemma no_space_bytes (a : string) (k : nat) :
  high_prefix k a = true ->
  utf8.all_runes (fun rn size => negb (utf8.invalid_rune rn size)) k a = true ->
  utf8.all_runes (fun rn _ => negb (utf8.IsSpace rn)) k a = true ->
  str_all (fun c => not_char " "%char c && not_char nl_char c) a = true.
Proof.
  revert k. induction a as [| c r IH]; intros k Hk Hv Hs; [reflexivity |].
  cbn [str_all]. cbn [utf8.all_runes] in Hv, Hs. destruct k as [| k].
  - destruct (utf8.DecodeRune (String c r)) as [rn size] eqn:Hd.
    apply andb_true_iff in Hv as [Hv1 Hv]. apply andb_true_iff in Hs as [Hs1 Hs].
    apply negb_true_iff in Hv1. apply negb_true_iff in Hs1.
    destruct (DecodeRune_valid c r EmptyString rn size Hd Hv1) as (_ & _ & Hhigh & Hascii).
    rewrite (IH _ Hhigh Hv Hs), andb_true_r.
    unfold not_char.
    destruct (Ascii.eqb_spec c " "%char) as [-> |].
    { destruct (Hascii eq_refl) as [-> _]. discriminate Hs1. }
    destruct (Ascii.eqb_spec c nl_char) as [-> |].
    { destruct (Hascii eq_refl) as [-> _]. discriminate Hs1. }
    reflexivity.
  - cbn [high_prefix] in Hk. apply andb_true_iff in Hk as [Hc Hk].
    rewrite (IH _ Hk Hv Hs), andb_true_r.
    unfold not_char.
    destruct (Ascii.eqb_spec c " "%char) as [-> |]; [discriminate Hc |].
    destruct (Ascii.eqb_spec c nl_char) as [-> |]; [discriminate Hc |].
    reflexivity.
Qed.

(** ** Signed notes *)

Lemma last_blank_line_cons (x y : ascii) (r : string) (pos : nat) (found : option nat) :
  note.last_blank_line (String x (String y r)) pos found
  = note.last_blank_line (String y r) (S pos)
      (if Ascii.eqb x nl_char && Ascii.eqb y nl_char then Some pos else found).
Proof. reflexivity. Qed.

(** No blank line in a line. *)
Lemma last_blank_line_line (b : string) (c : ascii) (pos : nat) (found : option nat) :
  str_all (not_char nl_char) b = true -> b <> EmptyString ->
  note.last_blank_line (String c (b +:+ nl)) pos found = found.
Proof.
  revert c pos. induction b as [| y b IH]; intros c pos Hb Hne; [congruence |].
  cbn [str_all] in Hb. apply andb_true_iff in Hb as [Hy Hb].
  unfold not_char in Hy. apply negb_true_iff in Hy.
  cbn [append]. rewrite last_blank_line_cons, Hy, andb_false_r.
  destruct b as [| z b].
  - change (EmptyString +:+ nl) with (String nl_char EmptyString).
    rewrite last_blank_line_cons, Hy. reflexivity.
  - apply IH; [exact Hb | discriminate].
Qed.

(** The last blank line of a text followed by a blank line and one line. *)
Lemma last_blank_line_app (a b : string) (pos : nat) (found : option nat) :
  str_all (not_char nl_char) b = true -> b <> EmptyString ->
  note.last_blank_line (a +:+ String nl_char (String nl_char (b +:+ nl))) pos found
  = Some (pos + String.length a)%nat.
Proof.
  intros Hb Hne. revert pos found. induction a as [| x a IH]; intros pos found.
  - cbn [append String.length]. rewrite last_blank_line_cons, Ascii.eqb_refl.
    cbn [andb]. rewrite last_blank_line_line by assumption. f_equal. lia.
  - cbn [append String.length].
    destruct a as [| y a].
    + cbn [append] in *. rewrite last_blank_line_cons.
      rewrite (IH (S pos)). f_equal. cbn [String.length]. lia.
    + cbn [append] in *. rewrite last_blank_line_cons.
      rewrite (IH (S pos)). f_equal. cbn [String.length]. lia.
Qed.

Lemma pack_bytes4 (A B C D : Z) :
  0 <= A < 256 -> 0 <= B < 256 -> 0 <= C < 256 -> 0 <= D < 256 ->
  Z.lor (Z.lor (Z.lor (Z.shiftl A 24) (Z.shiftl B 16)) (Z.shiftl C 8)) D
  = A * 16777216 + B * 65536 + C * 256 + D.
Proof.
  intros HA HB HC HD. rewrite !Z.shiftl_mul_pow2 by lia.
  rewrite (lor_mul_add A (B * 2 ^ 16) 24) by lia.
  replace (A * 2 ^ 24 + B * 2 ^ 16) with ((A * 256 + B) * 2 ^ 16) by lia.
  rewrite (lor_mul_add _ (C * 2 ^ 8) 16) by lia.
  replace ((A * 256 + B) * 2 ^ 16 + C * 2 ^ 8) with ((A * 65536 + B * 256 + C) * 2 ^ 8)
    by lia.
  rewrite lor_mul_add by lia. lia.
Qed.

Lemma byte_at (v shift : Z) :
  0 <= shift ->
  byte_val (byte_of (Z.land (Z.shiftr v shift) 255)) = (v / 2 ^ shift) mod 256.
Proof.
  intros Hs. rewrite Z.shiftr_div_pow2 by exact Hs.
  change 255 with (2 ^ 8 - 1). rewrite land_mod by lia.
  apply byte_val_of. apply Z.mod_pos_bound. lia.
Qed.

Lemma mod256_range (x : Z) : 0 <= x mod 256 < 256.
Proof. apply Z.mod_pos_bound. lia. Qed.

(** The key hash comes back from its four bytes. *)
Lemma Uint32_PutUint32 (v : Z) (rest : string) :
  0 <= v < 2 ^ 32 -> note.Uint32 (note.PutUint32 v +:+ rest) = v.
Proof.
  intros Hv. unfold note.PutUint32. cbn [append note.Uint32].
  replace (Z.land v 255) with (Z.land (Z.shiftr v 0) 255) by (rewrite Z.shiftr_0_r; reflexivity).
  rewrite !byte_at by lia.
  rewrite pack_bytes4 by apply mod256_range.
  change (2 ^ 24) with 16777216. change (2 ^ 16) with 65536. change (2 ^ 8) with 256.
  change (2 ^ 0) with 1. change (2 ^ 32) with 4294967296 in Hv.
  Z.div_mod_to_equations. lia.
Qed.

Lemma PutUint32_drop (v : Z) (rest : string) : str_drop 4 (note.PutUint32 v +:+ rest) = rest.
Proof. reflexivity. Qed.

Lemma PutUint32_length (v : Z) (rest : string) :
  String.length (note.PutUint32 v +:+ rest) = (4 + String.length rest)%nat.
Proof. reflexivity. Qed.

Lemma isValidName_bytes (name : string) :
  note.isValidName name = true ->
  name <> EmptyString /\
  str_all (not_char " "%char) name = true /\
  str_all (not_char nl_char) name = true.
Proof.
  unfold note.isValidName, utf8.ValidString. intros H.
  apply andb_true_iff in H as [H _]. apply andb_true_iff in H as [H Hsp].
  apply andb_true_iff in H as [Hne Hv].
  split.
  - intros ->. discriminate Hne.
  - pose proof (no_space_bytes name 0 eq_refl Hv Hsp) as Hb.
    split; (eapply str_all_impl; [| exact Hb]); intros c Hc;
      apply andb_true_iff in Hc; apply Hc.
Qed.

(** [Sign] with one signer on a note without signatures: the text, a blank
    line, the signature line. *)
Lemma Sign_one (s : note.Signer) (text sig : string) :
  ends_with_nl text = true ->
  note.isValidName (note.s_Name s) = true ->
  note.s_Sign s text = Ok sig ->
  note.Sign (note.mkNote text [] []) [s] = Ok (text +:+ nl +:+ signature_line s sig).
Proof.
  intros Hnl Hname Hsig. unfold note.Sign. cbn [note.Text note.Sigs note.UnverifiedSigs].
  rewrite Hnl. cbn [negb note.sign_lines]. rewrite Hname, Hsig.
  cbn [negb app note.old_lines]. unfold signature_line.
  reflexivity.
Qed.

Lemma plain_text (c : ascii) : is_plain c = true -> is_text c = true.
Proof. unfold is_text. intros ->. reflexivity. Qed.

Lemma EncodeToString_nonempty (a : ascii) (r : string) :
  String.eqb (base64.EncodeToString (String a r)) EmptyString = false.
Proof. destruct r as [| b [| c r]]; reflexivity. Qed.

(** [Open] with the verifier of the signer reads back the text that [Sign]
    signed. *)
Lemma Open_one (s : note.Signer) (v : note.Verifier) (body sig : string) :
  key_ok s ->
  note.v_Name v = note.s_Name s ->
  note.v_KeyHash v = note.s_KeyHash s ->
  sig <> EmptyString ->
  note.v_Verify v (body +:+ nl) sig = true ->
  utf8.all_runes note.rune_ok 0 (body +:+ nl) = true ->
  note.Open ((body +:+ nl) +:+ nl +:+ signature_line s sig) [v]
  = Ok (note.mkNote (body +:+ nl)
          [note.mkSignature (note.s_Name s) (note.s_KeyHash s)
             (base64.EncodeToString (note.PutUint32 (note.s_KeyHash s) +:+ sig))]
          []).
Proof.
  intros (Hname & Hctl & Hhash) Hvn Hvh Hsig Hver Hbody.
  destruct (isValidName_bytes _ Hname) as (Hne & Hnosp & Hnonl).
  set (name := note.s_Name s) in *. set (hash := note.s_KeyHash s) in *.
  set (b64 := base64.EncodeToString (note.PutUint32 hash +:+ sig)).
  assert (Hb64p : str_all is_plain b64 = true) by apply EncodeToString_plain.
  set (B := note.sigPrefix +:+ name +:+ " " +:+ b64).
  assert (Hline : signature_line s sig = B +:+ nl).
  { unfold signature_line, B. fold name hash b64. rewrite !str_app_assoc. reflexivity. }
  assert (HBnl : str_all (not_char nl_char) B = true).
  { unfold B. rewrite !str_all_app, Hnonl, (plain_no_nl _ Hb64p). reflexivity. }
  assert (HBne : B <> EmptyString) by (unfold B; discriminate).
  assert (Hmsg : (body +:+ nl) +:+ nl +:+ signature_line s sig
                 = body +:+ String nl_char (String nl_char (B +:+ nl))).
  { rewrite Hline, str_app_assoc. reflexivity. }
  unfold note.Open.
  (* every rune passes *)
  assert (Hrunes : utf8.all_runes note.rune_ok 0
                     ((body +:+ nl) +:+ nl +:+ signature_line s sig) = true).
  { rewrite (all_runes_app _ rune_ok_valid) by exact Hbody.
    rewrite (all_runes_app _ rune_ok_valid) by reflexivity.
    unfold signature_line. fold name hash b64.
    rewrite (all_runes_app _ rune_ok_valid) by reflexivity.
    rewrite (all_runes_app _ rune_ok_valid) by exact Hctl.
    rewrite (all_runes_app _ rune_ok_valid) by reflexivity.
    rewrite (all_runes_app _ rune_ok_valid)
      by (apply all_runes_text; eapply str_all_impl; [apply plain_text | exact Hb64p]).
    reflexivity. }
  rewrite Hrunes. cbn [negb].
  (* the blank line *)
  rewrite Hmsg, last_blank_line_app by assumption.
  cbn [Nat.add].
  assert (Htake : str_take (String.length body + 1)
                    (body +:+ String nl_char (String nl_char (B +:+ nl))) = body +:+ nl).
  { replace (String.length body + 1)%nat with (String.length (body +:+ nl))
      by (rewrite str_length_app; reflexivity).
    change (body +:+ String nl_char (String nl_char (B +:+ nl)))
      with (body +:+ nl +:+ String nl_char (B +:+ nl)).
    rewrite <- str_app_assoc. apply str_take_app. }
  assert (Hdrop : str_drop (String.length body + 2)
                    (body +:+ String nl_char (String nl_char (B +:+ nl))) = B +:+ nl).
  { replace (String.length body + 2)%nat
      with (String.length (body +:+ String nl_char (String nl_char EmptyString)))
      by (rewrite str_length_app; reflexivity).
    change (body +:+ String nl_char (String nl_char (B +:+ nl)))
      with (body +:+ (String nl_char (String nl_char EmptyString)) +:+ (B +:+ nl)).
    rewrite <- str_app_assoc. apply str_drop_app. }
  rewrite Htake, Hdrop.
  assert (HBnl_ne : String.eqb (B +:+ nl) EmptyString = false).
  { unfold B. reflexivity. }
  rewrite HBnl_ne, ends_with_nl_app. cbn [orb negb].
  (* the signature line *)
  assert (Hfuel : exists f, String.length (B +:+ nl) = S f).
  { unfold B. eexists. reflexivity. }
  destruct Hfuel as [f ->].
  assert (HBnl' : B +:+ nl <> EmptyString) by (unfold B; discriminate).
  clear Hline Hmsg Hrunes Htake Hdrop HBnl_ne.
  destruct (B +:+ nl) as [| c0 r0] eqn:HBeq; [congruence |].
  cbn [note.open_sigs]. rewrite <- HBeq. clear HBeq c0 r0 HBnl'.
  unfold nl at 1. rewrite cut_at_app by exact HBnl.
  assert (Hpre : HasPrefix B note.sigPrefix = true) by (unfold B; apply HasPrefix_app).
  rewrite Hpre. cbn [negb].
  assert (Hrest : str_drop (String.length note.sigPrefix) B = name +:+ " " +:+ b64).
  { unfold B. apply str_drop_app. }
  rewrite Hrest. unfold note.chop.
  change (name +:+ " " +:+ b64) with (name +:+ String " "%char b64).
  rewrite cut_at_app by exact Hnosp.
  unfold b64 at 1. rewrite DecodeString_EncodeToString.
  rewrite Hname. unfold b64 at 1. unfold note.PutUint32 at 1. cbn [append].
  rewrite EncodeToString_nonempty.
  rewrite PutUint32_length.
  assert (Hlen : (4 + String.length sig <? 5)%nat = false).
  { destruct sig; [congruence |]. reflexivity. }
  rewrite Hlen. cbn [negb orb].
  rewrite Uint32_PutUint32 by exact Hhash. rewrite PutUint32_drop.
  cbn [Nat.ltb Nat.leb].
  unfold note.find_verifier. cbn [List.filter].
  rewrite Hvn, Hvh. fold name hash. rewrite String.eqb_refl, Z.eqb_refl. cbn [andb existsb].
  rewrite Hver. cbn [negb app note.Sigs note.Text note.UnverifiedSigs].
  destruct f; reflexivity.
Qed.

(** ** The signer *)

Lemma FormatTree_body (t : Tree) :
  tlog.FormatTree t
  = ("go.sum database tree" +:+ nl +:+ strconv.FormatInt (TreeN t) +:+ nl +:+
     tlog.Hash_String (TreeHashOf t)) +:+ nl.
Proof. unfold tlog.FormatTree. rewrite !str_app_assoc. reflexivity. Qed.

Lemma FormatTree_text (t : Tree) :
  0 <= TreeN t -> str_all is_text (tlog.FormatTree t) = true.
Proof.
  intros HN. unfold tlog.FormatTree. rewrite !str_all_app.
  rewrite (str_all_impl _ _ _ plain_text (FormatInt_plain _ HN)).
  rewrite (str_all_impl _ _ _ plain_text (Hash_String_plain _)).
  reflexivity.
Qed.

(** Signing a tree head and verifying the note gives the tree head back,
    for a signature that the verifier accepts. *)
Lemma sign_verify_with (s : note.Signer) (v : note.Verifier) (t : Tree) (sig : string) :
  key_ok s ->
  note.v_Name v = note.s_Name s ->
  note.v_KeyHash v = note.s_KeyHash s ->
  note.s_Sign s (tlog.FormatTree t) = Ok sig ->
  sig <> EmptyString ->
  note.v_Verify v (tlog.FormatTree t) sig = true ->
  0 <= TreeN t < 2 ^ 63 ->
  signer.SignTreeHead s t = Ok (tlog.FormatTree t +:+ nl +:+ signature_line s sig) /\
  signer.VerifyTreeHead v (tlog.FormatTree t +:+ nl +:+ signature_line s sig) = Ok t.
Proof.
  intros Hkey Hvn Hvh Hsig Hne Hver HN. split.
  - unfold signer.SignTreeHead. apply Sign_one.
    + rewrite FormatTree_body. apply ends_with_nl_app.
    + apply Hkey.
    + exact Hsig.
  - unfold signer.VerifyTreeHead.
    pose proof (all_runes_text _ (FormatTree_text t ltac:(lia))) as Hrunes.
    rewrite FormatTree_body in Hver, Hrunes |- *.
    rewrite (Open_one s v _ sig Hkey Hvn Hvh Hne Hver Hrunes).
    cbn [note.Text]. rewrite <- FormatTree_body.
    rewrite ParseTree_FormatTree by exact HN. reflexivity.
Qed.

(** C5: for a signer with a well-formed key and its verifier, and a tree
    head whose size is not negative, [SignTreeHead] returns a signed note
    and [VerifyTreeHead] returns the tree head from it. *)
Theorem VerifyTreeHead_SignTreeHead (s : note.Signer) (v : note.Verifier) (t : Tree) :
  key_ok s -> matches s v -> 0 <= TreeN t < 2 ^ 63 ->
  exists signed : string,
    signer.SignTreeHead s t = Ok signed /\
    signer.VerifyTreeHead v signed = Ok t.
Proof.
  intros Hkey (Hvn & Hvh & Hsign) HN.
  destruct (Hsign (tlog.FormatTree t)) as (sig & Hsig & Hne & Hver).
  exists (tlog.FormatTree t +:+ nl +:+ signature_line s sig).
  apply sign_verify_with; assumption.
Qed.

Lemma example_key_ok : key_ok example_signer.
Proof. repeat split; try (vm_compute; reflexivity); vm_compute; discriminate. Qed.

Lemma example_matches : matches example_signer example_verifier.
Proof.
  split; [reflexivity |]. split; [reflexivity |].
  intros msg. exists (example_signature msg). split; [reflexivity |]. split.
  - unfold example_signature. pose proof (hlen (sha256.Sum256 msg)) as Hl.
    destruct (hbytes (sha256.Sum256 msg)); [discriminate Hl | discriminate].
  - cbn [example_verifier note.v_Verify]. apply String.eqb_refl.
Qed.

(** The tree head of the signer's test, under the example key. *)
Lemma VerifyTreeHead_SignTreeHead_witness :
  exists signed : string,
    signer.SignTreeHead example_signer (mkTree 42 zeroHash) = Ok signed /\
    signer.VerifyTreeHead example_verifier signed = Ok (mkTree 42 zeroHash).
Proof.
  apply (VerifyTreeHead_SignTreeHead example_signer example_verifier (mkTree 42 zeroHash)).
  - exact example_key_ok.
  - exact example_matches.
  - cbn [TreeN]. lia.
Defined.

Lemma ParseTree_error (text : string) (e : error) :
  tlog.ParseTree text = Err e -> e = tlog.errMalformedTree.
Proof.
  unfold tlog.ParseTree.
  destruct (_ || _); [congruence |].
  destruct (SplitN_nl text 4) as [| l0 [| l1 [| l2 ls]]]; try congruence.
  destruct (strconv.ParseInt l1) as [n |]; [| congruence].
  destruct (_ || _); [congruence |].
  destruct (base64.DecodeString l2) as [h |]; [| congruence].
  destruct (tlog.hash_of_bytes h); congruence.
Qed.

Lemma find_verifier_error (known : list note.Verifier) (name : string) (hash : Z)
    (e : error) :
  note.find_verifier known name hash = Err e -> exists m, e = ErrMsg m.
Proof.
  unfold note.find_verifier.
  destruct (List.filter _ known) as [| v [| v' l]]; intros H; inversion H; eexists;
    reflexivity.
Qed.

(** The errors of [Open] are its own: none is a sentinel of the signer
    package. *)
Lemma open_sigs_error (fuel : nat) (known : list note.Verifier) (text sigs : string)
    (seen : list (string * Z)) (seenU : list string) (numSig : nat) (n : note.Note)
    (e : error) :
  note.open_sigs fuel known text sigs seen seenU numSig n = Err e ->
  exists m, e = ErrMsg m.
Proof.
  revert sigs seen seenU numSig n.
  induction fuel as [| f IH]; intros sigs seen seenU numSig n; cbn [note.open_sigs].
  - destruct sigs; intros H; inversion H. eexists; reflexivity.
  - destruct sigs as [| c r]; [discriminate |].
    destruct (cut_at nl_char (String c r)) as [[line0 sigs1] |];
      [| intros H; inversion H; eexists; reflexivity].
    destruct (negb (HasPrefix line0 note.sigPrefix));
      [intros H; inversion H; eexists; reflexivity |].
    destruct (note.chop _) as [name b64].
    destruct (base64.DecodeString b64) as [sig |];
      [| intros H; inversion H; eexists; reflexivity].
    destruct (_ || _); [intros H; inversion H; eexists; reflexivity |].
    destruct (_ <? _)%nat; [intros H; inversion H; eexists; reflexivity |].
    destruct (note.find_verifier known name (note.Uint32 sig)) as [v | e0] eqn:Hfind.
    + destruct (existsb _ seen); [apply IH |].
      destruct (negb _); [intros H; inversion H; eexists; reflexivity | apply IH].
    + destruct (note.error_is_unknown e0).
      * destruct (existsb _ seenU); apply IH.
      * intros [= <-]. eapply find_verifier_error. exact Hfind.
Qed.

Lemma Open_error (msg : string) (known : list note.Verifier) (e : error) :
  note.Open msg known = Err e -> exists m, e = ErrMsg m.
Proof.
  unfold note.Open.
  destruct (negb _); [intros H; inversion H; eexists; reflexivity |].
  destruct (note.last_blank_line msg 0 None) as [split |];
    [| intros H; inversion H; eexists; reflexivity].
  destruct (_ || _); [intros H; inversion H; eexists; reflexivity |].
  destruct (note.open_sigs _ _ _ _ _ _ _ _) as [n | e0] eqn:Hsigs.
  - destruct (note.Sigs n); intros H; inversion H. eexists; reflexivity.
  - intros [= <-]. eapply open_sigs_error. exact Hsigs.
Qed.

(** C6, as the code has it: [VerifyTreeHead] reports [ErrVerifyFailed], and
    not [ErrInvalidNote], for every failure of [note.Open] (a signature that
    does not verify, no signature of the verifier, a malformed note); it
    reports [ErrInvalidNote], and not [ErrVerifyFailed], when the note
    opens and its text does not parse as a tree; otherwise it returns the
    parsed tree. *)
Theorem VerifyTreeHead_errors (v : note.Verifier) (signed : string) :
  match note.Open signed [v] with
  | Err e =>
      signer.VerifyTreeHead v signed = Err (ErrWrap2 ErrVerifyFailed e) /\
      errors_Is (ErrWrap2 ErrVerifyFailed e) ErrVerifyFailed = true /\
      errors_Is (ErrWrap2 ErrVerifyFailed e) ErrInvalidNote = false
  | Ok n =>
      match tlog.ParseTree (note.Text n) with
      | Err e =>
          signer.VerifyTreeHead v signed = Err (ErrWrap2 ErrInvalidNote e) /\
          errors_Is (ErrWrap2 ErrInvalidNote e) ErrInvalidNote = true /\
          errors_Is (ErrWrap2 ErrInvalidNote e) ErrVerifyFailed = false
      | Ok t => signer.VerifyTreeHead v signed = Ok t
      end
  end.
Proof.
  unfold signer.VerifyTreeHead.
  destruct (note.Open signed [v]) as [n | e] eqn:Hopen.
  - destruct (tlog.ParseTree (note.Text n)) as [t | e] eqn:Hparse; [reflexivity |].
    apply ParseTree_error in Hparse. subst e. repeat split.
  - apply Open_error in Hopen as [m ->]. repeat split.
Qed.

(** C6 as stated fails: an input that is not a signed note at all is
    reported as [ErrVerifyFailed], not as [ErrInvalidNote]. *)
Lemma VerifyTreeHead_malformed_note :
  note.Open "not a valid note" [example_verifier] = Err note.errMalformedNote /\
  signer.VerifyTreeHead example_verifier "not a valid note"
    = Err (ErrWrap2 ErrVerifyFailed note.errMalformedNote) /\
  errors_Is (ErrWrap2 ErrVerifyFailed note.errMalformedNote) ErrInvalidNote = false.
Proof. repeat split. Qed.

(** The tests of the signer on the model: a note signed under another key
    and a note with a flipped byte are both reported as
    [ErrVerifyFailed]. *)
Example VerifyTreeHead_wrong_key :
  match signer.SignTreeHead example_signer (mkTree 1 zeroHash) with
  | Ok signed =>
      signer.VerifyTreeHead other_verifier signed
      = Err (ErrWrap2 ErrVerifyFailed note.errUnverifiedNote)
  | Err _ => False
  end.
Proof. vm_compute. reflexivity. Qed.

Example VerifyTreeHead_tampered :
  match signer.SignTreeHead example_signer (mkTree 42 zeroHash) with
  | Ok signed =>
      signer.VerifyTreeHead example_verifier (flip_byte 10 signed)
      = Err (ErrWrap2 ErrVerifyFailed note.errMalformedNote)
  | Err _ => False
  end.
Proof. vm_compute. reflexivity. Qed.

(** ** The root hash *)

Lemma shl_one (l : nat) :
  (l <= 62)%nat -> wrap64 (Z.shiftl 1 (Z.of_nat l)) = 2 ^ Z.of_nat l.
Proof.
  intros Hl. rewrite Z.shiftl_1_l. apply wrap64_id. unfold int64_ok.
  assert (0 < 2 ^ Z.of_nat l) by (apply Z.pow_pos_nonneg; lia).
  assert (2 ^ Z.of_nat l <= 2 ^ 62) by (apply Z.pow_le_mono_r; lia).
  lia.
Qed.

(** [maxpow2] ends on the largest power of two below [n]. *)
Lemma maxpow2_loop_spec (fuel l : nat) (n : Z) :
  n <= 2 ^ 62 -> (l <= 61)%nat -> (62 <= fuel + l)%nat ->
  exists l' : nat,
    tlog.maxpow2_loop fuel l n = Some l' /\
    (l <= l' <= 61)%nat /\
    n <= 2 ^ Z.of_nat (l' + 1) /\
    (l' = l \/ 2 ^ Z.of_nat l' < n).
Proof.
  revert l. induction fuel as [| f IH]; intros l Hn Hl Hfuel; [lia |].
  cbn [tlog.maxpow2_loop]. rewrite shl_one by lia.
  destruct (2 ^ Z.of_nat (l + 1) <? n) eqn:Hlt.
  - apply Z.ltb_lt in Hlt.
    assert (Hl' : (S l <= 61)%nat).
    { destruct (Nat.le_gt_cases (S l) 61) as [H | H]; [exact H |].
      assert (l = 61%nat) by lia. subst l. change (2 ^ Z.of_nat (61 + 1)) with (2 ^ 62) in Hlt.
      lia. }
    destruct (IH (S l) Hn Hl' ltac:(lia)) as (l' & Hloop & Hrange & Hup & Hlow).
    exists l'. split; [exact Hloop |]. split; [lia |]. split; [exact Hup |].
    right. destruct Hlow as [-> | Hlow]; [| exact Hlow].
    replace (S l) with (l + 1)%nat by lia. exact Hlt.
  - apply Z.ltb_ge in Hlt. exists l. repeat split; auto; lia.
Qed.

Lemma maxpow2_spec (n : Z) :
  2 <= n <= 2 ^ 62 ->
  exists l : nat,
    tlog.maxpow2 n = Some (2 ^ Z.of_nat l, l) /\
    (l <= 61)%nat /\ 2 ^ Z.of_nat l < n <= 2 ^ Z.of_nat (l + 1).
Proof.
  intros Hn. unfold tlog.maxpow2.
  destruct (maxpow2_loop_spec 66 0 n ltac:(lia) ltac:(lia) ltac:(lia))
    as (l & -> & Hrange & Hup & Hlow).
  exists l. rewrite shl_one by lia. split; [reflexivity |]. split; [lia |].
  split; [| exact Hup].
  destruct Hlow as [-> | Hlow]; [cbn; lia | exact Hlow].
Qed.

Lemma pow2_divide (a b : Z) : 0 <= a <= b -> (2 ^ a | 2 ^ b).
Proof.
  intros Hab. exists (2 ^ (b - a)). rewrite <- Z.pow_add_r by lia. f_equal. lia.
Qed.

(** The two loops over the right edge of the tree: [subTreeIndex] appends
    one index for each tree that [subTreeHash] counts, and neither
    panics. *)
Lemma right_edge_loops (fuel : nat) (lo hi : Z) (need : list Z) (c : nat) :
  0 <= lo <= hi -> hi < 2 ^ 62 -> hi - lo < 2 ^ Z.of_nat fuel ->
  (forall j : Z, 0 <= j -> 2 ^ j <= hi - lo < 2 ^ (j + 1) -> (2 ^ (j + 1) | lo)) ->
  exists more : list Z,
    tlog.subTreeIndex fuel lo hi need = Some (need ++ more) /\
    tlog.count_trees fuel lo hi c = Some (c + length more)%nat /\
    (lo < hi -> more <> []).
Proof.
  revert lo need c. induction fuel as [| f IH]; intros lo need c Hlo Hhi Hfuel Hinv.
  - change (2 ^ Z.of_nat 0) with 1 in Hfuel.
    assert (Heq : (lo <? hi) = false) by lia.
    exists []. cbn [tlog.subTreeIndex tlog.count_trees]. rewrite Heq, app_nil_r.
    repeat split; [f_equal; cbn; lia | lia].
  - cbn [tlog.subTreeIndex tlog.count_trees].
    destruct (lo <? hi) eqn:Hlt.
    2: { exists []. rewrite app_nil_r. repeat split; [f_equal; cbn; lia | lia]. }
    apply Z.ltb_lt in Hlt.
    assert (Hr : sub64 hi lo = hi - lo) by (apply wrap64_id; unfold int64_ok; lia).
    assert (Hn : add64 (sub64 hi lo) 1 = hi - lo + 1).
    { rewrite Hr. apply wrap64_id. unfold int64_ok. lia. }
    rewrite Hn.
    destruct (maxpow2_spec (hi - lo + 1) ltac:(lia)) as (l & -> & Hl & Hlow & Hup).
    assert (Hpos : 0 < 2 ^ Z.of_nat l) by (apply Z.pow_pos_nonneg; lia).
    assert (Hk1 : sub64 (2 ^ Z.of_nat l) 1 = 2 ^ Z.of_nat l - 1).
    { apply wrap64_id. unfold int64_ok.
      assert (2 ^ Z.of_nat l <= 2 ^ 62) by (apply Z.pow_le_mono_r; lia). lia. }
    rewrite Hk1, land_mod by lia.
    replace (Z.of_nat (l + 1)) with (Z.of_nat l + 1) in Hup by lia.
    assert (Hp2 : 2 ^ (Z.of_nat l + 1) = 2 * 2 ^ Z.of_nat l)
      by (rewrite Z.pow_add_r by lia; lia).
    assert (Hdiv : (2 ^ (Z.of_nat l + 1) | lo)) by (apply Hinv; lia).
    assert (Hmod : lo mod 2 ^ Z.of_nat l = 0).
    { apply Z.mod_divide; [lia |].
      eapply Z.divide_trans; [| exact Hdiv]. apply pow2_divide. lia. }
    rewrite Hmod. cbn [Z.eqb negb orb].
    assert (Hle : (hi <=? lo) = false) by lia. rewrite Hle.
    assert (Hadd : add64 lo (2 ^ Z.of_nat l) = lo + 2 ^ Z.of_nat l).
    { apply wrap64_id. unfold int64_ok. lia. }
    rewrite Hadd.
    assert (Hlf : hi - (lo + 2 ^ Z.of_nat l) < 2 ^ Z.of_nat f).
    { assert (Hlf' : Z.of_nat l < Z.of_nat (S f)).
      { apply (Z.pow_lt_mono_r_iff 2); lia. }
      assert (2 ^ Z.of_nat l <= 2 ^ Z.of_nat f) by (apply Z.pow_le_mono_r; lia).
      lia. }
    destruct (IH (lo + 2 ^ Z.of_nat l)
                (need ++ [tlog.StoredHashIndex l (Z.shiftr lo (Z.of_nat l))]) (S c))
      as (more & Hidx & Hcnt & _); [lia | exact Hhi | exact Hlf | |].
    { intros j Hj Hjr.
      assert (Hjl : j + 1 <= Z.of_nat l).
      { assert (j < Z.of_nat l); [| lia].
        apply (Z.pow_lt_mono_r_iff 2); lia. }
      apply Z.divide_add_r.
      - eapply Z.divide_trans; [| exact Hdiv]. apply pow2_divide. lia.
      - apply pow2_divide. lia. }
    exists (tlog.StoredHashIndex l (Z.shiftr lo (Z.of_nat l)) :: more).
    rewrite Hidx, Hcnt, <- app_assoc. cbn [app length].
    repeat split; [f_equal; lia | discriminate].
Qed.

Section RootHash.
Context {sha : Sha256}.
Variable up : upstream.

(** On the in-memory store [tlog.TreeHash] reads the right edge and
    returns a hash. *)
Lemma tlog_TreeHash_mem (st : memStore) (n : Z) :
  0 < n < 2 ^ 62 ->
  exists (root : Hash) (indexes : list Z),
    run (mem_handler no_faults up) (tlog.TreeHash n) st
    = Some (Ok root, st, [Ev (OpReadHashes indexes) (Ok (mem_ReadHashes st indexes))]).
Proof.
  intros Hn. unfold tlog.TreeHash.
  destruct (n =? 0) eqn:H0; [lia |].
  destruct (right_edge_loops 64 0 n [] 0) as (more & Hidx & Hcnt & Hne);
    [lia | lia | change (2 ^ Z.of_nat 64) with (2 ^ 64); lia | |].
  { intros j _ _. apply Z.divide_0_r. }
  cbn [app Nat.add] in Hidx, Hcnt. rewrite Hidx.
  cbn [bind call run]. cbv [mem_handler no_faults mem_answer].
  assert (Hlen : length (mem_ReadHashes st more) = length more).
  { unfold mem_ReadHashes. apply length_map. }
  rewrite Hlen, Nat.eqb_refl. cbn [negb].
  unfold tlog.subTreeHash. rewrite Hcnt, Hlen, Nat.ltb_irrefl.
  rewrite firstn_all2 by lia. rewrite skipn_all2 by lia.
  specialize (Hne ltac:(lia)).
  destruct (rev (mem_ReadHashes st more)) as [| h0 hs] eqn:Hrev.
  { apply (f_equal (@length Hash)) in Hrev. rewrite length_rev, Hlen in Hrev.
    destruct more; [congruence | discriminate]. }
  cbn [tlog.fold_right_edge run]. eexists _, more. reflexivity.
Qed.

(** [tree.TreeHash] on the in-memory store: the zero hash for the empty
    tree, a hash of the right edge otherwise. *)
Lemma tree_TreeHash_mem (st : memStore) :
  0 <= treeSize st < 2 ^ 62 ->
  exists (root : Hash) (tr : list event),
    run (mem_handler no_faults up) tree.TreeHash st = Some (Ok root, st, tr) /\
    (treeSize st = 0 -> root = zeroHash).
Proof.
  intros HN. unfold tree.TreeHash. cbn [bind call run].
  change (mem_handler no_faults up _ OpTreeSize st) with (Some (Ok (treeSize st), st)).
  cbv beta iota.
  destruct (treeSize st =? 0) eqn:H0.
  - cbn [run]. eexists _, _. split; [reflexivity | reflexivity].
  - rewrite run_bind.
    destruct (tlog_TreeHash_mem st (treeSize st) ltac:(lia)) as (root & indexes & Hrun).
    rewrite Hrun. cbn [run].
    eexists _, _. split; [reflexivity | lia].
Qed.

End RootHash.

(** C8: on the in-memory store, with a tree size that is a size (not
    negative, below 2^62), [Signed] returns a signed note, and verifying
    it gives the tree size of the store with the hash that [tree.TreeHash]
    computes from the stored hashes, which for the empty tree is the zero
    hash; the store is left as it was. *)
Theorem Signed_tree_head (s : note.Signer) (v : note.Verifier) (up : upstream)
    (st : memStore) :
  key_ok s -> matches s v -> 0 <= treeSize st < 2 ^ 62 ->
  exists (signed : string) (root : Hash) (tr tr' : list event),
    run (mem_handler no_faults up) (sumdb.Signed s) st = Some (Ok signed, st, tr) /\
    run (mem_handler no_faults up) tree.TreeHash st = Some (Ok root, st, tr') /\
    signer.VerifyTreeHead v signed = Ok (mkTree (treeSize st) root) /\
    (treeSize st = 0 -> root = zeroHash /\ hbytes root = repeat_char zero 32).
Proof.
  intros Hkey Hmatch HN.
  destruct (tree_TreeHash_mem up st HN) as (root & tr' & Hhash & Hzero).
  destruct Hmatch as (Hvn & Hvh & Hsigs).
  destruct (Hsigs (tlog.FormatTree (mkTree (treeSize st) root)))
    as (sig & Hsig & Hne & Hver).
  destruct (sign_verify_with s v (mkTree (treeSize st) root) sig Hkey Hvn Hvh Hsig Hne Hver)
    as (Hsign & Hverify); [cbn [TreeN]; lia |].
  eexists _, root. eexists _, tr'.
  split; [| split; [exact Hhash | split; [exact Hverify |]]].
  - unfold sumdb.Signed. cbn [bind call run].
    change (mem_handler no_faults up _ OpTreeSize st) with (Some (Ok (treeSize st), st)).
    cbv beta iota.
    rewrite run_bind, Hhash. cbn [run]. rewrite Hsign. cbn [run]. reflexivity.
  - intros H0. rewrite (Hzero H0). split; reflexivity.
Qed.

(** The signed head of the empty tree. *)
Lemma Signed_tree_head_witness :
  exists (signed : string) (root : Hash) (tr tr' : list event),
    run (mem_handler no_faults example_upstream) (sumdb.Signed example_signer) emptyStore
      = Some (Ok signed, emptyStore, tr) /\
    run (mem_handler no_faults example_upstream) tree.TreeHash emptyStore
      = Some (Ok root, emptyStore, tr') /\
    signer.VerifyTreeHead example_verifier signed = Ok (mkTree 0 root) /\
    (0 = 0 -> root = zeroHash /\ hbytes root = repeat_char zero 32).
Proof.
  apply (Signed_tree_head example_signer example_verifier example_upstream emptyStore).
  - exact example_key_ok.
  - exact example_matches.
  - cbn [treeSize emptyStore]. lia.
Defined.

(** ** The layout of the stored hashes *)

Lemma bits_ind (P : Z -> Prop) :
  P 0 ->
  (forall m : Z, 0 < m -> P m -> P (2 * m)) ->
  (forall m : Z, 0 <= m -> P m -> P (2 * m + 1)) ->
  forall n : Z, 0 <= n -> P n.
Proof.
  intros H0 Heven Hodd n Hn. revert n Hn.
  apply (Zlt_0_ind P).
  intros n IH Hn.
  destruct (Z.eq_dec n 0) as [-> | Hne]; [exact H0 |].
  pose proof (Z.div_mod n 2 ltac:(lia)) as Hdm.
  pose proof (Z.mod_pos_bound n 2 ltac:(lia)) as Hb.
  destruct (Z.eq_dec (n mod 2) 0) as [Hz | Hnz].
  - replace n with (2 * (n / 2)) by lia. apply Heven; [lia |]. apply IH; lia.
  - replace n with (2 * (n / 2) + 1) by lia. apply Hodd; [lia |]. apply IH; lia.
Qed.

Lemma trailing_ones_aux_fuel (f : nat) (x : Z) :
  0 <= x < 2 ^ Z.of_nat f ->
  trailing_ones_aux (S f) x = trailing_ones_aux f x.
Proof.
  revert x. induction f as [| f IH]; intros x Hx.
  - change (2 ^ Z.of_nat 0) with 1 in Hx. assert (x = 0) by lia. subst x. reflexivity.
  - cbn [trailing_ones_aux]. destruct (Z.odd x); [| reflexivity].
    f_equal. apply IH. rewrite Z.div2_div.
    rewrite Nat2Z.inj_succ, Z.pow_succ_r in Hx by lia.
    split; [apply Z.div_pos; lia | apply Z.div_lt_upper_bound; lia].
Qed.

Lemma trailing_ones_even (m : Z) : trailing_ones (2 * m) = 0%nat.
Proof.
  unfold trailing_ones. cbn [trailing_ones_aux].
  rewrite Z.odd_mul. reflexivity.
Qed.

Lemma trailing_ones_odd (m : Z) :
  0 <= m < 2 ^ 63 -> trailing_ones (2 * m + 1) = S (trailing_ones m).
Proof.
  intros Hm. unfold trailing_ones.
  change (trailing_ones_aux 64 (2 * m + 1))
    with (if Z.odd (2 * m + 1) then S (trailing_ones_aux 63 (Z.div2 (2 * m + 1))) else O).
  rewrite Z.odd_add, Z.odd_mul. cbn [Z.odd orb andb xorb negb].
  f_equal. rewrite Z.div2_div.
  replace ((2 * m + 1) / 2) with m by (apply Z.div_unique with 1; lia).
  symmetry. apply (trailing_ones_aux_fuel 63). change (Z.of_nat 63) with 63. lia.
Qed.

Section Layout.
Context {sha : Sha256}.

Lemma sum_halves_acc (f : nat) (n i : Z) :
  0 <= n -> 0 <= i -> i + 2 * n < 2 ^ 63 ->
  tlog.sum_halves f n i = i + tlog.sum_halves f n 0.
Proof.
  revert n i. induction f as [| f IH]; intros n i Hn Hi Hsum; cbn [tlog.sum_halves]; [lia |].
  destruct (0 <? n) eqn:Hpos; [| lia].
  apply Z.ltb_lt in Hpos.
  rewrite Z.shiftr_div_pow2 by lia. change (2 ^ 1) with 2.
  assert (Hhalf : 0 <= n / 2 /\ 2 * (n / 2) <= n).
  { pose proof (Z.div_mod n 2 ltac:(lia)). pose proof (Z.mod_pos_bound n 2 ltac:(lia)).
    split; [apply Z.div_pos; lia | lia]. }
  unfold add64. rewrite !wrap64_id by (unfold int64_ok; lia).
  rewrite (IH (n / 2) (i + n)) by lia.
  rewrite (IH (n / 2) (0 + n)) by lia. lia.
Qed.

Lemma sum_halves_fuel (f : nat) (n i : Z) :
  0 <= n < 2 ^ Z.of_nat f ->
  tlog.sum_halves (S f) n i = tlog.sum_halves f n i.
Proof.
  revert n i. induction f as [| f IH]; intros n i Hn.
  - change (2 ^ Z.of_nat 0) with 1 in Hn. assert (n = 0) by lia. subst n. reflexivity.
  - cbn [tlog.sum_halves]. destruct (0 <? n) eqn:Hpos; [| reflexivity].
    apply IH. rewrite Z.shiftr_div_pow2 by lia. change (2 ^ 1) with 2.
    rewrite Nat2Z.inj_succ, Z.pow_succ_r in Hn by lia.
    split; [apply Z.div_pos; lia | apply Z.div_lt_upper_bound; lia].
Qed.

Lemma leaf_index_0 : tlog.StoredHashIndex 0 0 = 0.
Proof. reflexivity. Qed.

Lemma half_bounds (n : Z) : 0 <= n -> 0 <= n / 2 /\ 2 * (n / 2) <= n /\ n <= 2 * (n / 2) + 1.
Proof.
  intros Hn. pose proof (Z.div_mod n 2 ltac:(lia)). pose proof (Z.mod_pos_bound n 2 ltac:(lia)).
  repeat split; [apply Z.div_pos; lia | lia | lia].
Qed.

Lemma sum_halves_le (f : nat) (n : Z) :
  0 <= n < 2 ^ 62 -> 0 <= tlog.sum_halves f n 0 <= 2 * n.
Proof.
  revert n. induction f as [| f IH]; intros n Hn; cbn [tlog.sum_halves]; [lia |].
  destruct (0 <? n) eqn:Hpos; [| lia].
  rewrite Z.shiftr_div_pow2 by lia. change (2 ^ 1) with 2.
  pose proof (half_bounds n ltac:(lia)) as Hh.
  unfold add64. rewrite wrap64_id by (unfold int64_ok; lia).
  rewrite sum_halves_acc by lia.
  specialize (IH (n / 2) ltac:(lia)). lia.
Qed.

(** The index of a leaf: [n + n/2 + n/4 + ...]. *)
Lemma leaf_index_eq (n : Z) :
  0 <= n < 2 ^ 62 -> tlog.StoredHashIndex 0 n = tlog.sum_halves 64 n 0.
Proof.
  intros Hn. unfold tlog.StoredHashIndex. cbn [tlog.level_down Z.of_nat].
  pose proof (sum_halves_le 64 n Hn).
  unfold add64. rewrite wrap64_id by (unfold int64_ok; lia). lia.
Qed.

Lemma leaf_index_step (n : Z) :
  0 < n < 2 ^ 62 ->
  tlog.StoredHashIndex 0 n = n + tlog.StoredHashIndex 0 (n / 2).
Proof.
  intros Hn. pose proof (half_bounds n ltac:(lia)) as Hh.
  rewrite !leaf_index_eq by lia.
  change (tlog.sum_halves 64 n 0)
    with (if 0 <? n then tlog.sum_halves 63 (Z.shiftr n 1) (add64 0 n) else 0).
  destruct (0 <? n) eqn:Hpos; [| lia].
  rewrite Z.shiftr_div_pow2 by lia. change (2 ^ 1) with 2.
  unfold add64. rewrite wrap64_id by (unfold int64_ok; lia).
  rewrite sum_halves_acc by lia.
  rewrite (sum_halves_fuel 63) by (change (Z.of_nat 63) with 63; lia). lia.
Qed.

Lemma leaf_index_bound (n : Z) :
  0 <= n < 2 ^ 62 -> n <= tlog.StoredHashIndex 0 n <= 2 * n.
Proof.
  revert n. 
  assert (H : forall n, 0 <= n -> n < 2 ^ 62 -> n <= tlog.StoredHashIndex 0 n <= 2 * n).
  { apply (bits_ind (fun n => n < 2 ^ 62 -> n <= tlog.StoredHashIndex 0 n <= 2 * n)).
    - intros _. rewrite leaf_index_0. lia.
    - intros m Hm IH Hlt. rewrite leaf_index_step by lia.
      replace (2 * m / 2) with m by (apply Z.div_unique with 0; lia).
      specialize (IH ltac:(lia)). lia.
    - intros m Hm IH Hlt. rewrite leaf_index_step by lia.
      replace ((2 * m + 1) / 2) with m by (apply Z.div_unique with 1; lia).
      specialize (IH ltac:(lia)). lia. }
  intros n Hn. apply H; lia.
Qed.

(** Going from a leaf to the next skips one index for each trailing 1-bit
    of the leaf. *)
Lemma leaf_index_succ (n : Z) :
  0 <= n -> n + 1 < 2 ^ 62 ->
  tlog.StoredHashIndex 0 (n + 1)
  = tlog.StoredHashIndex 0 n + 1 + Z.of_nat (trailing_ones n).
Proof.
  intros Hn. revert n Hn.
  apply (bits_ind (fun n => n + 1 < 2 ^ 62 ->
    tlog.StoredHashIndex 0 (n + 1)
    = tlog.StoredHashIndex 0 n + 1 + Z.of_nat (trailing_ones n))).
  - intros _. reflexivity.
  - intros m Hm IH Hlt.
    rewrite (leaf_index_step (2 * m + 1)), (leaf_index_step (2 * m)) by lia.
    replace (2 * m / 2) with m by (apply Z.div_unique with 0; lia).
    replace ((2 * m + 1) / 2) with m by (apply Z.div_unique with 1; lia).
    rewrite trailing_ones_even. lia.
  - intros m Hm IH Hlt.
    rewrite (leaf_index_step (2 * m + 1 + 1)) by lia.
    replace ((2 * m + 1 + 1) / 2) with (m + 1) by (apply Z.div_unique with 0; lia).
    rewrite IH by lia.
    rewrite trailing_ones_odd by lia.
    destruct (Z.eq_dec m 0) as [-> | Hne].
    + reflexivity.
    + rewrite (leaf_index_step (2 * m + 1)) by lia.
      replace ((2 * m + 1) / 2) with m by (apply Z.div_unique with 1; lia).
      lia.
Qed.

Lemma leaf_index_ones (n : Z) :
  0 <= n < 2 ^ 62 ->
  tlog.StoredHashIndex 0 n + Z.of_nat (trailing_ones n) <= 2 * n.
Proof.
  intros [Hn Hlt]. revert n Hn Hlt.
  apply (bits_ind (fun n => n < 2 ^ 62 ->
    tlog.StoredHashIndex 0 n + Z.of_nat (trailing_ones n) <= 2 * n)).
  - intros _. rewrite leaf_index_0. cbn. lia.
  - intros m Hm IH Hlt. rewrite trailing_ones_even.
    pose proof (leaf_index_bound (2 * m) ltac:(lia)). lia.
  - intros m Hm IH Hlt. rewrite trailing_ones_odd by lia.
    rewrite leaf_index_step by lia.
    replace ((2 * m + 1) / 2) with m by (apply Z.div_unique with 1; lia).
    specialize (IH ltac:(lia)). lia.
Qed.

Lemma leaf_index_mono (n1 n2 : Z) :
  0 <= n1 < n2 -> n2 < 2 ^ 62 ->
  tlog.StoredHashIndex 0 n1 + Z.of_nat (trailing_ones n1) < tlog.StoredHashIndex 0 n2.
Proof.
  intros Hn1 Hn2.
  assert (H : forall d : nat, forall n2, n2 = n1 + 1 + Z.of_nat d -> n2 < 2 ^ 62 ->
    tlog.StoredHashIndex 0 n1 + Z.of_nat (trailing_ones n1) < tlog.StoredHashIndex 0 n2).
  { induction d as [| d IH]; intros n Hn Hlt.
    - replace n with (n1 + 1) in * by lia. rewrite leaf_index_succ by lia. lia.
    - replace n with ((n - 1) + 1) by lia.
      rewrite leaf_index_succ by lia.
      specialize (IH (n - 1) ltac:(lia) ltac:(lia)). lia. }
  apply (H (Z.to_nat (n2 - n1 - 1))); lia.
Qed.

Lemma level_down_eq (L : nat) (k : Z) :
  0 <= k -> (k + 1) * 2 ^ Z.of_nat L <= 2 ^ 62 ->
  tlog.level_down L k = (k + 1) * 2 ^ Z.of_nat L - 1.
Proof.
  revert k. induction L as [| L IH]; intros k Hk Hle.
  - cbn [tlog.level_down]. change (2 ^ Z.of_nat 0) with 1. lia.
  - cbn [tlog.level_down].
    rewrite Nat2Z.inj_succ, Z.pow_succ_r in * by lia.
    assert (Hpos : 0 < 2 ^ Z.of_nat L) by (apply Z.pow_pos_nonneg; lia).
    assert (Hk2 : 2 * k + 2 <= 2 ^ 62) by nia.
    unfold add64, mul64.
    rewrite (wrap64_id (2 * k)) by (unfold int64_ok; lia).
    rewrite (wrap64_id (2 * k + 1)) by (unfold int64_ok; lia).
    rewrite IH by lia. lia.
Qed.

(** The 1-bits at the end of [id]: [id + 1] is a multiple of [2^i] exactly
    for [i] up to their number. *)
Lemma trailing_ones_shift (i : nat) (id : Z) :
  0 <= id < 2 ^ 63 -> (i <= trailing_ones id)%nat ->
  (Z.shiftr id (Z.of_nat i) + 1) * 2 ^ Z.of_nat i = id + 1.
Proof.
  revert id. induction i as [| i IH]; intros id Hid Hi.
  - rewrite Z.shiftr_0_r. change (2 ^ Z.of_nat 0) with 1. lia.
  - pose proof (Z.div_mod id 2 ltac:(lia)) as Hdm.
    pose proof (Z.mod_pos_bound id 2 ltac:(lia)) as Hb.
    destruct (Z.eq_dec (id mod 2) 0) as [Hz | Hnz].
    + replace id with (2 * (id / 2)) in Hi by lia.
      rewrite trailing_ones_even in Hi. lia.
    + assert (Hid' : id = 2 * (id / 2) + 1) by lia.
      rewrite Hid' in Hi. rewrite trailing_ones_odd in Hi by lia.
      specialize (IH (id / 2) ltac:(lia) ltac:(lia)).
      rewrite Z.shiftr_div_pow2 in * by lia.
      rewrite Nat2Z.inj_succ, Z.pow_succ_r by lia.
      rewrite <- Z.div_div by (try apply Z.pow_pos_nonneg; lia).
      lia.
Qed.

Lemma trailing_ones_divide (L : nat) (id : Z) :
  0 <= id < 2 ^ 63 -> (2 ^ Z.of_nat L | id + 1) -> (L <= trailing_ones id)%nat.
Proof.
  revert id. induction L as [| L IH]; intros id Hid Hdiv; [lia |].
  rewrite Nat2Z.inj_succ, Z.pow_succ_r in Hdiv by lia.
  destruct Hdiv as [q Hq].
  assert (Hid' : id = 2 * (q * 2 ^ Z.of_nat L - 1) + 1) by lia.
  assert (Hpos : 0 < 2 ^ Z.of_nat L) by (apply Z.pow_pos_nonneg; lia).
  assert (Hq1 : 1 <= q) by nia.
  rewrite Hid'. rewrite trailing_ones_odd by nia.
  apply le_n_S. apply IH; [nia |].
  exists q. lia.
Qed.

(** The index of the hash of a complete subtree: that of its last leaf,
    plus its level. *)
Lemma StoredHashIndex_level (L : nat) (k : Z) :
  0 <= k -> (k + 1) * 2 ^ Z.of_nat L <= 2 ^ 62 ->
  tlog.StoredHashIndex L k
  = tlog.StoredHashIndex 0 ((k + 1) * 2 ^ Z.of_nat L - 1) + Z.of_nat L.
Proof.
  intros Hk Hle.
  assert (Hpos : 0 < 2 ^ Z.of_nat L) by (apply Z.pow_pos_nonneg; lia).
  set (r := (k + 1) * 2 ^ Z.of_nat L - 1).
  assert (Hr : 0 <= r < 2 ^ 62) by (unfold r; nia).
  assert (HL : (L <= trailing_ones r)%nat).
  { apply trailing_ones_divide; [lia |]. exists (k + 1). unfold r. lia. }
  pose proof (leaf_index_ones r Hr) as Hones.
  pose proof (leaf_index_bound r Hr) as Hb.
  unfold tlog.StoredHashIndex at 1.
  rewrite level_down_eq by lia. fold r.
  rewrite <- leaf_index_eq by lia.
  unfold add64. apply wrap64_id. unfold int64_ok. lia.
Qed.

Lemma storedHashIndexes_nth (id : Z) (i : nat) :
  0 <= id -> id + 1 <= 2 ^ 62 -> (i <= trailing_ones id)%nat ->
  tlog.StoredHashIndex i (Z.shiftr id (Z.of_nat i))
  = tlog.StoredHashIndex 0 id + Z.of_nat i.
Proof.
  intros Hid Hlt Hi.
  pose proof (trailing_ones_shift i id ltac:(lia) Hi) as Hs.
  assert (0 <= Z.shiftr id (Z.of_nat i)) by (apply Z.shiftr_nonneg; lia).
  rewrite StoredHashIndex_level by lia.
  rewrite Hs. do 2 f_equal. lia.
Qed.

End Layout.

(** ** The Merkle tree hash *)
Section MerkleFacts.
Context {sha : Sha256}.

Lemma split_loop_bounds (fuel k n : nat) :
  (1 <= k < n)%nat -> (1 <= merkle.split_loop fuel k n < n)%nat.
Proof.
  revert k. induction fuel as [| f IH]; intros k Hk; cbn [merkle.split_loop]; [exact Hk |].
  destruct (2 * k <? n)%nat eqn:Hlt; [| exact Hk].
  apply Nat.ltb_lt in Hlt. apply IH. lia.
Qed.

Lemma split_point_bounds (n : nat) :
  (2 <= n)%nat -> (1 <= merkle.split_point n < n)%nat.
Proof. intros Hn. apply split_loop_bounds. lia. Qed.

Lemma split_loop_pow2 (d j fuel l n : nat) :
  (j + d = l)%nat -> (d <= fuel)%nat -> (2 ^ l < n <= 2 ^ (l + 1))%nat ->
  merkle.split_loop fuel (2 ^ j) n = (2 ^ l)%nat.
Proof.
  revert j fuel. induction d as [| d IH]; intros j fuel Hj Hfuel Hn.
  - replace j with l by lia.
    destruct fuel as [| f]; cbn [merkle.split_loop]; [reflexivity |].
    replace (2 * 2 ^ l)%nat with (2 ^ (l + 1))%nat by (rewrite Nat.add_1_r; reflexivity).
    destruct (2 ^ (l + 1) <? n)%nat eqn:Hlt; [apply Nat.ltb_lt in Hlt; lia | reflexivity].
  - destruct fuel as [| f]; [lia |]. cbn [merkle.split_loop].
    replace (2 * 2 ^ j)%nat with (2 ^ (S j))%nat by reflexivity.
    assert (Hle : (2 ^ S j <= 2 ^ l)%nat) by (apply Nat.pow_le_mono_r; lia).
    destruct (2 ^ S j <? n)%nat eqn:Hlt; [| apply Nat.ltb_ge in Hlt; lia].
    apply IH; lia.
Qed.

(** The split point of RFC 6962: [k < n <= 2k]. *)
Lemma split_point_pow2 (l n : nat) :
  (2 ^ l < n <= 2 ^ (l + 1))%nat -> merkle.split_point n = (2 ^ l)%nat.
Proof.
  intros Hn. unfold merkle.split_point.
  change 1%nat with (2 ^ 0)%nat.
  apply (split_loop_pow2 l 0); [lia | | exact Hn].
  pose proof (Nat.pow_gt_lin_r 2 l ltac:(lia)). lia.
Qed.

Lemma MTH_fuel_enough (f1 f2 : nat) (ds : list string) :
  (length ds <= f1)%nat -> (length ds <= f2)%nat ->
  merkle.MTH_fuel f1 ds = merkle.MTH_fuel f2 ds.
Proof.
  revert f2 ds. induction f1 as [| f1 IH]; intros f2 ds H1 H2.
  - destruct ds as [| d ds]; [destruct f2; reflexivity | cbn in H1; lia].
  - destruct ds as [| d1 [| d2 ds]]; [destruct f2; reflexivity | destruct f2; reflexivity |].
    destruct f2 as [| f2]; [cbn in H2; lia |].
    cbn [merkle.MTH_fuel].
    set (whole := d1 :: d2 :: ds) in *.
    pose proof (split_point_bounds (length whole) ltac:(cbn; lia)) as Hk.
    f_equal; apply IH; rewrite ?length_firstn, ?length_skipn; lia.
Qed.

Lemma MTH_unfold (ds : list string) :
  (2 <= length ds)%nat ->
  merkle.MTH ds =
  tlog.NodeHash (merkle.MTH (firstn (merkle.split_point (length ds)) ds))
                (merkle.MTH (skipn (merkle.split_point (length ds)) ds)).
Proof.
  intros Hlen. unfold merkle.MTH at 1.
  destruct ds as [| d1 [| d2 ds]]; [cbn in Hlen; lia | cbn in Hlen; lia |].
  set (whole := d1 :: d2 :: ds) in *.
  pose proof (split_point_bounds (length whole) Hlen) as Hk.
  change (merkle.MTH_fuel (length whole) whole)
    with (tlog.NodeHash
            (merkle.MTH_fuel (length (d2 :: ds)) (firstn (merkle.split_point (length whole)) whole))
            (merkle.MTH_fuel (length (d2 :: ds)) (skipn (merkle.split_point (length whole)) whole))).
  assert (Hw : length whole = S (length (d2 :: ds))) by reflexivity.
  unfold merkle.MTH.
  f_equal; apply MTH_fuel_enough; rewrite ?length_firstn, ?length_skipn; lia.
Qed.

Lemma MTH_single (d : string) : merkle.MTH [d] = tlog.RecordHash d.
Proof. reflexivity. Qed.

Lemma pow2_pos (L : nat) : (0 < 2 ^ L)%nat.
Proof. apply Nat.neq_0_lt_0. apply Nat.pow_nonzero. lia. Qed.

Lemma segment_length (L k : nat) (ds : list string) :
  ((k + 1) * 2 ^ L <= length ds)%nat -> length (merkle.segment L k ds) = (2 ^ L)%nat.
Proof.
  intros Hle. unfold merkle.segment. rewrite length_firstn, length_skipn. lia.
Qed.

Lemma segment_app (L k : nat) (ds more : list string) :
  ((k + 1) * 2 ^ L <= length ds)%nat ->
  merkle.segment L k (ds ++ more) = merkle.segment L k ds.
Proof.
  intros Hle. unfold merkle.segment.
  rewrite skipn_app.
  rewrite firstn_app.
  replace (2 ^ L - length (skipn (k * 2 ^ L) ds))%nat with 0%nat
    by (rewrite length_skipn; lia).
  cbn [firstn]. apply app_nil_r.
Qed.

Lemma segment_halves (L k : nat) (ds : list string) :
  firstn (2 ^ L) (merkle.segment (S L) k ds) = merkle.segment L (2 * k) ds /\
  skipn (2 ^ L) (merkle.segment (S L) k ds) = merkle.segment L (2 * k + 1) ds.
Proof.
  unfold merkle.segment.
  assert (Hp : (2 ^ S L = 2 * 2 ^ L)%nat) by reflexivity.
  pose proof (pow2_pos L) as Hpos.
  split.
  - rewrite firstn_firstn.
    replace (Nat.min (2 ^ L) (2 ^ S L)) with (2 ^ L)%nat by lia.
    do 2 f_equal. lia.
  - rewrite skipn_firstn_comm, skipn_skipn.
    f_equal; [lia | f_equal; lia].
Qed.

Lemma MTH_segment_S (L k : nat) (ds : list string) :
  ((k + 1) * 2 ^ S L <= length ds)%nat ->
  merkle.MTH (merkle.segment (S L) k ds)
  = tlog.NodeHash (merkle.MTH (merkle.segment L (2 * k) ds))
                  (merkle.MTH (merkle.segment L (2 * k + 1) ds)).
Proof.
  intros Hle.
  pose proof (segment_length (S L) k ds Hle) as Hlen.
  pose proof (pow2_pos L) as Hpos.
  assert (Hp : (2 ^ S L = 2 * 2 ^ L)%nat) by reflexivity.
  rewrite MTH_unfold by lia.
  rewrite Hlen.
  rewrite (split_point_pow2 L) by (rewrite Nat.add_1_r; lia).
  destruct (segment_halves L k ds) as [-> ->]. reflexivity.
Qed.

Lemma segment_last (ds : list string) (d : string) :
  merkle.segment 0 (length ds) (ds ++ [d]) = [d].
Proof.
  unfold merkle.segment. cbn [Nat.pow]. rewrite Nat.mul_1_r.
  rewrite skipn_app, skipn_all, Nat.sub_diag. reflexivity.
Qed.

End MerkleFacts.

(** ** Appending to the stored tree *)

Lemma write_hashes_total (m : gmap Z Hash) (idxs : list Z) (hs : list Hash) :
  (length idxs <= length hs)%nat -> exists m', write_hashes m idxs hs = Some m'.
Proof.
  revert m hs. induction idxs as [| idx idxs IH]; intros m hs Hlen; cbn [write_hashes].
  - exists m. reflexivity.
  - destruct hs as [| h hs]; [cbn in Hlen; lia |]. apply IH. cbn in Hlen. lia.
Qed.

Lemma write_hashes_other (m m' : gmap Z Hash) (idxs : list Z) (hs : list Hash) (j : Z) :
  write_hashes m idxs hs = Some m' -> ~ In j idxs -> m' !! j = m !! j.
Proof.
  revert m hs. induction idxs as [| idx idxs IH]; intros m hs; cbn [write_hashes].
  - intros [= <-] _. reflexivity.
  - destruct hs as [| h hs]; [discriminate |].
    intros Hw Hnot. rewrite (IH _ _ Hw) by (intros Hin; apply Hnot; right; exact Hin).
    apply lookup_insert_ne. intros ->. apply Hnot. left. reflexivity.
Qed.

Lemma write_hashes_nth (m m' : gmap Z Hash) (idxs : list Z) (hs : list Hash)
    (i : nat) (idx : Z) (h : Hash) :
  write_hashes m idxs hs = Some m' -> List.NoDup idxs ->
  nth_error idxs i = Some idx -> nth_error hs i = Some h ->
  m' !! idx = Some h.
Proof.
  revert m hs i. induction idxs as [| idx0 idxs IH]; intros m hs i; cbn [write_hashes].
  - destruct i; discriminate.
  - destruct hs as [| h0 hs]; [discriminate |].
    intros Hw Hnd Hi Hh. apply List.NoDup_cons_iff in Hnd as [Hnot Hnd].
    destruct i as [| i]; cbn [nth_error] in Hi, Hh.
    + injection Hi as <-. injection Hh as <-.
      rewrite (write_hashes_other _ _ _ _ _ Hw Hnot).
      apply lookup_insert_eq.
    + eapply IH; eauto.
Qed.

Section AppendFacts.
Context {sha : Sha256}.

Lemma build_hashes_map (o H : nat -> Hash) (c j : nat) (acc : list Hash) :
  (forall i : nat, (j <= i < j + c)%nat -> tlog.NodeHash (o i) (H i) = H (S i)) ->
  tlog.build_hashes (map o (seq j c)) (H j) acc = acc ++ map H (seq (S j) c).
Proof.
  revert j acc. induction c as [| c IH]; intros j acc Hstep; cbn [seq map tlog.build_hashes].
  - symmetry. apply app_nil_r.
  - rewrite (Hstep j) by lia.
    rewrite IH by (intros i Hi; apply Hstep; lia).
    rewrite <- app_assoc. reflexivity.
Qed.

Lemma shiftr_nat (n i : nat) :
  Z.shiftr (Z.of_nat n) (Z.of_nat i) = Z.of_nat (n / 2 ^ i).
Proof.
  rewrite Z.shiftr_div_pow2 by lia.
  rewrite Nat2Z.inj_div, Nat2Z.inj_pow. reflexivity.
Qed.

Lemma trailing_ones_shift_nat (n i : nat) :
  Z.of_nat n < 2 ^ 63 -> (i <= trailing_ones (Z.of_nat n))%nat ->
  ((n / 2 ^ i + 1) * 2 ^ i = n + 1)%nat.
Proof.
  intros Hn Hi.
  pose proof (trailing_ones_shift i (Z.of_nat n) ltac:(lia) Hi) as Hs.
  rewrite shiftr_nat in Hs.
  apply Nat2Z.inj. rewrite Nat2Z.inj_mul, !Nat2Z.inj_add, Nat2Z.inj_pow. exact Hs.
Qed.

Lemma trailing_ones_divide_nat (n L k : nat) :
  Z.of_nat n < 2 ^ 63 -> ((k + 1) * 2 ^ L = n + 1)%nat ->
  (L <= trailing_ones (Z.of_nat n))%nat /\ k = (n / 2 ^ L)%nat.
Proof.
  intros Hn Hk.
  assert (HL : (L <= trailing_ones (Z.of_nat n))%nat).
  { apply trailing_ones_divide; [lia |].
    exists (Z.of_nat (k + 1)).
    replace (Z.of_nat n + 1) with (Z.of_nat (n + 1)) by lia.
    rewrite <- Hk, Nat2Z.inj_mul, Nat2Z.inj_pow. reflexivity. }
  split; [exact HL |].
  pose proof (trailing_ones_shift_nat n L Hn HL) as Hs.
  rewrite <- Hk in Hs.
  apply Nat.mul_cancel_r in Hs; [lia |].
  apply Nat.pow_nonzero. lia.
Qed.

End AppendFacts.

Section AppendStep.
Context {sha : Sha256}.
Variable up : upstream.

(** The hashes that [StoredHashes] builds for the record after [ds]: those
    of the subtrees that the record completes. *)
Lemma built_hashes_stored (st : memStore) (ds : list string) (d : string) :
  merkle.stored_tree st ds -> Z.of_nat (length ds) < 2 ^ 62 ->
  tlog.build_hashes
    (rev (mem_ReadHashes st
            (tlog.read_indexes (Z.of_nat (length ds))
               (trailing_ones (Z.of_nat (length ds))))))
    (tlog.RecordHash d) [tlog.RecordHash d]
  = map (fun i => merkle.MTH (merkle.segment i (length ds / 2 ^ i) (ds ++ [d])))
        (seq 0 (S (trailing_ones (Z.of_nat (length ds))))).
Proof.
  intros [Hsize Hst] Hn.
  set (n := length ds) in *. set (m := trailing_ones (Z.of_nat n)).
  unfold mem_ReadHashes, tlog.read_indexes.
  rewrite <- map_rev, rev_involutive, map_map.
  set (H := fun i => merkle.MTH (merkle.segment i (n / 2 ^ i) (ds ++ [d]))).
  assert (H0 : tlog.RecordHash d = H 0%nat).
  { unfold H. cbn [Nat.pow]. rewrite Nat.div_1_r. unfold n.
    rewrite segment_last. reflexivity. }
  rewrite H0.
  rewrite (build_hashes_map _ H).
  { reflexivity. }
  intros i Hi. cbn [Nat.add] in Hi.
  pose proof (trailing_ones_shift_nat n i ltac:(lia) ltac:(fold m; lia)) as Hs.
  pose proof (trailing_ones_shift_nat n (S i) ltac:(lia) ltac:(fold m; lia)) as Hs'.
  pose proof (pow2_pos i) as Hpos.
  set (a := (n / 2 ^ i)%nat) in *. set (a' := (n / 2 ^ S i)%nat) in *.
  assert (Ha : a = (2 * a' + 1)%nat).
  { change (2 ^ S i)%nat with (2 * 2 ^ i)%nat in Hs'.
    assert (Heq : ((a + 1) * 2 ^ i = (2 * (a' + 1)) * 2 ^ i)%nat) by lia.
    apply Nat.mul_cancel_r in Heq; lia. }
  rewrite shiftr_nat. fold a.
  assert (Hsub : sub64 (Z.of_nat a) 1 = Z.of_nat (2 * a')).
  { unfold sub64. rewrite wrap64_id by (unfold int64_ok; lia). lia. }
  rewrite Hsub.
  assert (Hleft : ((2 * a' + 1) * 2 ^ i <= n)%nat) by nia.
  rewrite (Hst i (2 * a')%nat Hleft). cbn [default].
  unfold H. fold a a'.
  rewrite MTH_segment_S by (rewrite length_app; cbn [length]; fold n; lia).
  rewrite (segment_app i (2 * a')) by exact Hleft.
  rewrite Ha. reflexivity.
Qed.

Lemma storedHashIndexes_seq (id : Z) (count : nat) :
  0 <= id < 2 ^ 62 -> (count <= 1 + trailing_ones id)%nat ->
  tree.storedHashIndexes id count
  = map (fun i => tlog.StoredHashIndex 0 id + Z.of_nat i) (seq 0 count).
Proof.
  intros Hid Hcount. unfold tree.storedHashIndexes.
  apply map_ext_in. intros i Hi. apply in_seq in Hi.
  apply storedHashIndexes_nth; lia.
Qed.

Lemma NoDup_offsets (base : Z) (j count : nat) :
  List.NoDup (map (fun i => base + Z.of_nat i) (seq j count)).
Proof.
  revert j. induction count as [| c IH]; intros j; cbn [seq map].
  - apply List.NoDup_nil.
  - apply List.NoDup_cons; [| apply IH].
    rewrite in_map_iff. intros (i & Hi & Hin). apply in_seq in Hin. lia.
Qed.

(** Appending the next record to a stored tree gives the stored tree with
    one record more. *)
Lemma stored_tree_append (st : memStore) (ds : list string) (d : string) :
  merkle.stored_tree st ds -> Z.of_nat (length ds) < 2 ^ 62 ->
  exists (m' : gmap Z Hash) (tr : list event),
    run (mem_handler no_faults up) (tree.AddRecord (Z.of_nat (length ds)) d) st
    = Some (Ok tt, mkMem (records st) m' (Z.of_nat (length ds) + 1), tr) /\
    merkle.stored_tree (mkMem (records st) m' (Z.of_nat (length ds) + 1)) (ds ++ [d]).
Proof.
  intros Hst Hn.
  pose proof (built_hashes_stored st ds d Hst Hn) as Hbuilt.
  destruct Hst as [Hsize Hst].
  set (n := length ds) in *. set (id := Z.of_nat n) in *.
  set (m := trailing_ones id) in *.
  set (old := mem_ReadHashes st (tlog.read_indexes id m)) in *.
  set (H := fun i => merkle.MTH (merkle.segment i (n / 2 ^ i) (ds ++ [d]))) in *.
  set (built := tlog.build_hashes (rev old) (tlog.RecordHash d) [tlog.RecordHash d]) in *.
  assert (Hlen : length built = S m).
  { rewrite Hbuilt, length_map, length_seq. reflexivity. }
  assert (Hidx : tree.storedHashIndexes id (length built)
                 = map (fun i => tlog.StoredHashIndex 0 id + Z.of_nat i) (seq 0 (S m))).
  { rewrite Hlen. apply storedHashIndexes_seq; [unfold id; lia | fold m; lia]. }
  destruct (write_hashes_total (hashes st) (tree.storedHashIndexes id (length built)) built)
    as [m' Hw].
  { rewrite storedHashIndexes_length. lia. }
  assert (Hadd : add64 id 1 = id + 1).
  { unfold add64. apply wrap64_id. unfold int64_ok, id. lia. }
  exists m'. eexists. split.
  - rewrite <- Hadd. apply append_outcome_run.
    eapply (AppendDone _ id d st old st built).
    + reflexivity.
    + unfold old, mem_ReadHashes. rewrite length_map. apply read_indexes_length.
    + reflexivity.
    + cbv [mem_handler no_faults mem_answer]. rewrite Hw. reflexivity.
    + reflexivity.
  - split.
    + cbn [treeSize]. rewrite length_app. cbn [length]. fold n. lia.
    + intros L k Hk. cbn [hashes]. rewrite length_app in Hk. cbn [length] in Hk. fold n in Hk.
      pose proof (pow2_pos L) as Hpos.
      assert (HZ : (Z.of_nat k + 1) * 2 ^ Z.of_nat L = Z.of_nat ((k + 1) * 2 ^ L)).
      { rewrite Nat2Z.inj_mul, Nat2Z.inj_add, Nat2Z.inj_pow. reflexivity. }
      assert (Hlevel : tlog.StoredHashIndex L (Z.of_nat k)
                       = tlog.StoredHashIndex 0 (Z.of_nat ((k + 1) * 2 ^ L) - 1) + Z.of_nat L).
      { rewrite StoredHashIndex_level by lia. rewrite HZ. reflexivity. }
      destruct (Nat.eq_dec ((k + 1) * 2 ^ L)%nat (n + 1)%nat) as [Hnew | Hold].
      * destruct (trailing_ones_divide_nat n L k ltac:(lia) Hnew) as [HL ->].
        fold id m in HL.
        apply (write_hashes_nth _ _ _ _ L _ _ Hw).
        -- rewrite Hidx. apply NoDup_offsets.
        -- rewrite Hidx. rewrite nth_error_map, nth_error_seq.
           destruct (L <? S m)%nat eqn:HLm; [| apply Nat.ltb_ge in HLm; lia].
           cbn [option_map Nat.add]. f_equal.
           rewrite Hlevel, Hnew. unfold id. do 2 f_equal. lia.
        -- rewrite Hbuilt, nth_error_map, nth_error_seq.
           destruct (L <? S m)%nat eqn:HLm; [| apply Nat.ltb_ge in HLm; lia].
           reflexivity.
      * assert (Hle : ((k + 1) * 2 ^ L <= n)%nat) by lia.
        rewrite (write_hashes_other _ _ _ _ _ Hw).
        -- rewrite (Hst L k Hle). rewrite segment_app by exact Hle. reflexivity.
        -- rewrite Hidx, in_map_iff. intros (i & Hi & _).
           rewrite Hlevel in Hi.
           set (r := Z.of_nat ((k + 1) * 2 ^ L) - 1) in *.
           assert (Hr : 0 <= r < id) by (unfold r, id; nia).
           assert (HLr : (L <= trailing_ones r)%nat).
           { apply trailing_ones_divide; [lia |].
             exists (Z.of_nat k + 1). unfold r. lia. }
           pose proof (leaf_index_mono r id ltac:(lia) ltac:(unfold id; lia)). lia.
Qed.

End AppendStep.

(** ** The root of the stored tree *)
Section RootFacts.
Context {sha : Sha256}.

Lemma fold_right_edge_cons (h : Hash) (hs : list Hash) :
  tlog.fold_right_edge (rev (h :: hs)) =
  match tlog.fold_right_edge (rev hs) with
  | None => Some h
  | Some r => Some (tlog.NodeHash h r)
  end.
Proof.
  cbn [rev]. destruct (rev hs) as [| x rest] eqn:Hrev; cbn [app tlog.fold_right_edge].
  - reflexivity.
  - rewrite fold_left_app. reflexivity.
Qed.

Lemma subTreeIndex_done (fuel : nat) (lo hi : Z) (need : list Z) :
  hi <= lo -> tlog.subTreeIndex fuel lo hi need = Some need.
Proof.
  intros Hle. assert (Heq : (lo <? hi) = false) by lia.
  destruct fuel; cbn [tlog.subTreeIndex]; rewrite Heq; reflexivity.
Qed.

(** The hashes that [TreeHash] reads along the right edge of a stored tree
    fold into the Merkle tree hash of the records from [lo] on. *)
Lemma right_edge_hash (st : memStore) (ds : list string) (fuel lo : nat)
    (need more : list Z) :
  merkle.stored_tree st ds -> Z.of_nat (length ds) < 2 ^ 62 ->
  (lo < length ds)%nat ->
  Z.of_nat (length ds) - Z.of_nat lo < 2 ^ Z.of_nat fuel ->
  (forall j : Z, 0 <= j ->
     2 ^ j <= Z.of_nat (length ds) - Z.of_nat lo < 2 ^ (j + 1) ->
     (2 ^ (j + 1) | Z.of_nat lo)) ->
  tlog.subTreeIndex fuel (Z.of_nat lo) (Z.of_nat (length ds)) need = Some (need ++ more) ->
  tlog.fold_right_edge (rev (mem_ReadHashes st more)) = Some (merkle.MTH (skipn lo ds)).
Proof.
  intros Hst Hn. revert lo need more.
  induction fuel as [| f IH]; intros lo need more Hlo Hfuel Hinv Hidx.
  { change (2 ^ Z.of_nat 0) with 1 in Hfuel. lia. }
  set (hi := Z.of_nat (length ds)) in *.
  cbn [tlog.subTreeIndex] in Hidx.
  assert (Hlt : (Z.of_nat lo <? hi) = true) by (unfold hi; lia).
  rewrite Hlt in Hidx.
  assert (Hr : sub64 hi (Z.of_nat lo) = hi - Z.of_nat lo)
    by (apply wrap64_id; unfold int64_ok; lia).
  assert (Hn1 : add64 (sub64 hi (Z.of_nat lo)) 1 = hi - Z.of_nat lo + 1).
  { rewrite Hr. apply wrap64_id. unfold int64_ok. lia. }
  rewrite Hn1 in Hidx.
  destruct (maxpow2_spec (hi - Z.of_nat lo + 1) ltac:(lia)) as (l & Hmax & Hl & Hlow & Hup).
  rewrite Hmax in Hidx.
  assert (Hpos : 0 < 2 ^ Z.of_nat l) by (apply Z.pow_pos_nonneg; lia).
  assert (Hk1 : sub64 (2 ^ Z.of_nat l) 1 = 2 ^ Z.of_nat l - 1).
  { apply wrap64_id. unfold int64_ok.
    assert (2 ^ Z.of_nat l <= 2 ^ 62) by (apply Z.pow_le_mono_r; lia). lia. }
  rewrite Hk1, land_mod in Hidx by lia.
  replace (Z.of_nat (l + 1)) with (Z.of_nat l + 1) in Hup by lia.
  assert (Hp2 : 2 ^ (Z.of_nat l + 1) = 2 * 2 ^ Z.of_nat l)
    by (rewrite Z.pow_add_r by lia; lia).
  assert (Hdiv : (2 ^ (Z.of_nat l + 1) | Z.of_nat lo)) by (apply Hinv; lia).
  assert (Hdivl : (2 ^ Z.of_nat l | Z.of_nat lo)).
  { eapply Z.divide_trans; [| exact Hdiv]. apply pow2_divide. lia. }
  assert (Hmod : Z.of_nat lo mod 2 ^ Z.of_nat l = 0) by (apply Z.mod_divide; [lia | exact Hdivl]).
  rewrite Hmod in Hidx. cbn [Z.eqb negb] in Hidx.
  assert (Hadd : add64 (Z.of_nat lo) (2 ^ Z.of_nat l) = Z.of_nat (lo + 2 ^ l)).
  { rewrite Nat2Z.inj_add, Nat2Z.inj_pow. apply wrap64_id. unfold int64_ok. lia. }
  rewrite Hadd in Hidx.
  (* the first tree of the edge *)
  assert (HpowZ : Z.of_nat (2 ^ l) = 2 ^ Z.of_nat l) by apply Nat2Z.inj_pow.
  pose proof (pow2_pos l) as Hposn.
  assert (Hk : (lo / 2 ^ l * 2 ^ l = lo)%nat).
  { destruct Hdivl as [q Hq].
    assert (Hq' : lo = (Z.to_nat q * 2 ^ l)%nat).
    { apply Nat2Z.inj. rewrite Nat2Z.inj_mul, HpowZ, Z2Nat.id; [exact Hq | nia]. }
    rewrite Hq' at 1. rewrite Nat.div_mul by lia. symmetry. exact Hq'. }
  assert (Hfit : ((lo / 2 ^ l + 1) * 2 ^ l <= length ds)%nat).
  { apply Nat2Z.inj_le. rewrite Nat.mul_add_distr_r, Hk, Nat.mul_1_l, Nat2Z.inj_add, HpowZ.
    fold hi. lia. }
  assert (Hfirst : default zeroHash
                     (hashes st !! tlog.StoredHashIndex l (Z.shiftr (Z.of_nat lo) (Z.of_nat l)))
                   = merkle.MTH (firstn (2 ^ l) (skipn lo ds))).
  { rewrite shiftr_nat. destruct Hst as [_ Hst]. rewrite (Hst l _ Hfit). cbn [default].
    unfold merkle.segment. rewrite Hk. reflexivity. }
  set (x := tlog.StoredHashIndex l (Z.shiftr (Z.of_nat lo) (Z.of_nat l))) in *.
  destruct (Nat.eq_dec (lo + 2 ^ l)%nat (length ds)) as [Hend | Hmore].
  - rewrite subTreeIndex_done in Hidx by (fold hi; lia).
    injection Hidx as Hidx. apply app_inv_head in Hidx. subst more.
    cbn [mem_ReadHashes map rev app tlog.fold_right_edge fold_left].
    rewrite Hfirst. do 2 f_equal.
    apply firstn_all2. rewrite length_skipn. lia.
  - assert (Hlo' : (lo + 2 ^ l < length ds)%nat).
    { apply Nat2Z.inj_lt. rewrite Nat2Z.inj_add, HpowZ. fold hi.
      assert (Z.of_nat (lo + 2 ^ l) <> hi) by (unfold hi; lia).
      rewrite Nat2Z.inj_add, HpowZ in H. lia. }
    assert (Hlf : hi - Z.of_nat (lo + 2 ^ l) < 2 ^ Z.of_nat f).
    { rewrite Nat2Z.inj_add, HpowZ.
      assert (Hlf' : Z.of_nat l < Z.of_nat (S f)).
      { apply (Z.pow_lt_mono_r_iff 2); lia. }
      assert (2 ^ Z.of_nat l <= 2 ^ Z.of_nat f) by (apply Z.pow_le_mono_r; lia).
      lia. }
    assert (Hinv' : forall j : Z, 0 <= j ->
              2 ^ j <= hi - Z.of_nat (lo + 2 ^ l) < 2 ^ (j + 1) ->
              (2 ^ (j + 1) | Z.of_nat (lo + 2 ^ l))).
    { intros j Hj Hjr. rewrite Nat2Z.inj_add, HpowZ in *.
      assert (Hjl : j + 1 <= Z.of_nat l).
      { assert (j < Z.of_nat l); [| lia].
        apply (Z.pow_lt_mono_r_iff 2); lia. }
      apply Z.divide_add_r.
      - eapply Z.divide_trans; [| exact Hdiv]. apply pow2_divide. lia.
      - apply pow2_divide. lia. }
    destruct (right_edge_loops f (Z.of_nat (lo + 2 ^ l)) hi (need ++ [x]) 0)
      as (more' & Hidx' & _ & _); [lia | exact Hn | exact Hlf | exact Hinv' |].
    rewrite Hidx' in Hidx. injection Hidx as Hidx.
    rewrite <- app_assoc in Hidx. apply app_inv_head in Hidx. cbn [app] in Hidx. subst more.
    change (mem_ReadHashes st (x :: more'))
      with (default zeroHash (hashes st !! x) :: mem_ReadHashes st more').
    rewrite fold_right_edge_cons.
    rewrite (IH (lo + 2 ^ l)%nat (need ++ [x]) more' Hlo' Hlf Hinv' Hidx').
    rewrite Hfirst. f_equal.
    rewrite (MTH_unfold (skipn lo ds)) by (rewrite length_skipn; lia).
    rewrite length_skipn.
    rewrite (split_point_pow2 l).
    + rewrite skipn_skipn. do 3 f_equal. lia.
    + split.
      * lia.
      * apply Nat2Z.inj_le. rewrite Nat2Z.inj_sub by lia.
        rewrite Nat2Z.inj_pow. replace (Z.of_nat (l + 1)) with (Z.of_nat l + 1) by lia.
        change (Z.of_nat 2) with 2. fold hi. lia.
Qed.

End RootFacts.

Section RootTheorems.
Context {sha : Sha256}.
Variable up : upstream.

Lemma stored_tree_root (st : memStore) (ds : list string) :
  merkle.stored_tree st ds -> Z.of_nat (length ds) < 2 ^ 62 ->
  exists tr : list event,
    run (mem_handler no_faults up) tree.TreeHash st = Some (Ok (merkle.MTH ds), st, tr).
Proof.
  intros Hst Hn. pose proof Hst as [Hsize _].
  unfold tree.TreeHash. cbn [bind call run].
  change (mem_handler no_faults up _ OpTreeSize st) with (Some (Ok (treeSize st), st)).
  cbv beta iota. rewrite Hsize.
  destruct ds as [| d0 ds0].
  { cbn [length Z.of_nat Z.eqb run]. eexists. reflexivity. }
  remember (d0 :: ds0) as ds eqn:Hds.
  assert (Hpos : (0 < length ds)%nat) by (rewrite Hds; cbn; lia).
  clear Hds.
  destruct (Z.of_nat (length ds) =? 0) eqn:H0; [lia |].
  rewrite run_bind. unfold tlog.TreeHash. rewrite H0.
  destruct (right_edge_loops 64 0 (Z.of_nat (length ds)) [] 0) as (more & Hidx & Hcnt & Hne);
    [lia | lia | change (2 ^ Z.of_nat 64) with (2 ^ 64); lia | |].
  { intros j _ _. apply Z.divide_0_r. }
  cbn [app Nat.add] in Hidx, Hcnt. rewrite Hidx.
  cbn [bind call run]. cbv [mem_handler no_faults mem_answer].
  assert (Hlen : length (mem_ReadHashes st more) = length more).
  { unfold mem_ReadHashes. apply length_map. }
  rewrite Hlen, Nat.eqb_refl. cbn [negb].
  unfold tlog.subTreeHash. rewrite Hcnt, Hlen, Nat.ltb_irrefl.
  rewrite firstn_all2 by lia. rewrite skipn_all2 by lia.
  rewrite (right_edge_hash st ds 64 0 [] more Hst Hn Hpos).
  - cbn [skipn run]. eexists. reflexivity.
  - change (2 ^ Z.of_nat 64) with (2 ^ 64). lia.
  - intros j _ _. apply Z.divide_0_r.
  - exact Hidx.
Qed.

Lemma stored_tree_empty (st : memStore) :
  treeSize st = 0 -> merkle.stored_tree st [].
Proof.
  intros Hsize. split; [exact Hsize |].
  intros L k Hk. cbn [length] in Hk. pose proof (pow2_pos L). nia.
Qed.

(** The loop of appends from a stored tree. *)
Lemma add_records_stored (rs ds : list string) (st : memStore) :
  merkle.stored_tree st ds -> Z.of_nat (length ds + length rs) < 2 ^ 62 ->
  exists (st' : memStore) (tr : list event),
    run (mem_handler no_faults up) (add_records (Z.of_nat (length ds)) rs) st
    = Some (Ok tt, st', tr) /\
    records st' = records st /\
    merkle.stored_tree st' (ds ++ rs).
Proof.
  revert ds st. induction rs as [| d rs IH]; intros ds st Hst Hn.
  - exists st, []. rewrite app_nil_r. repeat split; [exact (proj1 Hst) | exact (proj2 Hst)].
  - cbn [add_records length] in *.
    destruct (stored_tree_append up st ds d Hst ltac:(lia)) as (m' & tr1 & Hrun & Hst1).
    rewrite run_bind, Hrun.
    assert (Hadd : add64 (Z.of_nat (length ds)) 1 = Z.of_nat (length (ds ++ [d]))).
    { rewrite length_app. cbn [length]. unfold add64. rewrite wrap64_id by (unfold int64_ok; lia).
      lia. }
    rewrite Hadd.
    destruct (IH (ds ++ [d]) _ Hst1) as (st' & tr2 & Hrun2 & Hrec & Hst2).
    { rewrite length_app. cbn [length]. lia. }
    rewrite Hrun2. exists st'. eexists. split; [reflexivity |].
    split; [exact Hrec |]. rewrite <- app_assoc in Hst2. exact Hst2.
Qed.

End RootTheorems.

(** ** Lookups on a log in order *)
Section LogFacts.
Context {sha : Sha256}.
Variable up : upstream.

Lemma mem_RecordID_miss (st : memStore) (path version : string) :
  mem_RecordID st path version = Err ErrNotFound <->
  find (same_module path version) (records st) = None.
Proof.
  unfold mem_RecordID. destruct (find _ _); split; congruence.
Qed.

Lemma sequential_ids_app (st : memStore) (r : RecordT) (m' : gmap Z Hash) (size : Z) :
  sequential_ids st -> RecID r = Z.of_nat (length (records st)) ->
  sequential_ids (mkMem (records st ++ [r]) m' size).
Proof.
  intros Hseq Hid i r0. cbn [records].
  destruct (Nat.lt_ge_cases i (length (records st))) as [Hlt | Hge].
  - rewrite nth_error_app1 by exact Hlt. apply Hseq.
  - rewrite nth_error_app2 by exact Hge.
    destruct (i - length (records st))%nat as [| j] eqn:Hj; cbn [nth_error].
    + intros [= <-]. rewrite Hid. f_equal. lia.
    + destruct j; discriminate.
Qed.

(** A lookup of a module that the store does not have and the upstream
    does: its record goes to the end of the log and into the tree. *)
Lemma lookup_stores (m : ModVersion) (st : memStore) (h1 h1mod : string) :
  consistent_log st -> Z.of_nat (length (records st)) < 2 ^ 62 ->
  mem_RecordID st (Path m) (Version m) = Err ErrNotFound ->
  up_gomod up m = Ok h1mod -> up_zip up m = Ok h1 ->
  exists (m' : gmap Z Hash) (tr : list event),
    let id := Z.of_nat (length (records st)) in
    let st' := mkMem (records st ++ [mkRecord id (Path m) (Version m)
                                       (RecData (built_record m h1 h1mod))])
                     m' (id + 1) in
    run (mem_handler no_faults up) (sumdb.Lookup m) st = Some (Ok id, st', tr) /\
    consistent_log st'.
Proof.
  intros [Hseq Hst] Hn Hmiss Hmod Hzip.
  set (id := Z.of_nat (length (records st))).
  set (rec := mkRecord id (Path m) (Version m) (RecData (built_record m h1 h1mod))).
  set (st4 := mkMem (records st ++ [rec]) (hashes st) (treeSize st)).
  assert (Hst4 : merkle.stored_tree st4 (map RecData (records st))) by exact Hst.
  destruct (stored_tree_append up st4 _ (RecData (built_record m h1 h1mod)) Hst4)
    as (m' & tr & Hrun & Hst5).
  { rewrite length_map. exact Hn. }
  rewrite length_map in Hrun, Hst5. fold id in Hrun, Hst5.
  exists m'. eexists. cbv zeta. fold id rec. split.
  - apply lookup_outcome_run.
    eapply LookupMiss.
    + cbv [mem_handler no_faults mem_answer]. rewrite Hmiss. reflexivity.
    + reflexivity.
    + eapply (FetchStored _ m st ErrNotFound st h1mod st h1 st id st4).
      * cbv [mem_handler no_faults mem_answer]. rewrite Hmiss. reflexivity.
      * reflexivity.
      * cbv [mem_handler no_faults mem_answer]. rewrite Hmod. reflexivity.
      * cbv [mem_handler no_faults mem_answer]. rewrite Hzip. reflexivity.
      * cbv [mem_handler no_faults mem_answer]. unfold mem_AddRecord.
        cbn [built_record RecPath RecVersion RecData].
        apply mem_RecordID_miss in Hmiss. rewrite Hmiss. reflexivity.
      * apply run_append_outcome. exact Hrun.
  - split.
    + apply sequential_ids_app; [exact Hseq | reflexivity].
    + cbn [records]. rewrite map_app. exact Hst5.
Qed.

(** The id that the store answers for a module it has is the position of
    the module's record. *)
Lemma mem_RecordID_found (st : memStore) (path version : string) (id : Z) :
  sequential_ids st -> mem_RecordID st path version = Ok id ->
  exists r : RecordT,
    nth_error (records st) (Z.to_nat id) = Some r /\ 0 <= id /\
    RecID r = id /\ RecPath r = path /\ RecVersion r = version.
Proof.
  intros Hseq. unfold mem_RecordID.
  destruct (find _ _) as [r |] eqn:Hfind; [| discriminate].
  intros [= <-]. apply find_some in Hfind as [Hin Hsame].
  apply In_nth_error in Hin as [i Hi].
  pose proof (Hseq i r Hi) as Hid.
  unfold same_module in Hsame. apply andb_true_iff in Hsame as [Hp Hv].
  apply String.eqb_eq in Hp, Hv.
  exists r. rewrite Hid, Nat2Z.id. repeat split; auto. lia.
Qed.

End LogFacts.

(** ** The tree engine on the in-memory store *)

(** X1: the indexes that [storedHashIndexes] gives for the hashes of a
    record are consecutive: the [i]-th is the index of the record's leaf
    plus [i], for every count up to the [1 + trailing_ones id] hashes that
    [AddRecord] writes. *)
Theorem storedHashIndexes_consecutive {sha : Sha256} (id : Z) (count : nat) :
  0 <= id < 2 ^ 62 -> (count <= 1 + trailing_ones id)%nat ->
  tree.storedHashIndexes id count
  = map (fun i => tlog.StoredHashIndex 0 id + Z.of_nat i) (seq 0 count).
Proof. apply storedHashIndexes_seq. Qed.

(** Record 11 (binary 1011): three hashes, at the leaf's index 19 and the
    two after it. *)
Lemma storedHashIndexes_consecutive_witness :
  tree.storedHashIndexes 11 3 = [19; 20; 21].
Proof.
  apply (storedHashIndexes_consecutive 11 3); [lia | vm_compute; lia].
Defined.

(** X2: the indexes written for a record are all below those written for
    any later record, so an append never overwrites a hash of an earlier
    one. *)
Theorem storedHashIndexes_increase {sha : Sha256} (id1 id2 x y : Z) :
  0 <= id1 < id2 -> id2 < 2 ^ 62 ->
  In x (tree.storedHashIndexes id1 (1 + trailing_ones id1)) ->
  In y (tree.storedHashIndexes id2 (1 + trailing_ones id2)) ->
  x < y.
Proof.
  intros H1 H2.
  rewrite !storedHashIndexes_seq by lia.
  rewrite !in_map_iff. intros (i & <- & Hi) (j & <- & Hj).
  apply in_seq in Hi, Hj.
  pose proof (leaf_index_mono id1 id2 H1 H2). lia.
Qed.

Lemma storedHashIndexes_increase_witness : 6 < 7.
Proof.
  apply (storedHashIndexes_increase 3 4 6 7); [lia | lia | |];
    vm_compute; auto.
Defined.

Section TreeOnMem.
Context {sha : Sha256}.
Variable up : upstream.

(** X3: if the in-memory store holds the tree of the records [ds], then
    [AddRecord] with the next id and the data [d] succeeds, touches no
    record, and leaves the store holding the tree of [ds ++ [d]]: the tree
    size is one more, and the hash of every complete subtree, the new ones
    included, is at its index. *)
Theorem AddRecord_extends_stored_tree (st : memStore) (ds : list string) (d : string) :
  merkle.stored_tree st ds -> Z.of_nat (length ds) < 2 ^ 62 ->
  exists (st' : memStore) (tr : list event),
    run (mem_handler no_faults up) (tree.AddRecord (Z.of_nat (length ds)) d) st
    = Some (Ok tt, st', tr) /\
    records st' = records st /\
    treeSize st' = treeSize st + 1 /\
    merkle.stored_tree st' (ds ++ [d]).
Proof.
  intros Hst Hn.
  destruct (stored_tree_append up st ds d Hst Hn) as (m' & tr & Hrun & Hst').
  eexists _, tr. split; [exact Hrun |].
  split; [reflexivity |]. split; [| exact Hst'].
  cbn [treeSize]. rewrite (proj1 Hst). reflexivity.
Qed.

(** X4: on an in-memory store that holds the tree of the records [ds],
    [TreeHash] returns the Merkle tree hash of [ds] and leaves the store as
    it is. *)
Theorem TreeHash_is_Merkle_root (st : memStore) (ds : list string) :
  merkle.stored_tree st ds -> Z.of_nat (length ds) < 2 ^ 62 ->
  exists tr : list event,
    run (mem_handler no_faults up) tree.TreeHash st = Some (Ok (merkle.MTH ds), st, tr).
Proof. apply stored_tree_root. Qed.

(** X5: appending the records [rs] one after the other, at the ids 0, 1,
    ..., to the empty in-memory store succeeds; the tree size is then their
    number and [TreeHash] returns their Merkle tree hash. *)
Theorem add_records_Merkle_root (rs : list string) :
  Z.of_nat (length rs) < 2 ^ 62 ->
  exists (st : memStore) (tr tr' : list event),
    run (mem_handler no_faults up) (add_records 0 rs) emptyStore = Some (Ok tt, st, tr) /\
    treeSize st = Z.of_nat (length rs) /\
    run (mem_handler no_faults up) tree.TreeHash st = Some (Ok (merkle.MTH rs), st, tr').
Proof.
  intros Hn.
  destruct (add_records_stored up rs [] emptyStore (stored_tree_empty emptyStore eq_refl))
    as (st & tr & Hrun & _ & Hst); [cbn [length Nat.add]; exact Hn |].
  cbn [length Z.of_nat app] in Hrun, Hst.
  destruct (stored_tree_root up st rs Hst Hn) as (tr' & Hroot).
  exists st, tr, tr'. split; [exact Hrun |]. split; [exact (proj1 Hst) | exact Hroot].
Qed.

End TreeOnMem.

(** The first append to the empty store. *)
Lemma AddRecord_extends_stored_tree_witness :
  exists (st' : memStore) (tr : list event),
    run (mem_handler no_faults example_upstream) (tree.AddRecord 0 "a v1 h1:x") emptyStore
    = Some (Ok tt, st', tr) /\
    records st' = [] /\
    treeSize st' = 1 /\
    merkle.stored_tree st' ["a v1 h1:x"].
Proof.
  apply (AddRecord_extends_stored_tree example_upstream emptyStore [] "a v1 h1:x").
  - apply stored_tree_empty. reflexivity.
  - vm_compute. reflexivity.
Defined.

(** A store with one leaf. *)
Lemma stored_tree_one (d : string) :
  merkle.stored_tree (mkMem [] {[ 0 := tlog.RecordHash d ]} 1) [d].
Proof.
  split; [reflexivity |].
  intros L k Hk. cbn [length] in Hk. pose proof (pow2_pos L) as Hpos.
  assert (HL : L = 0%nat).
  { destruct L as [| L]; [reflexivity |].
    change (2 ^ S L)%nat with (2 * 2 ^ L)%nat in Hk. pose proof (pow2_pos L). nia. }
  subst L. cbn [Nat.pow] in Hk. assert (k = 0%nat) by lia. subst k.
  cbn [hashes]. reflexivity.
Qed.

Lemma TreeHash_is_Merkle_root_witness :
  exists tr : list event,
    run (mem_handler no_faults example_upstream) tree.TreeHash
        (mkMem [] {[ 0 := tlog.RecordHash "a v1 h1:x" ]} 1)
    = Some (Ok (merkle.MTH ["a v1 h1:x"]),
            mkMem [] {[ 0 := tlog.RecordHash "a v1 h1:x" ]} 1, tr).
Proof.
  apply (TreeHash_is_Merkle_root example_upstream _ ["a v1 h1:x"]).
  - apply stored_tree_one.
  - vm_compute. reflexivity.
Defined.

(** Three records. *)
Lemma add_records_Merkle_root_witness :
  exists (st : memStore) (tr tr' : list event),
    run (mem_handler no_faults example_upstream) (add_records 0 ["a"; "b"; "c"]) emptyStore
    = Some (Ok tt, st, tr) /\
    treeSize st = 3 /\
    run (mem_handler no_faults example_upstream) tree.TreeHash st
    = Some (Ok (merkle.MTH ["a"; "b"; "c"]), st, tr').
Proof.
  apply (add_records_Merkle_root example_upstream ["a"; "b"; "c"]).
  vm_compute. reflexivity.
Defined.

(** ** The coordinator on the in-memory store *)
Section LogTheorems.
Context {sha : Sha256}.
Variable up : upstream.

Lemma consistent_size (st : memStore) :
  consistent_log st -> treeSize st = Z.of_nat (length (records st)).
Proof. intros [_ [Hsize _]]. rewrite Hsize, length_map. reflexivity. Qed.

(** A lookup on a log in order, case by case. *)
Lemma lookup_on_log (m : ModVersion) (st : memStore) :
  consistent_log st -> Z.of_nat (length (records st)) < 2 ^ 62 ->
  exists (r : result Z) (st' : memStore) (tr : list event),
    run (mem_handler no_faults up) (sumdb.Lookup m) st = Some (r, st', tr) /\
    consistent_log st' /\
    match r with
    | Ok id =>
        exists rec : RecordT,
          nth_error (records st') (Z.to_nat id) = Some rec /\ 0 <= id /\
          RecID rec = id /\ RecPath rec = Path m /\ RecVersion rec = Version m /\
          (st' = st \/
           (id = treeSize st /\ treeSize st' = id + 1 /\
            records st' = records st ++ [rec]))
    | Err _ => st' = st
    end.
Proof.
  intros Hlog Hn.
  destruct (mem_RecordID st (Path m) (Version m)) as [id | e] eqn:Hrid.
  { exists (Ok id), st. eexists. split.
    - apply lookup_outcome_run. apply LookupFound.
      cbv [mem_handler no_faults mem_answer]. rewrite Hrid. reflexivity.
    - split; [exact Hlog |].
      destruct (mem_RecordID_found st _ _ id (proj1 Hlog) Hrid)
        as (rec & Hnth & Hid & Hrec & Hp & Hv).
      exists rec. repeat split; auto. }
  assert (He : e = ErrNotFound).
  { unfold mem_RecordID in Hrid. destruct (find _ _); congruence. }
  subst e.
  destruct (up_gomod up m) as [h1mod | e] eqn:Hmod.
  2: { exists (Err (ErrWrap "failed getting h1 hash for go.mod" e)), st. eexists. split.
       - apply lookup_outcome_run. eapply LookupMiss.
         + cbv [mem_handler no_faults mem_answer]. rewrite Hrid. reflexivity.
         + reflexivity.
         + eapply (FetchGoModFails _ m st ErrNotFound st e st).
           * cbv [mem_handler no_faults mem_answer]. rewrite Hrid. reflexivity.
           * reflexivity.
           * cbv [mem_handler no_faults mem_answer]. rewrite Hmod. reflexivity.
       - split; [exact Hlog | reflexivity]. }
  destruct (up_zip up m) as [h1 | e] eqn:Hzip.
  2: { exists (Err (ErrWrap "failed getting h1 hash for module zip" e)), st. eexists. split.
       - apply lookup_outcome_run. eapply LookupMiss.
         + cbv [mem_handler no_faults mem_answer]. rewrite Hrid. reflexivity.
         + reflexivity.
         + eapply (FetchZipFails _ m st ErrNotFound st h1mod st e st).
           * cbv [mem_handler no_faults mem_answer]. rewrite Hrid. reflexivity.
           * reflexivity.
           * cbv [mem_handler no_faults mem_answer]. rewrite Hmod. reflexivity.
           * cbv [mem_handler no_faults mem_answer]. rewrite Hzip. reflexivity.
       - split; [exact Hlog | reflexivity]. }
  destruct (lookup_stores up m st h1 h1mod Hlog Hn Hrid Hmod Hzip)
    as (m' & tr & Hrun & Hlog').
  cbv zeta in Hrun, Hlog'.
  eexists _, _, tr. split; [exact Hrun |]. split; [exact Hlog' |].
  eexists. split.
  - cbn [records]. rewrite Nat2Z.id, nth_error_app2 by lia.
    rewrite Nat.sub_diag. reflexivity.
  - cbn [RecID RecPath RecVersion treeSize records].
    rewrite (consistent_size st Hlog).
    repeat split; auto; try lia.
Qed.

(** X6: on an in-memory store whose log is in order (ids are positions,
    the tree is that of the records' data) and that does not fail,
    [Lookup] returns, whatever the upstream answers, and leaves a log in
    order.  The id it returns is the position of a record of the module;
    that record was there before, and the store is unchanged, or it is new:
    then it was appended at the id that was the tree size, and the tree
    size is one more.  When [Lookup] returns an error the store is
    unchanged. *)
Theorem Lookup_keeps_log_in_order (m : ModVersion) (st : memStore) :
  consistent_log st -> Z.of_nat (length (records st)) < 2 ^ 62 ->
  exists (r : result Z) (st' : memStore) (tr : list event),
    run (mem_handler no_faults up) (sumdb.Lookup m) st = Some (r, st', tr) /\
    consistent_log st' /\
    match r with
    | Ok id =>
        exists rec : RecordT,
          nth_error (records st') (Z.to_nat id) = Some rec /\ 0 <= id /\
          RecID rec = id /\ RecPath rec = Path m /\ RecVersion rec = Version m /\
          (st' = st \/
           (id = treeSize st /\ treeSize st' = id + 1 /\
            records st' = records st ++ [rec]))
    | Err _ => st' = st
    end.
Proof. apply lookup_on_log. Qed.

(** X7: when the store itself does not fail, [Lookup] fails only because
    the upstream failed: the error wraps the upstream's error for the
    go.mod file or for the zip, and the store is left exactly as it was. *)
Theorem Lookup_fails_with_upstream (m : ModVersion) (st st' : memStore) (e : error)
    (tr : list event) :
  run (mem_handler no_faults up) (sumdb.Lookup m) st = Some (Err e, st', tr) ->
  st' = st /\
  ((exists e' : error,
      up_gomod up m = Err e' /\ e = ErrWrap "failed getting h1 hash for go.mod" e') \/
   (exists e' : error,
      up_zip up m = Err e' /\ e = ErrWrap "failed getting h1 hash for module zip" e')).
Proof.
  intros Hrun. apply run_lookup_outcome in Hrun.
  inversion Hrun as [| e0 s1 Hrid Hnf | e0 s1 r s2 tr1 Hrid Hnf Hf]; subst.
  { cbv [mem_handler no_faults mem_answer] in Hrid. injection Hrid as Hrid _.
    unfold mem_RecordID in Hrid. destruct (find _ _); [discriminate |].
    injection Hrid as <-. discriminate. }
  cbv [mem_handler no_faults mem_answer] in Hrid. injection Hrid as Hmiss <-.
  inversion Hf as [| e1 s1' Hrid2 Hnf2
                   | e1 s1' e2 s2' Hrid2 Hnf2 Hmod
                   | e1 s1' h1mod s2' e2 s3 Hrid2 Hnf2 Hmod Hzip
                   | e1 s1' h1mod s2' h1 s3 e2 s4 Hrid2 Hnf2 Hmod Hzip Hadd
                   | e1 s1' h1mod s2' h1 s3 id0 s4 e2 s5 tr2 Hrid2 Hnf2 Hmod Hzip Hadd Happ
                   |]; subst;
    cbv [mem_handler no_faults mem_answer] in Hrid2; injection Hrid2 as Hmiss2 <-.
  - unfold mem_RecordID in Hmiss2. destruct (find _ _); [discriminate |].
    injection Hmiss2 as <-. discriminate.
  - cbv [mem_handler no_faults mem_answer] in Hmod. injection Hmod as Hmod <-.
    split; [reflexivity |]. left. exists e2. split; [exact Hmod | reflexivity].
  - cbv [mem_handler no_faults mem_answer] in Hmod, Hzip.
    injection Hmod as Hmod <-. injection Hzip as Hzip <-.
    split; [reflexivity |]. right. exists e2. split; [exact Hzip | reflexivity].
  - cbv [mem_handler no_faults mem_answer] in Hmod, Hzip, Hadd.
    injection Hmod as Hmod <-. injection Hzip as Hzip <-.
    unfold mem_AddRecord in Hadd. cbn [built_record RecPath RecVersion] in Hadd.
    unfold mem_RecordID in Hmiss2.
    destruct (find _ _); [discriminate Hmiss2 | discriminate Hadd].
  - exfalso.
    inversion Happ as [e3 s6 Hread | old s6 Hread Hlen
                       | old s6 hs e3 s7 Hread Hlen Hhs Hw
                       | old s6 hs s7 e3 s8 Hread Hlen Hhs Hw Hs |]; subst;
      cbv [mem_handler no_faults mem_answer] in Hread.
    + discriminate.
    + injection Hread as <- <-. apply Hlen.
      unfold mem_ReadHashes. rewrite length_map. apply read_indexes_length.
    + injection Hread as <- <-.
      cbv [mem_handler no_faults mem_answer] in Hw.
      destruct (write_hashes _ _ _); discriminate.
    + injection Hread as <- <-.
      cbv [mem_handler no_faults mem_answer] in Hw, Hs.
      destruct (write_hashes _ _ _); [| discriminate].
      injection Hw as <-. discriminate.
Qed.

End LogTheorems.

Section MoreLookup.
Context {sha : Sha256}.

(** X8: whatever the store and the upstream answer, a run of [Lookup] in
    which the zip is requested starts with the two queries of the store
    that missed and the go.mod request that succeeded; and a run in which
    the store is changed (a record added, hashes written, the tree size
    set) starts with those and the zip request that succeeded: nothing is
    written before both hashes are there. *)
Theorem Lookup_fetches_before_writing {S : Type} (h : handler S) (m : ModVersion)
    (s s' : S) (r : result Z) (tr : list event) :
  run h (sumdb.Lookup m) s = Some (r, s', tr) ->
  (existsb is_zip tr = true ->
   exists (e0 e1 : error) (h1mod : string) (rest : list event),
     tr = Ev (OpRecordID (Path m) (Version m)) (Err e0)
          :: Ev (OpRecordID (Path m) (Version m)) (Err e1)
          :: Ev (OpGoMod m) (Ok h1mod) :: rest) /\
  (existsb is_mutation tr = true ->
   exists (e0 e1 : error) (h1mod h1 : string) (rest : list event),
     tr = Ev (OpRecordID (Path m) (Version m)) (Err e0)
          :: Ev (OpRecordID (Path m) (Version m)) (Err e1)
          :: Ev (OpGoMod m) (Ok h1mod) :: Ev (OpZip m) (Ok h1) :: rest).
Proof.
  intros Hrun. apply run_lookup_outcome in Hrun.
  inversion Hrun as [id0 s1 Hrid | e0 s1 Hrid Hnf | e0 s1 r1 s2 tr1 Hrid Hnf Hf]; subst;
    try (split; cbn; discriminate).
  inversion Hf as [id0 s1' Hrid2 | e1 s1' Hrid2 Hnf2
                   | e1 s1' e2 s2' Hrid2 Hnf2 Hmod
                   | e1 s1' h1mod s2' e2 s3 Hrid2 Hnf2 Hmod Hzip
                   | e1 s1' h1mod s2' h1 s3 e2 s4 Hrid2 Hnf2 Hmod Hzip Hadd
                   | e1 s1' h1mod s2' h1 s3 id0 s4 e2 s5 tr2 Hrid2 Hnf2 Hmod Hzip Hadd Happ
                   | e1 s1' h1mod s2' h1 s3 id0 s4 s5 tr2 Hrid2 Hnf2 Hmod Hzip Hadd Happ];
    subst; try (split; cbn; discriminate).
  - split; [| cbn; discriminate]. intros _. eexists _, _, _, _. reflexivity.
  - split; [| cbn; discriminate]. intros _. eexists _, _, _, _. reflexivity.
  - split; intros _; [eexists _, _, _, _ | eexists _, _, _, _, _]; reflexivity.
  - split; intros _; [eexists _, _, _, _ | eexists _, _, _, _, _]; reflexivity.
Qed.

End MoreLookup.

(** ** Reading the log *)

Lemma filter_range (l : list RecordT) (base id n : Z) :
  (forall (i : nat) (r : RecordT), nth_error l i = Some r -> RecID r = base + Z.of_nat i) ->
  List.filter (fun r => (id <=? RecID r) && (RecID r <? id + n)) l
  = firstn (Z.to_nat (id + n - base) - Z.to_nat (id - base))
           (skipn (Z.to_nat (id - base)) l).
Proof.
  revert base. induction l as [| r l IH]; intros base Hseq.
  - cbn [List.filter]. rewrite skipn_nil, firstn_nil. reflexivity.
  - pose proof (Hseq 0%nat r eq_refl) as Hr. cbn in Hr. rewrite Z.add_0_r in Hr.
    assert (Hseq' : forall (i : nat) (r0 : RecordT),
              nth_error l i = Some r0 -> RecID r0 = base + 1 + Z.of_nat i).
    { intros i r0 Hi. rewrite (Hseq (S i) r0 Hi). lia. }
    specialize (IH (base + 1) Hseq').
    cbn [List.filter]. rewrite Hr, IH.
    destruct (id <=? base) eqn:Hlo; cbn [andb].
    + apply Z.leb_le in Hlo.
      replace (Z.to_nat (id - base)) with 0%nat by lia.
      replace (Z.to_nat (id - (base + 1))) with 0%nat by lia.
      cbn [skipn]. rewrite !Nat.sub_0_r.
      destruct (base <? id + n) eqn:Hhi.
      * apply Z.ltb_lt in Hhi.
        replace (Z.to_nat (id + n - base)) with (S (Z.to_nat (id + n - (base + 1)))) by lia.
        reflexivity.
      * apply Z.ltb_ge in Hhi.
        replace (Z.to_nat (id + n - base)) with 0%nat by lia.
        replace (Z.to_nat (id + n - (base + 1))) with 0%nat by lia.
        reflexivity.
    + apply Z.leb_gt in Hlo.
      replace (Z.to_nat (id - base)) with (S (Z.to_nat (id - (base + 1)))) by lia.
      cbn [skipn]. f_equal. lia.
Qed.

Section ReadTheorems.
Context {sha : Sha256}.
Variable up : upstream.

Lemma ReadRecords_mem (st : memStore) (id n : Z) :
  sequential_ids st -> 0 <= id -> 0 <= n ->
  run (mem_handler no_faults up) (sumdb.ReadRecords id n) st
  = Some (Ok (firstn (Z.to_nat n) (skipn (Z.to_nat id) (map RecData (records st)))), st,
          [Ev (OpRecords id n) (Ok (mem_Records st id n))]).
Proof.
  intros Hseq Hid Hn. unfold sumdb.ReadRecords. cbn [bind call run].
  change (mem_handler no_faults up _ (OpRecords id n) st)
    with (Some (Ok (mem_Records st id n), st)).
  cbv beta iota. cbn [run]. do 3 f_equal.
  unfold mem_Records. rewrite (filter_range _ 0).
  - rewrite !Z.sub_0_r.
    replace (Z.to_nat (id + n) - Z.to_nat id)%nat with (Z.to_nat n) by lia.
    rewrite <- firstn_map, <- skipn_map. reflexivity.
  - intros i r Hi. rewrite (Hseq i r Hi). lia.
Qed.

(** X10: on an in-memory store whose ids are the positions, [ReadRecords]
    returns the data of the records from position [id] on, [n] of them or
    as many as there are, in order, and leaves the store as it is. *)
Theorem ReadRecords_slice (st : memStore) (id n : Z) :
  sequential_ids st -> 0 <= id -> 0 <= n ->
  run (mem_handler no_faults up) (sumdb.ReadRecords id n) st
  = Some (Ok (firstn (Z.to_nat n) (skipn (Z.to_nat id) (map RecData (records st)))), st,
          [Ev (OpRecords id n) (Ok (mem_Records st id n))]).
Proof. apply ReadRecords_mem. Qed.

(** X11: on an in-memory store whose log is in order, the id that [Lookup]
    returns for a module reads back, through [ReadRecords], as the data of
    a record of that module. *)
Theorem Lookup_then_ReadRecords (m : ModVersion) (st st' : memStore) (id : Z)
    (tr : list event) :
  consistent_log st -> Z.of_nat (length (records st)) < 2 ^ 62 ->
  run (mem_handler no_faults up) (sumdb.Lookup m) st = Some (Ok id, st', tr) ->
  exists (rec : RecordT) (tr' : list event),
    In rec (records st') /\ RecPath rec = Path m /\ RecVersion rec = Version m /\
    run (mem_handler no_faults up) (sumdb.ReadRecords id 1) st'
    = Some (Ok [RecData rec], st', tr').
Proof.
  intros Hlog Hn Hrun.
  destruct (lookup_on_log up m st Hlog Hn)
    as (r & st1 & tr1 & Hrun1 & Hlog1 & Hres).
  rewrite Hrun in Hrun1. injection Hrun1 as <- <- <-.
  destruct Hres as (rec & Hnth & Hid & _ & Hp & Hv & _).
  exists rec. eexists. split; [eapply nth_error_In; exact Hnth |].
  split; [exact Hp |]. split; [exact Hv |].
  rewrite (ReadRecords_mem st' id 1 (proj1 Hlog1)) by lia.
  do 3 f_equal.
  change (Z.to_nat 1) with 1%nat.
  rewrite skipn_map.
  apply nth_error_split in Hnth as (l1 & l2 & Hsplit & Hlen).
  rewrite Hsplit, <- Hlen.
  rewrite skipn_app, skipn_all, Nat.sub_diag. reflexivity.
Qed.

End ReadTheorems.

(** ** The signed tree head *)
Section SignedTheorems.
Context {sha : Sha256}.

(** X9: on an in-memory store whose log is in order, [Signed] returns a
    note that verifies, under the verifier of the signer, to the number of
    records and the Merkle tree hash of their data; the store is left as it
    is. *)
Theorem Signed_log_root (s : note.Signer) (v : note.Verifier) (up : upstream)
    (st : memStore) :
  key_ok s -> matches s v ->
  consistent_log st -> Z.of_nat (length (records st)) < 2 ^ 62 ->
  exists (signed : string) (tr : list event),
    run (mem_handler no_faults up) (sumdb.Signed s) st = Some (Ok signed, st, tr) /\
    signer.VerifyTreeHead v signed
    = Ok (mkTree (Z.of_nat (length (records st)))
                 (merkle.MTH (map RecData (records st)))).
Proof.
  intros Hkey Hmatch Hlog Hn.
  pose proof (consistent_size st Hlog) as Hsize.
  destruct Hlog as [_ Hst].
  destruct (stored_tree_root up st _ Hst) as (tr' & Hhash).
  { rewrite length_map. exact Hn. }
  set (root := merkle.MTH (map RecData (records st))) in *.
  destruct Hmatch as (Hvn & Hvh & Hsigs).
  destruct (Hsigs (tlog.FormatTree (mkTree (treeSize st) root)))
    as (sig & Hsig & Hne & Hver).
  destruct (sign_verify_with s v (mkTree (treeSize st) root) sig Hkey Hvn Hvh Hsig Hne Hver)
    as (Hsign & Hverify); [cbn [TreeN]; lia |].
  eexists _, _. split.
  - unfold sumdb.Signed. cbn [bind call run].
    change (mem_handler no_faults up _ OpTreeSize st) with (Some (Ok (treeSize st), st)).
    cbv beta iota.
    rewrite run_bind, Hhash. cbn [run]. rewrite Hsign. cbn [run]. reflexivity.
  - rewrite Hverify, Hsize. reflexivity.
Qed.

(** X12: whatever the store answers, [Signed] only reads the tree: it asks
    for the tree size and for stored hashes, at most three times in all,
    and performs no other operation. *)
Theorem Signed_reads_only {S : Type} (h : handler S) (s : note.Signer) (st st' : S)
    (r : result string) (tr : list event) :
  run h (sumdb.Signed s) st = Some (r, st', tr) ->
  forallb is_tree_read tr = true /\ (length tr <= 3)%nat /\
  existsb is_mutation tr = false.
Proof.
  unfold sumdb.Signed, tree.TreeHash, tlog.TreeHash. cbn [bind call run].
  destruct (h _ OpTreeSize st) as [[[size | e] s1] |]; [| | discriminate]; cbn [run].
  2: { intros [= <- <- <-]. repeat split. cbn. lia. }
  destruct (h _ OpTreeSize s1) as [[[size2 | e] s2] |]; [| | discriminate]; cbn [run].
  2: { intros [= <- <- <-]. repeat split. cbn. lia. }
  destruct (size2 =? 0); cbn [bind run].
  { destruct (signer.SignTreeHead s (mkTree size zeroHash)); cbn [run];
      intros [= <- <- <-]; repeat split; cbn; lia. }
  destruct (tlog.subTreeIndex 64 0 size2 []) as [indexes |]; [| discriminate].
  cbn [bind call run].
  destruct (h _ (OpReadHashes indexes) s2) as [[[hs | e] s3] |]; [| | discriminate];
    cbn [run].
  2: { intros [= <- <- <-]. repeat split. cbn. lia. }
  destruct (negb _); cbn [run].
  { intros [= <- <- <-]. repeat split. cbn. lia. }
  destruct (tlog.subTreeHash 0 size2 hs) as [[hash [| x rest]] |]; cbn [bind run];
    try discriminate.
  destruct (signer.SignTreeHead s (mkTree size hash)); cbn [run]; intros [= <- <- <-];
    repeat split; cbn; lia.
Qed.

(** X13: a store that reports a negative tree size makes [TreeHash], and
    with it [Signed], panic (an index out of range in tlog) instead of
    returning an error. *)
Theorem TreeHash_negative_size_panics (s : note.Signer) (up : upstream) (st : memStore) :
  treeSize st < 0 ->
  run (mem_handler no_faults up) tree.TreeHash st = None /\
  run (mem_handler no_faults up) (sumdb.Signed s) st = None.
Proof.
  intros Hneg.
  assert (Hhash : run (mem_handler no_faults up) tree.TreeHash st = None).
  { unfold tree.TreeHash. cbn [bind call run].
    change (mem_handler no_faults up _ OpTreeSize st) with (Some (Ok (treeSize st), st)).
    cbv beta iota.
    destruct (treeSize st =? 0) eqn:H0; [lia |].
    rewrite run_bind. unfold tlog.TreeHash. rewrite H0.
    rewrite subTreeIndex_done by lia.
    cbn [bind call run]. cbv [mem_handler no_faults mem_answer mem_ReadHashes map length].
    cbn [Nat.eqb negb].
    unfold tlog.subTreeHash.
    assert (Hc : tlog.count_trees 64 0 (treeSize st) 0 = Some 0%nat).
    { cbn [tlog.count_trees]. assert (Hlt : (0 <? treeSize st) = false) by lia.
      rewrite Hlt. reflexivity. }
    rewrite Hc. reflexivity. }
  split; [exact Hhash |].
  unfold sumdb.Signed. cbn [bind call run].
  change (mem_handler no_faults up _ OpTreeSize st) with (Some (Ok (treeSize st), st)).
  cbv beta iota. rewrite run_bind, Hhash. reflexivity.
Qed.

End SignedTheorems.

(** ** Verifying what a signer signed *)

(** [Open] of a note with one signature line, for any verifier: the note
    when the verifier has the signer's name and key hash and accepts the
    signature, "invalid signature" when it has them and refuses, "no
    verifiable signatures" when it is the verifier of another key. *)
Lemma Open_signed_by (s : note.Signer) (v : note.Verifier) (body sig : string) :
  key_ok s ->
  sig <> EmptyString ->
  utf8.all_runes note.rune_ok 0 (body +:+ nl) = true ->
  note.Open ((body +:+ nl) +:+ nl +:+ signature_line s sig) [v]
  = if String.eqb (note.v_Name v) (note.s_Name s) && (note.v_KeyHash v =? note.s_KeyHash s)
    then
      if note.v_Verify v (body +:+ nl) sig
      then Ok (note.mkNote (body +:+ nl)
                 [note.mkSignature (note.s_Name s) (note.s_KeyHash s)
                    (base64.EncodeToString (note.PutUint32 (note.s_KeyHash s) +:+ sig))]
                 [])
      else Err note.errInvalidSignature
    else Err note.errUnverifiedNote.
Proof.
  intros (Hname & Hctl & Hhash) Hsig Hbody.
  destruct (isValidName_bytes _ Hname) as (Hne & Hnosp & Hnonl).
  set (name := note.s_Name s) in *. set (hash := note.s_KeyHash s) in *.
  set (b64 := base64.EncodeToString (note.PutUint32 hash +:+ sig)).
  assert (Hb64p : str_all is_plain b64 = true) by apply EncodeToString_plain.
  set (B := note.sigPrefix +:+ name +:+ " " +:+ b64).
  assert (Hline : signature_line s sig = B +:+ nl).
  { unfold signature_line, B. fold name hash b64. rewrite !str_app_assoc. reflexivity. }
  assert (HBnl : str_all (not_char nl_char) B = true).
  { unfold B. rewrite !str_all_app, Hnonl, (plain_no_nl _ Hb64p). reflexivity. }
  assert (HBne : B <> EmptyString) by (unfold B; discriminate).
  assert (Hmsg : (body +:+ nl) +:+ nl +:+ signature_line s sig
                 = body +:+ String nl_char (String nl_char (B +:+ nl))).
  { rewrite Hline, str_app_assoc. reflexivity. }
  unfold note.Open.
  assert (Hrunes : utf8.all_runes note.rune_ok 0
                     ((body +:+ nl) +:+ nl +:+ signature_line s sig) = true).
  { rewrite (all_runes_app _ rune_ok_valid) by exact Hbody.
    rewrite (all_runes_app _ rune_ok_valid) by reflexivity.
    unfold signature_line. fold name hash b64.
    rewrite (all_runes_app _ rune_ok_valid) by reflexivity.
    rewrite (all_runes_app _ rune_ok_valid) by exact Hctl.
    rewrite (all_runes_app _ rune_ok_valid) by reflexivity.
    rewrite (all_runes_app _ rune_ok_valid)
      by (apply all_runes_text; eapply str_all_impl; [apply plain_text | exact Hb64p]).
    reflexivity. }
  rewrite Hrunes. cbn [negb].
  rewrite Hmsg, last_blank_line_app by assumption.
  cbn [Nat.add].
  assert (Htake : str_take (String.length body + 1)
                    (body +:+ String nl_char (String nl_char (B +:+ nl))) = body +:+ nl).
  { replace (String.length body + 1)%nat with (String.length (body +:+ nl))
      by (rewrite str_length_app; reflexivity).
    change (body +:+ String nl_char (String nl_char (B +:+ nl)))
      with (body +:+ nl +:+ String nl_char (B +:+ nl)).
    rewrite <- str_app_assoc. apply str_take_app. }
  assert (Hdrop : str_drop (String.length body + 2)
                    (body +:+ String nl_char (String nl_char (B +:+ nl))) = B +:+ nl).
  { replace (String.length body + 2)%nat
      with (String.length (body +:+ String nl_char (String nl_char EmptyString)))
      by (rewrite str_length_app; reflexivity).
    change (body +:+ String nl_char (String nl_char (B +:+ nl)))
      with (body +:+ (String nl_char (String nl_char EmptyString)) +:+ (B +:+ nl)).
    rewrite <- str_app_assoc. apply str_drop_app. }
  rewrite Htake, Hdrop.
  assert (HBnl_ne : String.eqb (B +:+ nl) EmptyString = false).
  { unfold B. reflexivity. }
  rewrite HBnl_ne, ends_with_nl_app. cbn [orb negb].
  assert (Hfuel : exists f, String.length (B +:+ nl) = S f).
  { unfold B. eexists. reflexivity. }
  destruct Hfuel as [f ->].
  assert (HBnl' : B +:+ nl <> EmptyString) by (unfold B; discriminate).
  clear Hline Hmsg Hrunes Htake Hdrop HBnl_ne.
  destruct (B +:+ nl) as [| c0 r0] eqn:HBeq; [congruence |].
  cbn [note.open_sigs]. rewrite <- HBeq. clear HBeq c0 r0 HBnl'.
  unfold nl at 1. rewrite cut_at_app by exact HBnl.
  assert (Hpre : HasPrefix B note.sigPrefix = true) by (unfold B; apply HasPrefix_app).
  rewrite Hpre. cbn [negb].
  assert (Hrest : str_drop (String.length note.sigPrefix) B = name +:+ " " +:+ b64).
  { unfold B. apply str_drop_app. }
  rewrite Hrest. unfold note.chop.
  change (name +:+ " " +:+ b64) with (name +:+ String " "%char b64).
  rewrite cut_at_app by exact Hnosp.
  unfold b64 at 1. rewrite DecodeString_EncodeToString.
  rewrite Hname. unfold b64 at 1. unfold note.PutUint32 at 1. cbn [append].
  rewrite EncodeToString_nonempty.
  rewrite PutUint32_length.
  assert (Hlen : (4 + String.length sig <? 5)%nat = false).
  { destruct sig; [congruence |]. reflexivity. }
  rewrite Hlen. cbn [negb orb].
  rewrite Uint32_PutUint32 by exact Hhash. rewrite PutUint32_drop.
  cbn [Nat.ltb Nat.leb].
  unfold note.find_verifier. cbn [List.filter].
  destruct (String.eqb (note.v_Name v) name && (note.v_KeyHash v =? hash)) eqn:Hkey.
  - cbn [existsb].
    destruct (note.v_Verify v (body +:+ nl) sig); cbn [negb]; [| reflexivity].
    cbn [app note.Sigs note.Text note.UnverifiedSigs].
    destruct f; reflexivity.
  - cbn [note.error_is_unknown note.errUnknownVerifier String.eqb Ascii.eqb Bool.eqb existsb].
    destruct f; reflexivity.
Qed.

(** The signed head of a tree, for any verifier. *)
Lemma verify_signed_by (s : note.Signer) (v : note.Verifier) (t : Tree) (sig : string) :
  key_ok s ->
  note.s_Sign s (tlog.FormatTree t) = Ok sig ->
  sig <> EmptyString ->
  0 <= TreeN t < 2 ^ 63 ->
  signer.SignTreeHead s t = Ok (tlog.FormatTree t +:+ nl +:+ signature_line s sig) /\
  signer.VerifyTreeHead v (tlog.FormatTree t +:+ nl +:+ signature_line s sig)
  = if String.eqb (note.v_Name v) (note.s_Name s) && (note.v_KeyHash v =? note.s_KeyHash s)
    then
      if note.v_Verify v (tlog.FormatTree t) sig then Ok t
      else Err (ErrWrap2 ErrVerifyFailed note.errInvalidSignature)
    else Err (ErrWrap2 ErrVerifyFailed note.errUnverifiedNote).
Proof.
  intros Hkey Hsig Hne HN. split.
  - unfold signer.SignTreeHead. apply Sign_one.
    + rewrite FormatTree_body. apply ends_with_nl_app.
    + apply Hkey.
    + exact Hsig.
  - unfold signer.VerifyTreeHead.
    pose proof (all_runes_text _ (FormatTree_text t ltac:(lia))) as Hrunes.
    rewrite FormatTree_body in Hrunes |- *.
    rewrite (Open_signed_by s v _ sig Hkey Hne Hrunes).
    destruct (_ && _); [| reflexivity].
    destruct (note.v_Verify v _ sig); [| reflexivity].
    cbn [note.Text]. rewrite <- FormatTree_body.
    rewrite ParseTree_FormatTree by exact HN. reflexivity.
Qed.

(** X15: a tree head signed by one key does not verify under the verifier
    of another key (another name or another key hash): [VerifyTreeHead]
    reports [ErrVerifyFailed], wrapping "note has no verifiable
    signatures". *)
Theorem VerifyTreeHead_rejects_other_key (s : note.Signer) (v : note.Verifier) (t : Tree)
    (sig : string) :
  key_ok s ->
  note.s_Sign s (tlog.FormatTree t) = Ok sig -> sig <> EmptyString ->
  0 <= TreeN t < 2 ^ 63 ->
  note.v_Name v <> note.s_Name s \/ note.v_KeyHash v <> note.s_KeyHash s ->
  exists signed : string,
    signer.SignTreeHead s t = Ok signed /\
    signer.VerifyTreeHead v signed = Err (ErrWrap2 ErrVerifyFailed note.errUnverifiedNote) /\
    errors_Is (ErrWrap2 ErrVerifyFailed note.errUnverifiedNote) ErrVerifyFailed = true.
Proof.
  intros Hkey Hsig Hne HN Hother.
  destruct (verify_signed_by s v t sig Hkey Hsig Hne HN) as [Hsign Hverify].
  eexists. split; [exact Hsign |]. split; [| reflexivity].
  rewrite Hverify.
  destruct (String.eqb (note.v_Name v) (note.s_Name s)) eqn:Hn; cbn [andb]; [| reflexivity].
  destruct (note.v_KeyHash v =? note.s_KeyHash s) eqn:Hh; [| reflexivity].
  apply String.eqb_eq in Hn. apply Z.eqb_eq in Hh. destruct Hother; contradiction.
Qed.

(** X16: a tree head whose signature the verifier of the signing key
    refuses does not verify: [VerifyTreeHead] reports [ErrVerifyFailed],
    wrapping "invalid signature". *)
Theorem VerifyTreeHead_rejects_refused_signature (s : note.Signer) (v : note.Verifier)
    (t : Tree) (sig : string) :
  key_ok s ->
  note.s_Sign s (tlog.FormatTree t) = Ok sig -> sig <> EmptyString ->
  0 <= TreeN t < 2 ^ 63 ->
  note.v_Name v = note.s_Name s -> note.v_KeyHash v = note.s_KeyHash s ->
  note.v_Verify v (tlog.FormatTree t) sig = false ->
  exists signed : string,
    signer.SignTreeHead s t = Ok signed /\
    signer.VerifyTreeHead v signed = Err (ErrWrap2 ErrVerifyFailed note.errInvalidSignature) /\
    errors_Is (ErrWrap2 ErrVerifyFailed note.errInvalidSignature) ErrVerifyFailed = true.
Proof.
  intros Hkey Hsig Hne HN Hvn Hvh Hrefused.
  destruct (verify_signed_by s v t sig Hkey Hsig Hne HN) as [Hsign Hverify].
  eexists. split; [exact Hsign |]. split; [| reflexivity].
  rewrite Hverify, Hvn, Hvh, String.eqb_refl, Z.eqb_refl, Hrefused. reflexivity.
Qed.

(** ** What a verified note proves *)

Lemma find_verifier_known (known : list note.Verifier) (name : string) (hash : Z)
    (v : note.Verifier) :
  note.find_verifier known name hash = Ok v -> In v known.
Proof.
  unfold note.find_verifier.
  destruct (List.filter _ known) as [| v0 [| v1 l]] eqn:Hf; try discriminate.
  intros [= <-].
  assert (Hin : In v0 (List.filter
                         (fun v => String.eqb (note.v_Name v) name && (note.v_KeyHash v =? hash))
                         known)) by (rewrite Hf; left; reflexivity).
  apply filter_In in Hin. apply Hin.
Qed.

(** The signature loop of [Open] keeps the text, and lists a signature as
    verified only after a known verifier accepted a signature of the
    text. *)
Lemma open_sigs_sound (fuel : nat) (known : list note.Verifier) (text sigs : string)
    (seen : list (string * Z)) (seenU : list string) (numSig : nat) (n0 n : note.Note) :
  note.open_sigs fuel known text sigs seen seenU numSig n0 = Ok n ->
  note.Text n = note.Text n0 /\
  (note.Sigs n <> [] ->
   note.Sigs n0 <> [] \/
   exists (v : note.Verifier) (sig : string), In v known /\ note.v_Verify v text sig = true).
Proof.
  revert sigs seen seenU numSig n0.
  induction fuel as [| f IH]; intros sigs seen seenU numSig n0; cbn [note.open_sigs].
  - destruct sigs; [| discriminate]. intros [= <-]. split; [reflexivity | auto].
  - destruct sigs as [| c r]; [intros [= <-]; split; [reflexivity | auto] |].
    destruct (cut_at nl_char (String c r)) as [[line0 sigs1] |]; [| discriminate].
    destruct (negb (HasPrefix line0 note.sigPrefix)); [discriminate |].
    destruct (note.chop _) as [name b64].
    destruct (base64.DecodeString b64) as [sig |]; [| discriminate].
    destruct (_ || _); [discriminate |].
    destruct (_ <? _)%nat; [discriminate |].
    destruct (note.find_verifier known name (note.Uint32 sig)) as [v | e0] eqn:Hfind.
    + destruct (existsb _ seen); [apply IH |].
      destruct (note.v_Verify v text (str_drop 4 sig)) eqn:Hver; cbn [negb]; [| discriminate].
      intros Hrec. apply IH in Hrec as [Htext Hsigs]. cbn [note.Text note.Sigs] in *.
      split; [exact Htext |]. intros _. right.
      exists v, (str_drop 4 sig). split; [eapply find_verifier_known; exact Hfind | exact Hver].
    + destruct (note.error_is_unknown e0); [| discriminate].
      destruct (existsb _ seenU); [apply IH |].
      intros Hrec. apply IH in Hrec as [Htext Hsigs]. cbn [note.Text note.Sigs] in *.
      split; [exact Htext | exact Hsigs].
Qed.

Lemma str_take_drop (k : nat) (s : string) : s = str_take k s +:+ str_drop k s.
Proof.
  revert k. induction s as [| c s IH]; intros k.
  - destruct k; reflexivity.
  - destruct k as [| k]; [reflexivity |]. cbn [str_take str_drop append]. f_equal. apply IH.
Qed.

(** A note that [Open] returns carries a signature that a known verifier
    accepted for its text, and the text starts the message. *)
Lemma Open_sound (msg : string) (known : list note.Verifier) (n : note.Note) :
  note.Open msg known = Ok n ->
  (exists rest : string, msg = note.Text n +:+ rest) /\
  exists (v : note.Verifier) (sig : string),
    In v known /\ note.v_Verify v (note.Text n) sig = true.
Proof.
  unfold note.Open.
  destruct (negb _); [discriminate |].
  destruct (note.last_blank_line msg 0 None) as [split |]; [| discriminate].
  destruct (_ || _); [discriminate |].
  destruct (note.open_sigs _ _ _ _ _ _ _ _) as [n1 | e] eqn:Hsigs; [| discriminate].
  destruct (note.Sigs n1) as [| sg sgs] eqn:Hn1; [discriminate |].
  intros [= <-].
  apply open_sigs_sound in Hsigs as [Htext Hsound]. cbn [note.Text note.Sigs] in *.
  rewrite Htext. split.
  - eexists. apply str_take_drop.
  - destruct Hsound as [Hno | Hyes]; [rewrite Hn1; discriminate | congruence | exact Hyes].
Qed.

Lemma ParseTree_size (text : string) (t : Tree) :
  tlog.ParseTree text = Ok t -> 0 <= TreeN t.
Proof.
  unfold tlog.ParseTree.
  destruct (_ || _); [discriminate |].
  destruct (SplitN_nl text 4) as [| l0 [| l1 [| l2 ls]]]; try discriminate.
  destruct (strconv.ParseInt l1) as [n |]; [| discriminate].
  destruct (n <? 0) eqn:Hneg; [discriminate |]. cbn [orb].
  destruct (negb _); [discriminate |].
  destruct (base64.DecodeString l2) as [h |]; [| discriminate].
  destruct (tlog.hash_of_bytes h); [| discriminate].
  intros [= <-]. cbn [TreeN]. lia.
Qed.

(** X14: a tree head that [VerifyTreeHead] returns was signed: the note
    starts with a text of which the verifier accepted a signature, and the
    tree head is what that text parses to; its size is not negative. *)
Theorem VerifyTreeHead_sound (v : note.Verifier) (signed : string) (t : Tree) :
  signer.VerifyTreeHead v signed = Ok t ->
  exists text rest sig : string,
    signed = text +:+ rest /\
    note.v_Verify v text sig = true /\
    tlog.ParseTree text = Ok t /\
    0 <= TreeN t.
Proof.
  unfold signer.VerifyTreeHead.
  destruct (note.Open signed [v]) as [n | e] eqn:Hopen; [| discriminate].
  destruct (tlog.ParseTree (note.Text n)) as [t0 | e] eqn:Hparse; [| discriminate].
  intros [= <-].
  apply Open_sound in Hopen as [[rest Hrest] (v0 & sig & Hin & Hver)].
  destruct Hin as [<- | []].
  exists (note.Text n), rest, sig.
  repeat split; auto. eapply ParseTree_size. exact Hparse.
Qed.

(** ** Instances *)

Lemma consistent_empty {sha : Sha256} : consistent_log emptyStore.
Proof.
  split.
  - intros i r Hi. destruct i; discriminate Hi.
  - apply stored_tree_empty. reflexivity.
Qed.

Lemma example_signature_nonempty (msg : string) : example_signature msg <> EmptyString.
Proof.
  unfold example_signature. pose proof (hlen (sha256.Sum256 msg)) as Hl.
  destruct (hbytes (sha256.Sum256 msg)); [discriminate Hl | discriminate].
Qed.

(** A first lookup on the empty store. *)
Lemma Lookup_keeps_log_in_order_witness :
  exists (r : result Z) (st' : memStore) (tr : list event),
    run (mem_handler no_faults example_upstream) (sumdb.Lookup example_mod) emptyStore
    = Some (r, st', tr) /\
    consistent_log st'.
Proof.
  destruct (Lookup_keeps_log_in_order example_upstream example_mod emptyStore)
    as (r & st' & tr & Hrun & Hlog & _).
  - exact consistent_empty.
  - vm_compute. reflexivity.
  - exists r, st', tr. split; [exact Hrun | exact Hlog].
Defined.

(** A lookup while the upstream is down. *)
Lemma Lookup_fails_with_upstream_witness :
  exists (e : error) (st : memStore) (tr : list event),
    run (mem_handler no_faults down_upstream) (sumdb.Lookup example_mod) emptyStore
    = Some (Err e, st, tr) /\
    st = emptyStore.
Proof.
  destruct (run (mem_handler no_faults down_upstream) (sumdb.Lookup example_mod)
              emptyStore) as [[[[id | e] st] tr] |] eqn:Hrun;
    try (vm_compute in Hrun; discriminate).
  exists e, st, tr. split; [reflexivity |].
  exact (proj1 (Lookup_fails_with_upstream down_upstream example_mod emptyStore st e tr Hrun)).
Defined.

Lemma Lookup_fetches_before_writing_witness :
  exists (st : memStore) (tr rest : list event) (e0 e1 : error) (h1mod h1 : string),
    run (mem_handler no_faults example_upstream) (sumdb.Lookup example_mod) emptyStore
    = Some (Ok 0, st, tr) /\
    tr = Ev (OpRecordID "example.com/new" "v1.0.0") (Err e0)
         :: Ev (OpRecordID "example.com/new" "v1.0.0") (Err e1)
         :: Ev (OpGoMod example_mod) (Ok h1mod) :: Ev (OpZip example_mod) (Ok h1) :: rest.
Proof.
  destruct (run (mem_handler no_faults example_upstream) (sumdb.Lookup example_mod)
              emptyStore) as [[[[id | e] st] tr] |] eqn:Hrun;
    try (vm_compute in Hrun; discriminate).
  assert (Hid : id = 0) by (vm_compute in Hrun; congruence).
  subst id.
  assert (Hmut : existsb is_mutation tr = true).
  { pose proof Hrun as Hc. vm_compute in Hc. injection Hc as _ <-. reflexivity. }
  destruct (proj2 (Lookup_fetches_before_writing _ example_mod emptyStore st (Ok 0) tr Hrun) Hmut)
    as (e0 & e1 & h1mod & h1 & rest & Htr).
  exists st, tr, rest, e0, e1, h1mod, h1. auto.
Defined.

(** The signed head of the empty log. *)
Lemma Signed_log_root_witness :
  exists (signed : string) (tr : list event),
    run (mem_handler no_faults example_upstream) (sumdb.Signed example_signer) emptyStore
    = Some (Ok signed, emptyStore, tr) /\
    signer.VerifyTreeHead example_verifier signed = Ok (mkTree 0 (merkle.MTH [])).
Proof.
  apply (Signed_log_root example_signer example_verifier example_upstream emptyStore).
  - exact example_key_ok.
  - exact example_matches.
  - exact consistent_empty.
  - vm_compute. reflexivity.
Defined.

Lemma two_records_sequential : sequential_ids two_records.
Proof.
  intros i r. destruct i as [| [| i]]; cbn; intros Hi;
    [injection Hi as <-; reflexivity | injection Hi as <-; reflexivity |].
  destruct i; discriminate.
Qed.

(** The second of two records. *)
Lemma ReadRecords_slice_witness :
  run (mem_handler no_faults example_upstream) (sumdb.ReadRecords 1 5) two_records
  = Some (Ok ["second"], two_records,
          [Ev (OpRecords 1 5) (Ok (mem_Records two_records 1 5))]).
Proof.
  apply (ReadRecords_slice example_upstream two_records 1 5).
  - exact two_records_sequential.
  - lia.
  - lia.
Defined.

Lemma Lookup_then_ReadRecords_witness :
  exists (st : memStore) (tr tr' : list event) (rec : RecordT),
    run (mem_handler no_faults example_upstream) (sumdb.Lookup example_mod) emptyStore
    = Some (Ok 0, st, tr) /\
    RecPath rec = "example.com/new" /\ RecVersion rec = "v1.0.0" /\
    run (mem_handler no_faults example_upstream) (sumdb.ReadRecords 0 1) st
    = Some (Ok [RecData rec], st, tr').
Proof.
  destruct (run (mem_handler no_faults example_upstream) (sumdb.Lookup example_mod)
              emptyStore) as [[[[id | e] st] tr] |] eqn:Hrun;
    try (vm_compute in Hrun; discriminate).
  assert (Hid : id = 0) by (vm_compute in Hrun; congruence).
  subst id.
  destruct (Lookup_then_ReadRecords example_upstream example_mod emptyStore st 0 tr
              consistent_empty ltac:(vm_compute; reflexivity) Hrun)
    as (rec & tr' & _ & Hp & Hv & Hread).
  exists st, tr, tr', rec. auto.
Defined.

Lemma example_Signed_run (up : upstream) :
  exists (signed : string) (tr : list event),
    run (mem_handler no_faults up) (sumdb.Signed example_signer) emptyStore
    = Some (Ok signed, emptyStore, tr).
Proof.
  destruct (tree_TreeHash_mem up emptyStore ltac:(cbn; lia)) as (root & tr' & Hhash & _).
  destruct (example_matches) as (Hvn & Hvh & Hsigs).
  destruct (Hsigs (tlog.FormatTree (mkTree 0 root))) as (sig & Hsig & Hne & Hver).
  destruct (sign_verify_with example_signer example_verifier (mkTree 0 root) sig
              example_key_ok Hvn Hvh Hsig Hne Hver ltac:(cbn; lia)) as (Hsign & _).
  eexists _, _.
  unfold sumdb.Signed. cbn [bind call run].
  change (mem_handler no_faults up _ OpTreeSize emptyStore) with (Some (Ok 0, emptyStore)).
  cbv beta iota.
  rewrite run_bind, Hhash. cbn [run]. rewrite Hsign. cbn [run]. reflexivity.
Qed.

Lemma Signed_reads_only_witness :
  exists (r : result string) (tr : list event),
    run (mem_handler no_faults example_upstream) (sumdb.Signed example_signer) emptyStore
    = Some (r, emptyStore, tr) /\
    forallb is_tree_read tr = true /\ (length tr <= 3)%nat.
Proof.
  destruct (example_Signed_run example_upstream) as (signed & tr & Hrun).
  destruct (Signed_reads_only _ example_signer emptyStore emptyStore (Ok signed) tr Hrun)
    as (Hreads & Hlen & _).
  exists (Ok signed), tr. auto.
Defined.

Lemma TreeHash_negative_size_panics_witness :
  run (mem_handler no_faults example_upstream) tree.TreeHash negative_store = None /\
  run (mem_handler no_faults example_upstream) (sumdb.Signed example_signer) negative_store
  = None.
Proof.
  apply (TreeHash_negative_size_panics example_signer example_upstream negative_store).
  vm_compute. reflexivity.
Defined.

(** The tree head of the signer's test, signed under the example key. *)
Lemma example_signed_head :
  signer.VerifyTreeHead example_verifier
    (tlog.FormatTree (mkTree 42 zeroHash) +:+ nl +:+
     signature_line example_signer (example_signature (tlog.FormatTree (mkTree 42 zeroHash))))
  = Ok (mkTree 42 zeroHash).
Proof.
  apply (sign_verify_with example_signer example_verifier (mkTree 42 zeroHash)).
  - exact example_key_ok.
  - reflexivity.
  - reflexivity.
  - reflexivity.
  - apply example_signature_nonempty.
  - cbn [example_verifier note.v_Verify]. apply String.eqb_refl.
  - cbn [TreeN]. lia.
Qed.

Lemma VerifyTreeHead_sound_witness :
  exists text rest sig : string,
    tlog.FormatTree (mkTree 42 zeroHash) +:+ nl +:+
    signature_line example_signer (example_signature (tlog.FormatTree (mkTree 42 zeroHash)))
    = text +:+ rest /\
    note.v_Verify example_verifier text sig = true /\
    tlog.ParseTree text = Ok (mkTree 42 zeroHash) /\
    0 <= 42.
Proof.
  apply (VerifyTreeHead_sound example_verifier _ (mkTree 42 zeroHash)).
  exact example_signed_head.
Defined.

Lemma VerifyTreeHead_rejects_other_key_witness :
  exists signed : string,
    signer.SignTreeHead example_signer (mkTree 1 zeroHash) = Ok signed /\
    signer.VerifyTreeHead other_verifier signed
    = Err (ErrWrap2 ErrVerifyFailed note.errUnverifiedNote) /\
    errors_Is (ErrWrap2 ErrVerifyFailed note.errUnverifiedNote) ErrVerifyFailed = true.
Proof.
  apply (VerifyTreeHead_rejects_other_key example_signer other_verifier (mkTree 1 zeroHash)
           (example_signature (tlog.FormatTree (mkTree 1 zeroHash)))).
  - exact example_key_ok.
  - reflexivity.
  - apply example_signature_nonempty.
  - cbn [TreeN]. lia.
  - left. cbn [other_verifier example_signer note.v_Name note.s_Name]. discriminate.
Defined.

Lemma VerifyTreeHead_rejects_refused_signature_witness :
  exists signed : string,
    signer.SignTreeHead example_signer (mkTree 1 zeroHash) = Ok signed /\
    signer.VerifyTreeHead refusing_verifier signed
    = Err (ErrWrap2 ErrVerifyFailed note.errInvalidSignature) /\
    errors_Is (ErrWrap2 ErrVerifyFailed note.errInvalidSignature) ErrVerifyFailed = true.
Proof.
  apply (VerifyTreeHead_rejects_refused_signature example_signer refusing_verifier
           (mkTree 1 zeroHash) (example_signature (tlog.FormatTree (mkTree 1 zeroHash)))).
  - exact example_key_ok.
  - reflexivity.
  - apply example_signature_nonempty.
  - cbn [TreeN]. lia.
  - reflexivity.
  - reflexivity.
  - reflexivity.
Defined.

(** ** The signed note of a tree head *)

(** X17: [SignTreeHead] fails only when the name of the signer is not a
    valid name ("invalid signer") or when the signer fails to sign (its
    error, as it is); it never reports a malformed note.  Otherwise the
    note is the text of the tree head, an empty line and the signature
    line of the signer. *)
Theorem SignTreeHead_result (s : note.Signer) (t : Tree) :
  signer.SignTreeHead s t
  = if negb (note.isValidName (note.s_Name s)) then Err note.errInvalidSigner
    else
      match note.s_Sign s (tlog.FormatTree t) with
      | Err e => Err e
      | Ok sig => Ok (tlog.FormatTree t +:+ nl +:+ signature_line s sig)
      end.
Proof.
  unfold signer.SignTreeHead, note.Sign. cbn [note.Text note.Sigs note.UnverifiedSigs].
  assert (Hnl : ends_with_nl (tlog.FormatTree t) = true).
  { rewrite FormatTree_body. apply ends_with_nl_app. }
  rewrite Hnl. cbn [negb note.sign_lines].
  destruct (note.isValidName (note.s_Name s)); cbn [negb]; [| reflexivity].
  destruct (note.s_Sign s (tlog.FormatTree t)) as [sig | e]; [| reflexivity].
  cbn [app note.old_lines]. unfold signature_line. reflexivity.
Qed.

(** ** Module keys *)

Lemma parseModule_lookup_key (m : ModVersion) :
  str_all (not_char "@"%char) (Path m) = true ->
  parseModule (lookup_key m) = Ok m.
Proof.
  intros Hpath. unfold parseModule, lookup_key. cbn [SplitN_at].
  change (Path m +:+ "@" +:+ Version m) with (Path m +:+ String "@"%char (Version m)).
  rewrite cut_at_app by exact Hpath.
  destruct m. reflexivity.
Qed.

(** X18: [parseModule] reads a "path@version" string back into the path
    and the version, cutting at the first "@" (so for every path without
    "@"), and rejects a string without "@". *)
Theorem parseModule_round_trip :
  (forall m : ModVersion,
     str_all (not_char "@"%char) (Path m) = true ->
     parseModule (Path m +:+ "@" +:+ Version m) = Ok m) /\
  (forall s : string,
     str_all (not_char "@"%char) s = true ->
     parseModule s = Err (ErrMsg "invalid module format")).
Proof.
  split.
  - exact parseModule_lookup_key.
  - intros s Hs. unfold parseModule. cbn [SplitN_at].
    rewrite cut_at_none by exact Hs. reflexivity.
Qed.

Lemma parseModule_round_trip_witness :
  parseModule ("example.com/new" +:+ "@" +:+ "v1.0.0") = Ok example_mod.
Proof.
  apply (proj1 parseModule_round_trip example_mod). reflexivity.
Defined.

(** X19: the key under which [Lookup] groups concurrent lookups tells
    modules apart as long as their paths have no "@": two such modules
    with the same key are the same module. *)
Theorem lookup_key_injective (m1 m2 : ModVersion) :
  str_all (not_char "@"%char) (Path m1) = true ->
  str_all (not_char "@"%char) (Path m2) = true ->
  lookup_key m1 = lookup_key m2 -> m1 = m2.
Proof.
  intros H1 H2 Hkey.
  pose proof (parseModule_lookup_key m1 H1) as P1.
  pose proof (parseModule_lookup_key m2 H2) as P2.
  rewrite Hkey in P1. congruence.
Qed.

Lemma lookup_key_injective_witness :
  example_mod = mkMod "example.com/new" "v1.0.0".
Proof.
  apply (lookup_key_injective example_mod (mkMod "example.com/new" "v1.0.0"));
    reflexivity.
Defined.

(** ** Tiles of the stored tree *)
Section TileFacts.
Context {sha : Sha256}.
Variable up : upstream.

Lemma concat_hashes_length (hs : list Hash) :
  String.length (tiles.concat_hashes hs) = (HashSize * length hs)%nat.
Proof.
  induction hs as [| h hs IH]; cbn [tiles.concat_hashes length]; [reflexivity |].
  rewrite str_length_app, IH.
  pose proof (hlen h) as Hh. apply Nat.eqb_eq in Hh. rewrite Hh. unfold HashSize. lia.
Qed.

(** A tile inside a stored tree holds the hashes of its subtrees. *)
Lemma ReadTile_stored (maxAlloc : Z) (st : memStore) (ds : list string) (H L N W : Z) :
  merkle.stored_tree st ds -> Z.of_nat (length ds) < 2 ^ 62 ->
  0 <= H -> 0 <= L -> 0 <= N -> 0 < W -> 32 * W <= maxAlloc -> maxAlloc < 2 ^ 63 ->
  (N * 2 ^ H + W) * 2 ^ (H * L) <= Z.of_nat (length ds) ->
  exists tr : list event,
    run (mem_handler no_faults up) (tiles.ReadTile maxAlloc (tiles.mkTile H L N W)) st
    = Some (Ok (tiles.concat_hashes
                  (map (fun i => merkle.MTH
                                   (merkle.segment (Z.to_nat (H * L))
                                      (Z.to_nat (N * 2 ^ H) + i) ds))
                       (seq 0 (Z.to_nat W)))),
            st, tr).
Proof.
  intros [_ Hst] Hn HH HL HN HW Halloc Hmax Hfit.
  set (lev := H * L) in *.
  assert (Hlev0 : 0 <= lev) by (unfold lev; nia).
  assert (HP : 0 < 2 ^ lev) by (apply Z.pow_pos_nonneg; lia).
  assert (HPH : 0 < 2 ^ H) by (apply Z.pow_pos_nonneg; lia).
  assert (Hin : N * 2 ^ H + W < 2 ^ 62) by nia.
  assert (Hlev : lev < 62).
  { apply (Z.pow_lt_mono_r_iff 2); [lia | lia |]. nia. }
  assert (Hstart : tiles.shl64 N H = N * 2 ^ H).
  { unfold tiles.shl64.
    destruct (Z.eq_dec N 0) as [-> | HN0].
    - rewrite Z.shiftl_0_l. destruct (_ && _); reflexivity.
    - assert (HH62 : H < 62).
      { apply (Z.pow_lt_mono_r_iff 2); [lia | lia |]. nia. }
      assert (Hc : (0 <=? H) && (H <? 64) = true) by lia.
      rewrite Hc, Z.shiftl_mul_pow2 by lia.
      apply wrap64_id. unfold int64_ok. nia. }
  unfold tiles.ReadTile. rewrite run_bind.
  unfold tiles.tlog_ReadTileData. cbn [tiles.TileW tiles.TileH tiles.TileN tiles.TileL].
  destruct (W =? 0) eqn:HW0; [lia |].
  assert (Hmake : (W <? 0) || (maxAlloc <? 8 * W) = false) by lia.
  rewrite Hmake.
  assert (Hlen32 : mul64 W 32 = 32 * W).
  { unfold mul64. rewrite wrap64_id by (unfold int64_ok; lia). lia. }
  assert (Hmake2 : (mul64 W 32 <? 0) || (maxAlloc <? mul64 W 32) = false)
    by (rewrite Hlen32; lia).
  rewrite Hmake2.
  rewrite Hstart.
  assert (Hmul : mul64 H L = lev).
  { unfold mul64. apply wrap64_id. unfold int64_ok. fold lev. lia. }
  rewrite Hmul.
  cbn [bind call run]. cbv [mem_handler no_faults mem_answer].
  assert (Hread : mem_ReadHashes st
                    (map (fun i => tiles.StoredHashIndex_int lev
                                     (add64 (N * 2 ^ H) (Z.of_nat i)))
                         (seq 0 (Z.to_nat W)))
                  = map (fun i => merkle.MTH
                                    (merkle.segment (Z.to_nat lev)
                                       (Z.to_nat (N * 2 ^ H) + i) ds))
                        (seq 0 (Z.to_nat W))).
  { unfold mem_ReadHashes. rewrite map_map. apply map_ext_in.
    intros i Hi. apply in_seq in Hi.
    assert (Hadd : add64 (N * 2 ^ H) (Z.of_nat i) = Z.of_nat (Z.to_nat (N * 2 ^ H) + i)).
    { unfold add64. rewrite wrap64_id by (unfold int64_ok; lia). lia. }
    rewrite Hadd. unfold tiles.StoredHashIndex_int.
    destruct (lev <? 0) eqn:Hneg; [lia |].
    rewrite Hst; [reflexivity |].
    apply Nat2Z.inj_le.
    rewrite Nat2Z.inj_mul, Nat2Z.inj_pow, Z2Nat.id by lia.
    change (Z.of_nat 2) with 2.
    assert (Z.of_nat (Z.to_nat (N * 2 ^ H) + i + 1) <= N * 2 ^ H + W) by lia.
    nia. }
  rewrite Hread, !length_map, Nat.eqb_refl. cbn [negb run].
  eexists. reflexivity.
Qed.

End TileFacts.

(** X20: on an in-memory store that holds the tree of the records [ds],
    [ReadTile], and [ReadTileData] of the coordinator over it, of a tile of height [H], level [L >= 0], number [N] and
    width [W > 0] (that [make] allocates) whose subtrees are all inside the
    tree returns the hashes
    of the [W] complete subtrees of level [H * L] from index [N * 2^H] on,
    one after the other, [W] times 32 bytes in all, and leaves the store as
    it is. *)
Theorem ReadTile_subtree_hashes {sha : Sha256} (maxAlloc : Z) (up : upstream)
    (st : memStore) (ds : list string) (H L N W : Z) :
  merkle.stored_tree st ds -> Z.of_nat (length ds) < 2 ^ 62 ->
  0 <= H -> 0 <= L -> 0 <= N -> 0 < W -> 32 * W <= maxAlloc -> maxAlloc < 2 ^ 63 ->
  (N * 2 ^ H + W) * 2 ^ (H * L) <= Z.of_nat (length ds) ->
  exists (data : string) (tr : list event),
    run (mem_handler no_faults up) (tiles.ReadTile maxAlloc (tiles.mkTile H L N W)) st
    = Some (Ok data, st, tr) /\
    run (mem_handler no_faults up) (tiles.ReadTileData maxAlloc (tiles.mkTile H L N W)) st
    = Some (Ok data, st, tr) /\
    data = tiles.concat_hashes
             (map (fun i => merkle.MTH
                              (merkle.segment (Z.to_nat (H * L))
                                 (Z.to_nat (N * 2 ^ H) + i) ds))
                  (seq 0 (Z.to_nat W))) /\
    Z.of_nat (String.length data) = 32 * W.
Proof.
  intros Hst Hn HH HL HN HW Halloc Hmax Hfit.
  destruct (ReadTile_stored up maxAlloc st ds H L N W Hst Hn HH HL HN HW Halloc Hmax Hfit)
    as (tr & Hrun).
  eexists _, tr. split; [exact Hrun |]. split; [| split; [reflexivity |]].
  - unfold tiles.ReadTileData. rewrite run_bind, Hrun. cbn [run].
    rewrite app_nil_r. reflexivity.
  - rewrite concat_hashes_length, length_map, length_seq. unfold HashSize. lia.
Qed.

(** The tile of the one leaf of a tree of one record. *)
Lemma ReadTile_subtree_hashes_witness :
  exists (data : string) (tr : list event),
    run (mem_handler no_faults example_upstream) (tiles.ReadTile (2 ^ 48) (tiles.mkTile 8 0 0 1))
        (mkMem [] {[ 0 := tlog.RecordHash "a v1 h1:x" ]} 1)
    = Some (Ok data, mkMem [] {[ 0 := tlog.RecordHash "a v1 h1:x" ]} 1, tr) /\
    run (mem_handler no_faults example_upstream) (tiles.ReadTileData (2 ^ 48) (tiles.mkTile 8 0 0 1))
        (mkMem [] {[ 0 := tlog.RecordHash "a v1 h1:x" ]} 1)
    = Some (Ok data, mkMem [] {[ 0 := tlog.RecordHash "a v1 h1:x" ]} 1, tr) /\
    data = tiles.concat_hashes [merkle.MTH (merkle.segment 0 0 ["a v1 h1:x"])] /\
    Z.of_nat (String.length data) = 32.
Proof.
  apply (ReadTile_subtree_hashes (2 ^ 48) example_upstream _ ["a v1 h1:x"] 8 0 0 1).
  - apply stored_tree_one.
  - vm_compute. reflexivity.
  - lia.
  - lia.
  - lia.
  - lia.
  - lia.
  - lia.
  - vm_compute. discriminate.
Defined.

(** ** The hash table of the in-memory store *)

Lemma read_written (m m' : gmap Z Hash) (idxs : list Z) (hs : list Hash) :
  write_hashes m idxs hs = Some m' -> List.NoDup idxs -> length idxs = length hs ->
  map (fun idx => default zeroHash (m' !! idx)) idxs = hs.
Proof.
  intros Hw Hnd Hlen. apply nth_error_ext. intros i.
  rewrite nth_error_map.
  destruct (nth_error idxs i) as [idx |] eqn:Hi; cbn [option_map].
  - destruct (nth_error hs i) as [h |] eqn:Hh.
    + rewrite (write_hashes_nth _ _ _ _ _ _ _ Hw Hnd Hi Hh). reflexivity.
    + apply nth_error_None in Hh.
      assert (i < length idxs)%nat by (apply nth_error_Some; congruence). lia.
  - apply nth_error_None in Hi. symmetry. apply nth_error_None. lia.
Qed.

(** X21: on the in-memory store, writing hashes at distinct indexes and
    reading the same indexes gives the hashes back in order; the hashes at
    other indexes, the records and the tree size are untouched. *)
Theorem WriteHashes_then_ReadHashes (up : upstream) (st : memStore) (idxs : list Z)
    (hs : list Hash) :
  List.NoDup idxs -> length idxs = length hs ->
  exists st' : memStore,
    mem_handler no_faults up _ (OpWriteHashes idxs hs) st = Some (Ok tt, st') /\
    mem_handler no_faults up _ (OpReadHashes idxs) st' = Some (Ok hs, st') /\
    (forall j : Z, ~ In j idxs -> hashes st' !! j = hashes st !! j) /\
    records st' = records st /\ treeSize st' = treeSize st.
Proof.
  intros Hnd Hlen.
  destruct (write_hashes_total (hashes st) idxs hs ltac:(lia)) as [m' Hw].
  exists (mkMem (records st) m' (treeSize st)).
  cbv [mem_handler no_faults mem_answer]. rewrite Hw.
  split; [reflexivity |]. split.
  - unfold mem_ReadHashes. cbn [hashes]. rewrite (read_written _ _ _ _ Hw Hnd Hlen).
    reflexivity.
  - split; [| split; reflexivity].
    intros j Hj. cbn [hashes]. eapply write_hashes_other; eauto.
Qed.

Lemma WriteHashes_then_ReadHashes_witness :
  exists st' : memStore,
    mem_handler no_faults example_upstream _ (OpWriteHashes [4; 5] [zeroHash; zeroHash])
      emptyStore = Some (Ok tt, st') /\
    mem_handler no_faults example_upstream _ (OpReadHashes [4; 5]) st'
      = Some (Ok [zeroHash; zeroHash], st') /\
    (forall j : Z, ~ In j [4; 5] -> hashes st' !! j = hashes emptyStore !! j) /\
    records st' = [] /\ treeSize st' = 0.
Proof.
  apply (WriteHashes_then_ReadHashes example_upstream emptyStore [4; 5] [zeroHash; zeroHash]).
  - repeat constructor; cbn; intuition lia.
  - reflexivity.
Defined.

(** ** What a failed lookup leaves behind *)
Section FailureFacts.
Context {sha : Sha256}.

(** Hashes written for the record after [ds] do not touch the tree of
    [ds]. *)
Lemma stored_tree_kept (st : memStore) (ds : list string) (count : nat)
    (hs : list Hash) (m' : gmap Z Hash) (recs : list RecordT) :
  merkle.stored_tree st ds -> Z.of_nat (length ds) < 2 ^ 62 ->
  (count <= 1 + trailing_ones (Z.of_nat (length ds)))%nat ->
  write_hashes (hashes st) (tree.storedHashIndexes (Z.of_nat (length ds)) count) hs = Some m' ->
  merkle.stored_tree (mkMem recs m' (treeSize st)) ds.
Proof.
  intros [Hsize Hst] Hn Hcount Hw.
  split; [exact Hsize |].
  intros L k Hk. cbn [hashes].
  rewrite (write_hashes_other _ _ _ _ _ Hw); [apply Hst; exact Hk |].
  rewrite storedHashIndexes_seq by lia.
  rewrite in_map_iff. intros (i & Hi & _).
  pose proof (pow2_pos L) as Hpos.
  assert (HZ : (Z.of_nat k + 1) * 2 ^ Z.of_nat L = Z.of_nat ((k + 1) * 2 ^ L)).
  { rewrite Nat2Z.inj_mul, Nat2Z.inj_add, Nat2Z.inj_pow. reflexivity. }
  rewrite (StoredHashIndex_level L (Z.of_nat k)) in Hi by lia.
  rewrite HZ in Hi.
  set (r := Z.of_nat ((k + 1) * 2 ^ L) - 1) in *.
  assert (Hr : 0 <= r < Z.of_nat (length ds)) by (unfold r; nia).
  assert (HLr : (L <= trailing_ones r)%nat).
  { apply trailing_ones_divide; [lia |].
    exists (Z.of_nat k + 1). unfold r. lia. }
  pose proof (leaf_index_mono r (Z.of_nat (length ds)) ltac:(lia) Hn). lia.
Qed.

Variables (f : faults) (up : upstream).

Lemma mem_read_step {X : Type} (o : op X) (st st' : memStore) (x : X) :
  mem_handler f up X o st = Some (x, st') -> is_mutation (Ev o x) = false -> st' = st.
Proof. apply mem_step_failed. Qed.

(** A failed append to the tree of [ds] leaves the tree of [ds]. *)
Lemma failed_append_keeps_tree (st st' : memStore) (ds : list string) (id : Z)
    (d : string) (e : error) (tr : list event) :
  merkle.stored_tree st ds -> Z.of_nat (length ds) < 2 ^ 62 ->
  id = Z.of_nat (length ds) ->
  append_outcome (mem_handler f up) id d st (Err e) st' tr ->
  records st' = records st /\ merkle.stored_tree st' ds.
Proof.
  intros Hst Hn -> Hout.
  inversion Hout as [e3 s6 Hread | old s6 Hread Hlen
                     | old s6 hs e3 s7 Hread Hlen Hhs Hw
                     | old s6 hs s7 e3 s8 Hread Hlen Hhs Hw Hs |]; subst.
  - apply mem_step_failed in Hread; [subst; auto | reflexivity].
  - apply mem_step_failed in Hread; [subst; auto | reflexivity].
  - apply mem_step_failed in Hread; [subst s6 | reflexivity].
    apply mem_step_failed in Hw; [subst; auto | reflexivity].
  - apply mem_step_failed in Hread; [subst s6 | reflexivity].
    unfold mem_handler in Hw.
    destruct (f _ (OpWriteHashes _ _)) as [e0 |]; [discriminate |].
    cbn [mem_answer] in Hw.
    destruct (write_hashes _ _ _) as [m' |] eqn:Hwrite; [| discriminate].
    injection Hw as <-.
    unfold mem_handler in Hs.
    destruct (f _ (OpSetTreeSize _)) as [e0 |]; [| discriminate].
    injection Hs as _ <-.
    split; [reflexivity |].
    eapply stored_tree_kept; [exact Hst | exact Hn | | exact Hwrite].
    rewrite build_hashes_length, length_rev, Hlen. reflexivity.
Qed.

End FailureFacts.

Section FailureTheorems.
Context {sha : Sha256}.

(** X22: on an in-memory store whose log is in order, a [Lookup] that
    fails, whichever operations of the store fail, leaves the tree of the
    records that were there: the tree size and the hashes of all their
    subtrees are as before, so [TreeHash] still returns their Merkle tree
    hash.  The records are the same, or there is one more, for the module
    looked up, that the tree does not cover. *)
Theorem Lookup_failure_keeps_tree (f : faults) (up : upstream) (m : ModVersion)
    (st st' : memStore) (e : error) (tr : list event) :
  consistent_log st -> Z.of_nat (length (records st)) < 2 ^ 62 ->
  run (mem_handler f up) (sumdb.Lookup m) st = Some (Err e, st', tr) ->
  merkle.stored_tree st' (map RecData (records st)) /\
  (records st' = records st \/
   exists rec : RecordT,
     records st' = records st ++ [rec] /\
     RecPath rec = Path m /\ RecVersion rec = Version m) /\
  exists tr' : list event,
    run (mem_handler no_faults up) tree.TreeHash st'
    = Some (Ok (merkle.MTH (map RecData (records st))), st', tr').
Proof.
  intros [Hseq Hst] Hn Hrun.
  assert (Hkeep : merkle.stored_tree st' (map RecData (records st)) /\
                  (records st' = records st \/
                   exists rec : RecordT,
                     records st' = records st ++ [rec] /\
                     RecPath rec = Path m /\ RecVersion rec = Version m)).
  { apply run_lookup_outcome in Hrun.
    inversion Hrun as [| e0 s1 Hrid Hnf | e0 s1 r s2 tr1 Hrid Hnf Hf]; subst.
    { apply mem_step_failed in Hrid; [subst; auto | reflexivity]. }
    apply mem_step_failed in Hrid; [subst s1 | reflexivity].
    inversion Hf as [| e1 s1' Hrid2 Hnf2
                     | e1 s1' e2 s2' Hrid2 Hnf2 Hmod
                     | e1 s1' h1mod s2' e2 s3 Hrid2 Hnf2 Hmod Hzip
                     | e1 s1' h1mod s2' h1 s3 e2 s4 Hrid2 Hnf2 Hmod Hzip Hadd
                     | e1 s1' h1mod s2' h1 s3 id0 s4 e2 s5 tr2 Hrid2 Hnf2 Hmod Hzip Hadd Happ
                     |]; subst;
      repeat match goal with
             | H : mem_handler f up _ _ _ = Some (_, _) |- _ =>
                 apply mem_step_failed in H; [subst | reflexivity]
             end; auto.
    unfold mem_handler in Hadd.
    destruct (f _ (OpAddRecord _)) as [efault |]; [discriminate |].
    cbn [mem_answer] in Hadd. unfold mem_AddRecord in Hadd.
    cbn [built_record RecPath RecVersion RecData] in Hadd.
    destruct (find _ _); [discriminate |].
    injection Hadd as <- <-.
    match type of Happ with
    | append_outcome _ _ _ ?s4 _ _ _ =>
        assert (Hst4 : merkle.stored_tree s4 (map RecData (records st))) by exact Hst
    end.
    destruct (failed_append_keeps_tree f up _ st' (map RecData (records st)) _ _ e2 tr2
                Hst4 ltac:(rewrite length_map; exact Hn)
                ltac:(rewrite length_map; reflexivity) Happ) as [Hrec Htree].
    split; [exact Htree |]. right. eexists. rewrite Hrec. cbn [records].
    split; [reflexivity |]. split; reflexivity. }
  destruct Hkeep as [Htree Hrecs].
  split; [exact Htree |]. split; [exact Hrecs |].
  apply (stored_tree_root up st' _ Htree). rewrite length_map. exact Hn.
Qed.

End FailureTheorems.

(** A lookup on the empty store whose [WriteHashes] fails: the record
    stays, and the tree is still the empty tree. *)
Lemma Lookup_failure_keeps_tree_witness :
  exists (e : error) (st : memStore) (tr tr' : list event),
    run (mem_handler failing_writes example_upstream) (sumdb.Lookup example_mod) emptyStore
    = Some (Err e, st, tr) /\
    merkle.stored_tree st [] /\
    run (mem_handler no_faults example_upstream) tree.TreeHash st
    = Some (Ok (merkle.MTH []), st, tr').
Proof.
  destruct (run (mem_handler failing_writes example_upstream) (sumdb.Lookup example_mod)
              emptyStore) as [[[[id | e] st] tr] |] eqn:Hrun;
    try (vm_compute in Hrun; discriminate).
  destruct (Lookup_failure_keeps_tree failing_writes example_upstream example_mod
              emptyStore st e tr consistent_empty ltac:(vm_compute; reflexivity) Hrun)
    as (Htree & _ & tr' & Hroot).
  exists e, st, tr, tr'. auto.
Defined.

(** ** Every store that lookups reach *)
Section Reachable.
Context {sha : Sha256}.

Lemma mem_step_grows (f : faults) (up : upstream) {X : Type} (o : op X)
    (st st' : memStore) (x : X) :
  mem_handler f up X o st = Some (x, st') ->
  (length (records st) <= length (records st'))%nat.
Proof.
  unfold mem_handler. destruct (f X o) as [e |].
  - intros [= <- <-]. lia.
  - destruct o; cbn [mem_answer]; try (intros [= <- <-]; lia).
    + unfold mem_AddRecord. destruct (find _ _); intros [= <- <-]; [lia |].
      cbn [records]. rewrite length_app. lia.
    + destruct (write_hashes _ _ _); [| discriminate]. intros [= <- <-]. cbn [records]. lia.
    + intros [= <- <-]. cbn [records]. lia.
Qed.

Lemma run_grows (f : faults) (up : upstream) {A : Type} (p : prog A) (st st' : memStore)
    (a : A) (tr : list event) :
  run (mem_handler f up) p st = Some (a, st', tr) ->
  (length (records st) <= length (records st'))%nat.
Proof.
  revert st a st' tr. induction p as [a0 | | X o k IH]; intros st a st' tr; cbn [run].
  - intros [= <- <- <-]. lia.
  - discriminate.
  - destruct (mem_handler f up X o st) as [[x s1] |] eqn:Hh; [| discriminate].
    destruct (run (mem_handler f up) (k x) s1) as [[[a1 s2] tr1] |] eqn:Hk; [| discriminate].
    intros [= <- <- <-].
    apply mem_step_grows in Hh. apply IH in Hk. lia.
Qed.

(** X23: every store that sequential lookups reach from the empty
    in-memory store, whatever the upstream answered at each of them, is a
    log in order: the ids of the records are their positions, the tree size
    is their number, and the stored hashes are the Merkle hashes of their
    data. *)
Theorem reachable_log_in_order (st : memStore) :
  reachable st -> Z.of_nat (length (records st)) < 2 ^ 62 -> consistent_log st.
Proof.
  intros Hreach. induction Hreach as [| st st' up m r tr Hreach IH Hrun]; intros Hn.
  - exact consistent_empty.
  - pose proof (run_grows _ _ _ _ _ _ _ Hrun) as Hgrow.
    specialize (IH ltac:(lia)).
    destruct (lookup_on_log up m st IH ltac:(lia)) as (r1 & st1 & tr1 & Hrun1 & Hlog & _).
    rewrite Hrun in Hrun1. injection Hrun1 as <- <- <-. exact Hlog.
Qed.

End Reachable.

Lemma reachable_log_in_order_witness :
  exists (st : memStore) (tr : list event),
    run (mem_handler no_faults example_upstream) (sumdb.Lookup example_mod) emptyStore
    = Some (Ok 0, st, tr) /\
    consistent_log st.
Proof.
  destruct (run (mem_handler no_faults example_upstream) (sumdb.Lookup example_mod)
              emptyStore) as [[[[id | e] st] tr] |] eqn:Hrun;
    try (vm_compute in Hrun; discriminate).
  assert (Hid : id = 0) by (vm_compute in Hrun; congruence).
  subst id. exists st, tr. split; [reflexivity |].
  apply (reachable_log_in_order st).
  - exact (reach_lookup emptyStore st example_upstream example_mod (Ok 0) tr reach_empty Hrun).
  - pose proof Hrun as Hc. vm_compute in Hc. injection Hc as <- _. vm_compute. reflexivity.
Defined.

(** ** Tree sizes out of range *)

Lemma wrap64_pow2_high (k : Z) : 64 <= k -> wrap64 (2 ^ k) = 0.
Proof.
  intros Hk. unfold wrap64.
  replace (2 ^ k) with (2 ^ (k - 64) * 2 ^ 64)
    by (rewrite <- Z.pow_add_r by lia; f_equal; lia).
  rewrite Z.add_comm, Z.mod_add by lia. reflexivity.
Qed.

Lemma maxpow2_loop_none {sha : Sha256} (fuel l : nat) (n : Z) :
  2 ^ 62 < n -> tlog.maxpow2_loop fuel l n = None.
Proof.
  intros Hn. revert l. induction fuel as [| f IH]; intros l; cbn [tlog.maxpow2_loop];
    [reflexivity |].
  assert (Hlt : wrap64 (Z.shiftl 1 (Z.of_nat (l + 1))) < n).
  { destruct (Nat.le_gt_cases (l + 1) 62) as [H62 | H62].
    - rewrite shl_one by exact H62.
      assert (2 ^ Z.of_nat (l + 1) <= 2 ^ 62) by (apply Z.pow_le_mono_r; lia). lia.
    - rewrite Z.shiftl_1_l.
      destruct (Nat.eq_dec (l + 1)%nat 63%nat) as [Heq | H63].
      + rewrite Heq. change (wrap64 (2 ^ Z.of_nat 63)) with (- 2 ^ 63). lia.
      + rewrite wrap64_pow2_high by lia. lia. }
  apply Z.ltb_lt in Hlt. rewrite Hlt. apply IH.
Qed.

(** X24: a store that reports a tree size from 2^62 on makes [TreeHash],
    and therefore [Signed], never return: the loop of tlog's [maxpow2]
    shifts 1 out of the 64 bits and goes on for ever. *)
Theorem TreeHash_huge_size_never_returns {sha : Sha256} (s : note.Signer) (up : upstream)
    (st : memStore) :
  2 ^ 62 <= treeSize st < 2 ^ 63 - 1 ->
  run (mem_handler no_faults up) tree.TreeHash st = None /\
  run (mem_handler no_faults up) (sumdb.Signed s) st = None.
Proof.
  intros Hbig.
  assert (Hhash : run (mem_handler no_faults up) tree.TreeHash st = None).
  { unfold tree.TreeHash. cbn [bind call run].
    change (mem_handler no_faults up _ OpTreeSize st) with (Some (Ok (treeSize st), st)).
    cbv beta iota.
    destruct (treeSize st =? 0) eqn:H0; [lia |].
    rewrite run_bind. unfold tlog.TreeHash. rewrite H0.
    change (tlog.subTreeIndex 64 0 (treeSize st) [])
      with (if 0 <? treeSize st
            then match tlog.maxpow2 (add64 (sub64 (treeSize st) 0) 1) with
                 | None => None
                 | Some (k, level) =>
                     if negb (Z.land 0 (sub64 k 1) =? 0) then None
                     else tlog.subTreeIndex 63 (add64 0 k) (treeSize st)
                            ([] ++ [tlog.StoredHashIndex level (Z.shiftr 0 (Z.of_nat level))])
                 end
            else Some []).
    assert (Hpos : (0 <? treeSize st) = true) by lia. rewrite Hpos.
    assert (Hn1 : add64 (sub64 (treeSize st) 0) 1 = treeSize st + 1).
    { unfold add64, sub64. rewrite Z.sub_0_r.
      rewrite (wrap64_id (treeSize st)) by (unfold int64_ok; lia).
      apply wrap64_id. unfold int64_ok. lia. }
    rewrite Hn1. unfold tlog.maxpow2.
    rewrite maxpow2_loop_none by lia. reflexivity. }
  split; [exact Hhash |].
  unfold sumdb.Signed. cbn [bind call run].
  change (mem_handler no_faults up _ OpTreeSize st) with (Some (Ok (treeSize st), st)).
  cbv beta iota. rewrite run_bind, Hhash. reflexivity.
Qed.

Lemma TreeHash_huge_size_never_returns_witness :
  run (mem_handler no_faults example_upstream) tree.TreeHash huge_store = None /\
  run (mem_handler no_faults example_upstream) (sumdb.Signed example_signer) huge_store = None.
Proof.
  apply (TreeHash_huge_size_never_returns example_signer example_upstream huge_store).
  vm_compute. split; [discriminate | reflexivity].
Defined.

(** ** The size of a tile *)



(** ** Ids and the order of the log *)
Section OrderTheorems.
Context {sha : Sha256}.

(** X26: on an in-memory store whose log is in order, two lookups, one
    after the other, that return the same id are lookups of the same
    module: an id never stands for two modules. *)
Theorem Lookup_ids_tell_modules_apart (up1 up2 : upstream) (m1 m2 : ModVersion)
    (st st1 st2 : memStore) (id1 id2 : Z) (tr1 tr2 : list event) :
  consistent_log st -> Z.of_nat (length (records st)) + 1 < 2 ^ 62 ->
  run (mem_handler no_faults up1) (sumdb.Lookup m1) st = Some (Ok id1, st1, tr1) ->
  run (mem_handler no_faults up2) (sumdb.Lookup m2) st1 = Some (Ok id2, st2, tr2) ->
  id1 = id2 -> m1 = m2.
Proof.
  intros Hlog Hn Hrun1 Hrun2 Hid.
  destruct (lookup_on_log up1 m1 st Hlog ltac:(lia)) as (r & s & t & Hr & Hlog1 & Hres1).
  rewrite Hrun1 in Hr. injection Hr as <- <- <-.
  destruct Hres1 as (rec1 & Hnth1 & Hpos1 & _ & Hp1 & Hv1 & Hcase1).
  assert (Hlen1 : (length (records st1) <= length (records st) + 1)%nat).
  { destruct Hcase1 as [-> | (_ & _ & ->)]; [lia |]. rewrite length_app. cbn. lia. }
  destruct (lookup_on_log up2 m2 st1 Hlog1 ltac:(lia)) as (r & s & t & Hr & Hlog2 & Hres2).
  rewrite Hrun2 in Hr. injection Hr as <- <- <-.
  destruct Hres2 as (rec2 & Hnth2 & Hpos2 & _ & Hp2 & Hv2 & Hcase2).
  assert (Hin1 : (Z.to_nat id1 < length (records st1))%nat)
    by (apply nth_error_Some; congruence).
  destruct Hcase2 as [-> | (Hid2 & _ & _)].
  - subst id2. rewrite Hnth1 in Hnth2. injection Hnth2 as <-.
    destruct m1, m2. cbn in *. congruence.
  - rewrite (consistent_size st1 Hlog1) in Hid2. lia.
Qed.

(** X27: [Lookup] only appends: on the in-memory store, whichever of its
    operations fail and whatever state it is in, the records after a lookup
    are the records before it, or those followed by one record with the
    path and version of the module; no record is changed or removed. *)
Theorem Lookup_appends_only (f : faults) (up : upstream) (m : ModVersion)
    (st st' : memStore) (r : result Z) (tr : list event) :
  run (mem_handler f up) (sumdb.Lookup m) st = Some (r, st', tr) ->
  records st' = records st \/
  exists rec : RecordT,
    records st' = records st ++ [rec] /\
    RecPath rec = Path m /\ RecVersion rec = Version m.
Proof.
  intros Hrun. apply run_lookup_outcome in Hrun.
  assert (Happend : forall (id : Z) (d : string) (s1 s2 : memStore) (r1 : result unit)
                           (t : list event),
            append_outcome (mem_handler f up) id d s1 r1 s2 t -> records s2 = records s1).
  { intros id d s1 s2 r1 t Hout.
    assert (Hna : existsb is_added t = false) by (destruct Hout; reflexivity).
    apply append_outcome_run in Hout.
    eapply (run_states _ (fun a b => records b = records a) is_added) in Hout;
      [exact Hout | reflexivity | intros; congruence | | exact Hna].
    intros X o s x s0. apply mem_step_records. }
  assert (Hadded : forall (rec : RecordT) (s1 s2 : memStore) (id : Z),
            mem_handler f up _ (OpAddRecord rec) s1 = Some (Ok id, s2) ->
            exists rec' : RecordT,
              records s2 = records s1 ++ [rec'] /\
              RecPath rec' = RecPath rec /\ RecVersion rec' = RecVersion rec).
  { intros rec s1 s2 id Hadd. unfold mem_handler in Hadd.
    destruct (f _ (OpAddRecord rec)) as [efault |]; [discriminate |].
    cbn [mem_answer] in Hadd. unfold mem_AddRecord in Hadd.
    destruct (find _ _); [discriminate |].
    injection Hadd as _ <-. eexists. cbn [records]. split; [reflexivity |].
    split; reflexivity. }
  inversion Hrun as [id0 s1 Hrid | e0 s1 Hrid Hnf | e0 s1 r1 s2 tr1 Hrid Hnf Hf]; subst.
  - apply mem_step_failed in Hrid; [subst; auto | reflexivity].
  - apply mem_step_failed in Hrid; [subst; auto | reflexivity].
  - apply mem_step_failed in Hrid; [subst s1 | reflexivity].
    inversion Hf as [id0 s1' Hrid2 | e1 s1' Hrid2 Hnf2
                     | e1 s1' e2 s2' Hrid2 Hnf2 Hmod
                     | e1 s1' h1mod s2' e2 s3 Hrid2 Hnf2 Hmod Hzip
                     | e1 s1' h1mod s2' h1 s3 e2 s4 Hrid2 Hnf2 Hmod Hzip Hadd
                     | e1 s1' h1mod s2' h1 s3 id0 s4 e2 s5 tr2 Hrid2 Hnf2 Hmod Hzip Hadd Happ
                     | e1 s1' h1mod s2' h1 s3 id0 s4 s5 tr2 Hrid2 Hnf2 Hmod Hzip Hadd Happ];
      subst;
      repeat match goal with
             | H : mem_handler f up _ _ _ = Some (_, _) |- _ =>
                 apply mem_step_failed in H; [subst | reflexivity]
             end; auto.
    + apply Hadded in Hadd as (rec' & Hrec & Hp & Hv).
      apply Happend in Happ. right. exists rec'. rewrite Happ. auto.
    + apply Hadded in Hadd as (rec' & Hrec & Hp & Hv).
      apply Happend in Happ. right. exists rec'. rewrite Happ. auto.
Qed.

End OrderTheorems.

Lemma Lookup_ids_tell_modules_apart_witness :
  exists (st1 st2 : memStore) (tr1 tr2 : list event),
    run (mem_handler no_faults example_upstream) (sumdb.Lookup example_mod) emptyStore
    = Some (Ok 0, st1, tr1) /\
    run (mem_handler no_faults down_upstream) (sumdb.Lookup example_mod) st1
    = Some (Ok 0, st2, tr2) /\
    example_mod = example_mod.
Proof.
  destruct (run (mem_handler no_faults example_upstream) (sumdb.Lookup example_mod)
              emptyStore) as [[[[id | e] st1] tr1] |] eqn:Hrun1;
    try (vm_compute in Hrun1; discriminate).
  assert (Hid : id = 0) by (vm_compute in Hrun1; congruence).
  subst id.
  pose proof (lookup_outcome_run _ _ _ _ _ _
                (LookupFound (mem_handler no_faults down_upstream) example_mod st1 0 st1
                   ltac:(cbv [mem_handler no_faults mem_answer];
                         rewrite (mem_lookup_then_found example_upstream example_mod emptyStore
                                    st1 0 tr1 (run_lookup_outcome _ _ _ _ _ _ Hrun1));
                         reflexivity))) as Hrun2.
  exists st1, st1, tr1, [Ev (OpRecordID (Path example_mod) (Version example_mod)) (Ok 0)].
  split; [reflexivity |]. split; [exact Hrun2 |].
  exact (Lookup_ids_tell_modules_apart example_upstream down_upstream example_mod example_mod
           emptyStore st1 st1 0 0 tr1
           [Ev (OpRecordID (Path example_mod) (Version example_mod)) (Ok 0)]
           consistent_empty ltac:(vm_compute; reflexivity) Hrun1 Hrun2 eq_refl).
Defined.

Lemma Lookup_appends_only_witness :
  exists (e : error) (st : memStore) (tr : list event) (rec : RecordT),
    run (mem_handler failing_writes example_upstream) (sumdb.Lookup example_mod) emptyStore
    = Some (Err e, st, tr) /\
    records st = [rec] /\
    RecPath rec = "example.com/new" /\ RecVersion rec = "v1.0.0".
Proof.
  destruct (run (mem_handler failing_writes example_upstream) (sumdb.Lookup example_mod)
              emptyStore) as [[[[id | e] st] tr] |] eqn:Hrun;
    try (vm_compute in Hrun; discriminate).
  destruct (Lookup_appends_only failing_writes example_upstream example_mod emptyStore st
              (Err e) tr Hrun) as [Hsame | (rec & Hrec & Hp & Hv)].
  - exfalso. pose proof Hrun as Hc. vm_compute in Hc. injection Hc as _ Hst _.
    rewrite <- Hst in Hsame. discriminate Hsame.
  - exists e, st, tr, rec. auto.
Defined.

(** ** The stored hashes are dense *)

Lemma write_hashes_dom (m m' : gmap Z Hash) (idxs : list Z) (hs : list Hash) (j : Z) :
  write_hashes m idxs hs = Some m' ->
  is_Some (m' !! j) <-> is_Some (m !! j) \/ In j idxs.
Proof.
  revert m hs. induction idxs as [| idx idxs IH]; intros m hs; cbn [write_hashes In].
  - intros [= <-]. tauto.
  - destruct hs as [| h hs]; [discriminate |].
    intros Hw. rewrite (IH _ _ Hw), lookup_insert_is_Some.
    destruct (decide (idx = j)); tauto.
Qed.

Section Dense.
Context {sha : Sha256}.
Variable up : upstream.

Lemma append_dense (st : memStore) (id : Z) (d : string) :
  0 <= id -> id + 1 < 2 ^ 62 ->
  (forall j : Z, is_Some (hashes st !! j) <-> 0 <= j < tlog.StoredHashIndex 0 id) ->
  exists (st' : memStore) (tr : list event),
    run (mem_handler no_faults up) (tree.AddRecord id d) st = Some (Ok tt, st', tr) /\
    records st' = records st /\
    treeSize st' = id + 1 /\
    forall j : Z, is_Some (hashes st' !! j) <-> 0 <= j < tlog.StoredHashIndex 0 (id + 1).
Proof.
  intros Hid Htop Hdense.
  set (m := trailing_ones id).
  set (old := mem_ReadHashes st (tlog.read_indexes id m)).
  set (built := tlog.build_hashes (rev old) (tlog.RecordHash d) [tlog.RecordHash d]).
  assert (Hold : length old = m).
  { unfold old, mem_ReadHashes. rewrite length_map. apply read_indexes_length. }
  assert (Hlen : length built = S m).
  { unfold built. rewrite build_hashes_length, length_rev, Hold. reflexivity. }
  assert (Hidx : tree.storedHashIndexes id (length built)
                 = map (fun i => tlog.StoredHashIndex 0 id + Z.of_nat i) (seq 0 (S m))).
  { rewrite Hlen. apply storedHashIndexes_seq; [lia | fold m; lia]. }
  destruct (write_hashes_total (hashes st) (tree.storedHashIndexes id (length built)) built)
    as [m' Hw].
  { rewrite storedHashIndexes_length. lia. }
  assert (Hadd : add64 id 1 = id + 1).
  { unfold add64. apply wrap64_id. unfold int64_ok. lia. }
  exists (mkMem (records st) m' (id + 1)). eexists. split; [| split; [| split]].
  - rewrite <- Hadd. apply append_outcome_run.
    eapply (AppendDone _ id d st old st built).
    + reflexivity.
    + exact Hold.
    + reflexivity.
    + cbv [mem_handler no_faults mem_answer]. rewrite Hw. reflexivity.
    + reflexivity.
  - reflexivity.
  - reflexivity.
  - intros j. cbn [hashes].
    rewrite (write_hashes_dom _ _ _ _ j Hw), Hdense, Hidx, in_map_iff.
    pose proof (leaf_index_bound id ltac:(lia)) as Hb.
    assert (Hnext : tlog.StoredHashIndex 0 (id + 1)
                    = tlog.StoredHashIndex 0 id + 1 + Z.of_nat m).
    { apply leaf_index_succ; lia. }
    rewrite Hnext. split.
    + intros [Hj | (i & Hi & Hin)]; [lia |]. apply in_seq in Hin. lia.
    + intros Hj.
      destruct (Z_lt_dec j (tlog.StoredHashIndex 0 id)) as [Hlt | Hge]; [left; lia |].
      right. exists (Z.to_nat (j - tlog.StoredHashIndex 0 id)). split; [lia |].
      apply in_seq. lia.
Qed.

End Dense.

Lemma dense_size (m : gmap Z Hash) (N : Z) :
  0 <= N ->
  (forall j : Z, is_Some (m !! j) <-> 0 <= j < N) ->
  Z.of_nat (size m) = N.
Proof.
  intros HN Hdense.
  assert (Hdom : dom m = list_to_set (seqZ 0 N)).
  { apply set_eq. intros j.
    rewrite elem_of_dom, elem_of_list_to_set, elem_of_seqZ, Hdense. lia. }
  rewrite <- size_dom, Hdom, size_list_to_set by apply NoDup_seqZ.
  rewrite length_seqZ. lia.
Qed.

Section DenseLoop.
Context {sha : Sha256}.
Variable up : upstream.

Lemma add_records_dense (rs : list string) (id : Z) (st : memStore) :
  0 <= id -> id + Z.of_nat (length rs) < 2 ^ 62 ->
  (forall j : Z, is_Some (hashes st !! j) <-> 0 <= j < tlog.StoredHashIndex 0 id) ->
  exists (st' : memStore) (tr : list event),
    run (mem_handler no_faults up) (add_records id rs) st = Some (Ok tt, st', tr) /\
    (rs <> [] -> treeSize st' = id + Z.of_nat (length rs)) /\
    forall j : Z,
      is_Some (hashes st' !! j)
      <-> 0 <= j < tlog.StoredHashIndex 0 (id + Z.of_nat (length rs)).
Proof.
  revert id st. induction rs as [| d rs IH]; intros id st Hid Hn Hdense.
  - exists st, []. cbn [length Z.of_nat]. rewrite Z.add_0_r.
    split; [reflexivity |]. split; [congruence | exact Hdense].
  - cbn [add_records length] in *.
    destruct (append_dense up st id d Hid ltac:(lia) Hdense)
      as (st1 & tr1 & Hrun & _ & Hsize & Hdense1).
    rewrite run_bind, Hrun.
    assert (Hadd : add64 id 1 = id + 1).
    { unfold add64. apply wrap64_id. unfold int64_ok. lia. }
    rewrite Hadd.
    destruct (IH (id + 1) st1 ltac:(lia) ltac:(lia) Hdense1)
      as (st' & tr2 & Hrun2 & Hsize2 & Hdense2).
    rewrite Hrun2. exists st'. eexists. split; [reflexivity |].
    replace (id + Z.of_nat (S (length rs))) with (id + 1 + Z.of_nat (length rs)) by lia.
    split; [| exact Hdense2].
    intros _. destruct rs as [| d' rs'].
    + cbn [add_records run] in Hrun2. injection Hrun2 as <- _.
      cbn [length Z.of_nat]. lia.
    + apply Hsize2. discriminate.
Qed.

End DenseLoop.

Section DenseTheorems.
Context {sha : Sha256}.
Variable up : upstream.

(** X28: the stored hashes stay dense.  If the in-memory store holds a
    hash at exactly the indexes below [StoredHashIndex(0, id)], then
    [AddRecord] with the id [id] succeeds, touches no record, sets the tree
    size to [id + 1] and leaves a hash at exactly the indexes below
    [StoredHashIndex(0, id + 1)]: the append fills the next block and
    leaves no gap. *)
Theorem AddRecord_keeps_hashes_dense (st : memStore) (id : Z) (d : string) :
  0 <= id -> id + 1 < 2 ^ 62 ->
  (forall j : Z, is_Some (hashes st !! j) <-> 0 <= j < tlog.StoredHashIndex 0 id) ->
  exists (st' : memStore) (tr : list event),
    run (mem_handler no_faults up) (tree.AddRecord id d) st = Some (Ok tt, st', tr) /\
    records st' = records st /\
    treeSize st' = id + 1 /\
    forall j : Z, is_Some (hashes st' !! j) <-> 0 <= j < tlog.StoredHashIndex 0 (id + 1).
Proof. apply append_dense. Qed.

(** X29: the number of stored hashes.  After appending the records [rs]
    one after the other, at the ids 0, 1, ..., to the empty in-memory store,
    the store holds [StoredHashIndex(0, n)] hashes for the [n] records: at
    least [n] and at most [2 n], and more than [n] as soon as there are two
    records. *)
Theorem add_records_hash_count (rs : list string) :
  Z.of_nat (length rs) < 2 ^ 62 ->
  exists (st : memStore) (tr : list event),
    run (mem_handler no_faults up) (add_records 0 rs) emptyStore = Some (Ok tt, st, tr) /\
    Z.of_nat (size (hashes st)) = tlog.StoredHashIndex 0 (Z.of_nat (length rs)) /\
    Z.of_nat (length rs) <= Z.of_nat (size (hashes st)) <= 2 * Z.of_nat (length rs) /\
    (2 <= Z.of_nat (length rs) -> Z.of_nat (length rs) < Z.of_nat (size (hashes st))).
Proof.
  intros Hn. set (n := Z.of_nat (length rs)) in *.
  destruct (add_records_dense up rs 0 emptyStore) as (st & tr & Hrun & _ & Hdense).
  - lia.
  - fold n. lia.
  - intros j. cbn [emptyStore hashes]. rewrite lookup_empty, leaf_index_0.
    split; [intros [x Hx]; discriminate | lia].
  - rewrite Z.add_0_l in Hdense. fold n in Hdense.
    pose proof (leaf_index_bound n ltac:(lia)) as Hb.
    assert (Hcount : Z.of_nat (size (hashes st)) = tlog.StoredHashIndex 0 n).
    { apply dense_size; [lia | exact Hdense]. }
    exists st, tr. split; [exact Hrun |]. split; [exact Hcount |].
    rewrite Hcount. split; [exact Hb |].
    intros H2. rewrite leaf_index_step by lia.
    pose proof (half_bounds n ltac:(lia)) as Hh.
    pose proof (leaf_index_bound (n / 2) ltac:(lia)). lia.
Qed.

End DenseTheorems.

(** The first append to the empty store fills index 0. *)
Lemma AddRecord_keeps_hashes_dense_witness :
  exists (st' : memStore) (tr : list event),
    run (mem_handler no_faults example_upstream) (tree.AddRecord 0 "a v1 h1:x") emptyStore
    = Some (Ok tt, st', tr) /\
    records st' = records emptyStore /\
    treeSize st' = 0 + 1 /\
    forall j : Z, is_Some (hashes st' !! j) <-> 0 <= j < tlog.StoredHashIndex 0 (0 + 1).
Proof.
  apply (AddRecord_keeps_hashes_dense example_upstream emptyStore 0 "a v1 h1:x").
  - lia.
  - vm_compute. reflexivity.
  - intros j. cbn [emptyStore hashes]. rewrite lookup_empty, leaf_index_0.
    split; [intros [x Hx]; discriminate | lia].
Defined.

(** Four records, as in the test of the tree engine: seven hashes. *)
Lemma add_records_hash_count_witness :
  exists (st : memStore) (tr : list event),
    run (mem_handler no_faults example_upstream) (add_records 0 ["a"; "b"; "c"; "d"]) emptyStore
    = Some (Ok tt, st, tr) /\
    Z.of_nat (size (hashes st))
    = tlog.StoredHashIndex 0 (Z.of_nat (length ["a"; "b"; "c"; "d"])) /\
    Z.of_nat (length ["a"; "b"; "c"; "d"]) <= Z.of_nat (size (hashes st))
      <= 2 * Z.of_nat (length ["a"; "b"; "c"; "d"]) /\
    (2 <= Z.of_nat (length ["a"; "b"; "c"; "d"])
     -> Z.of_nat (length ["a"; "b"; "c"; "d"]) < Z.of_nat (size (hashes st))).
Proof.
  apply (add_records_hash_count example_upstream ["a"; "b"; "c"; "d"]).
  vm_compute. reflexivity.
Defined.
